(** * The sculpt pose brush: IK chain solver, factor grower, chain builder

    A shallow embedding of
    [source/blender/editors/sculpt_paint/sculpt_pose.cc].

    Numbers: the C++ code computes in [float].  The embedding idealises
    [float] to the real numbers [R], so every statement below is a
    statement of exact arithmetic; "within epsilon" of the floating-point
    code becomes equality here.

    Arrays ([Span], [MutableSpan], [Array]) are lists indexed by [nat];
    an element write [a[i] = v] is stdpp's [<[i:=v]> a], an element read
    [a[i]] is the total lookup [a !!! i]. *)

From Stdlib Require Import Reals Lra Psatz RNsatz ZArith List.
From stdpp Require Import base list.
Import ListNotations.

#[local] Open Scope R_scope.

(** ** [float3] and the vector operations of [BLI_math_vector] *)

Record float3 : Type := mk_float3 { vx : R; vy : R; vz : R }.

Declare Scope float3_scope.
Delimit Scope float3_scope with v3.
Bind Scope float3_scope with float3.

Definition f3_zero : float3 := mk_float3 0 0 0.

Definition f3_add (a b : float3) : float3 :=
  mk_float3 (vx a + vx b) (vy a + vy b) (vz a + vz b).

Definition f3_sub (a b : float3) : float3 :=
  mk_float3 (vx a - vx b) (vy a - vy b) (vz a - vz b).

(** [v * s] and [v / s] with a scalar on the right, as in [float3]. *)
Definition f3_mul (a : float3) (s : R) : float3 :=
  mk_float3 (vx a * s) (vy a * s) (vz a * s).

Definition f3_div (a : float3) (s : R) : float3 :=
  mk_float3 (vx a / s) (vy a / s) (vz a / s).

Definition dot (a b : float3) : R :=
  vx a * vx b + vy a * vy b + vz a * vz b.

Definition cross (a b : float3) : float3 :=
  mk_float3 (vy a * vz b - vz a * vy b)
            (vz a * vx b - vx a * vz b)
            (vx a * vy b - vy a * vx b).

Definition length_squared (a : float3) : R := dot a a.

(** [math::length]. *)
Definition f3_length (a : float3) : R := sqrt (length_squared a).

(** [math::distance(a, b)] is [length(a - b)]. *)
Definition distance (a b : float3) : R := f3_length (f3_sub a b).

(** [math::normalize]: the vector divided by its length.  On the zero
    vector the library returns the zero vector; so does this definition,
    since [0 / 0 = 0] in [R]. *)
Definition normalize (a : float3) : float3 := f3_div a (f3_length a).

Infix "+v" := f3_add (at level 50, left associativity) : float3_scope.
Infix "-v" := f3_sub (at level 50, left associativity) : float3_scope.
Infix "*v" := f3_mul (at level 40, left associativity) : float3_scope.

#[local] Open Scope float3_scope.

(** ** Quaternions and 4x4 matrices

    [float rot[4]] holds a quaternion with the scalar part first. *)

Record Quat : Type := mk_quat { qw : R; qx : R; qy : R; qz : R }.

(** [unit_qt]. *)
Definition unit_qt : Quat := mk_quat 1 0 0 0.

Definition quat_vec (q : Quat) : float3 := mk_float3 (qx q) (qy q) (qz q).

Definition quat_norm_squared (q : Quat) : R :=
  qw q * qw q + qx q * qx q + qy q * qy q + qz q * qz q.

(** What it means for a unit quaternion [q = (w, u)] to rotate a vector:
    [v + 2w (u x v) + 2 u x (u x v)], the conjugation [q v q^-1]. *)
Definition quat_rotate (q : Quat) (v : float3) : float3 :=
  let u := quat_vec q in
  v +v cross u v *v (2 * qw q) +v cross u (cross u v) *v 2.

(** A row of a [float4x4] and the matrix itself, row by row as
    [float m[4][4]]. *)
Record float4 : Type := mk_float4 { f4_xyz : float3; f4_w : R }.

Record float4x4 : Type :=
  mk_float4x4 { m_row0 : float4; m_row1 : float4; m_row2 : float4; m_row3 : float4 }.

(** [unit_m4]. *)
Definition unit_m4 : float4x4 :=
  mk_float4x4 (mk_float4 (mk_float3 1 0 0) 0)
              (mk_float4 (mk_float3 0 1 0) 0)
              (mk_float4 (mk_float3 0 0 1) 0)
              (mk_float4 (mk_float3 0 0 0) 1).

(** The rotation helpers of [BLI_math_rotation] that the solver calls.
    Their bodies are not part of this file's source; the solver is
    parametric in them. *)
Class RotationLib : Type := {
  rotation_between_vecs_to_quat : float3 -> float3 -> Quat;
  axis_angle_normalized_to_quat : float3 -> R -> Quat;
  rotation_between_quats_to_quat : Quat -> Quat -> Quat
}.

(** The contract of [rotation_between_vecs_to_quat] on unit vectors: the
    quaternion it returns is a unit quaternion that rotates the first
    vector onto the second. *)
Class RotationLibSpec (L : RotationLib) : Prop := {
  rotation_between_vecs_unit :
    forall a b : float3, f3_length a = 1 -> f3_length b = 1 ->
      quat_norm_squared (rotation_between_vecs_to_quat a b) = 1;
  rotation_between_vecs_rotate :
    forall a b : float3, f3_length a = 1 -> f3_length b = 1 ->
      quat_rotate (rotation_between_vecs_to_quat a b) a = b
}.

(** ** The IK chain ([IKChainSegment], [IKChain]) *)

(** [PAINT_SYMM_AREAS]: one matrix per symmetry area. *)
Definition PAINT_SYMM_AREAS : nat := 8.

Record IKChainSegment : Type := mk_segment {
  orig : float3;
  head : float3;
  initial_orig : float3;
  initial_head : float3;
  len : R;
  scale : float3;
  rot : Quat;
  weights : list R;
  trans_mat : list float4x4;
  pivot_mat : list float4x4;
  pivot_mat_inv : list float4x4
}.

Record IKChain : Type := mk_chain {
  segments : list IKChainSegment;
  grab_delta_offset : float3
}.

Definition set_segments (c : IKChain) (segs : list IKChainSegment) : IKChain :=
  mk_chain segs (grab_delta_offset c).

Section WithRotationLib.
Context {L : RotationLib}.

(** One pass of the loop body of [solve_ik_chain] on [segments[i]] with
    the running [target]. *)
Definition ik_segment_step (target : float3) (s : IKChainSegment) : IKChainSegment :=
  let current_orientation := normalize (target -v orig s) in
  let initial_orientation := normalize (initial_head s -v initial_orig s) in
  let new_rot := rotation_between_vecs_to_quat initial_orientation current_orientation in
  let current_head_position := orig s +v current_orientation *v len s in
  let current_origin_position := target -v current_head_position in
  mk_segment (orig s +v current_origin_position) current_head_position
             (initial_orig s) (initial_head s) (len s) (scale s) new_rot
             (weights s) (trans_mat s) (pivot_mat s) (pivot_mat_inv s).

(** The loop of [solve_ik_chain]: segments in chain order, the origin
    just written being the target of the next segment. *)
Fixpoint ik_loop (target : float3) (segs : list IKChainSegment) : list IKChainSegment :=
  match segs with
  | [] => []
  | s :: rest =>
      let s' := ik_segment_step target s in
      s' :: ik_loop (orig s') rest
  end.

(** The value of the variable [target] at the start of each iteration. *)
Fixpoint ik_targets (target : float3) (segs : list IKChainSegment) : list float3 :=
  match segs with
  | [] => []
  | s :: rest => target :: ik_targets (orig (ik_segment_step target s)) rest
  end.

Definition translate_segment (d : float3) (s : IKChainSegment) : IKChainSegment :=
  mk_segment (orig s +v d) (head s +v d)
             (initial_orig s) (initial_head s) (len s) (scale s) (rot s)
             (weights s) (trans_mat s) (pivot_mat s) (pivot_mat_inv s).

(** The vector by which the anchored solve moves the chain back; zero for
    an empty chain, on which [segments.last()] is not defined and the
    translation loop has nothing to move. *)
Definition anchor_diff (segs : list IKChainSegment) : float3 :=
  match last segs with
  | Some l => initial_orig l -v orig l
  | None => f3_zero
  end.

Definition solve_ik_chain (ik_chain : IKChain) (initial_target : float3)
    (use_anchor : bool) : IKChain :=
  let segs := ik_loop initial_target (segments ik_chain) in
  if use_anchor
  then set_segments ik_chain (translate_segment (anchor_diff segs) <$> segs)
  else set_segments ik_chain segs.

(** [solve_translate_chain]. *)
Definition solve_translate_chain (ik_chain : IKChain) (delta : float3) : IKChain :=
  set_segments ik_chain
    ((fun s =>
        mk_segment (initial_orig s +v delta) (initial_head s +v delta)
                   (initial_orig s) (initial_head s) (len s) (scale s) unit_qt
                   (weights s) (trans_mat s) (pivot_mat s) (pivot_mat_inv s))
       <$> segments ik_chain).

(** [solve_scale_chain]. *)
Definition solve_scale_chain (ik_chain : IKChain) (new_scale : float3) : IKChain :=
  set_segments ik_chain
    ((fun s =>
        mk_segment (orig s) (head s)
                   (initial_orig s) (initial_head s) (len s) new_scale (rot s)
                   (weights s) (trans_mat s) (pivot_mat s) (pivot_mat_inv s))
       <$> segments ik_chain).

(** [solve_roll_chain]; [curve_strength i n] stands for
    [BKE_brush_curve_strength(&brush, i, n)]. *)
Definition solve_roll_chain (ik_chain : IKChain) (curve_strength : nat -> nat -> R)
    (roll : R) : IKChain :=
  let n := length (segments ik_chain) in
  set_segments ik_chain
    (imap (fun i s =>
             let initial_orientation := normalize (initial_head s -v initial_orig s) in
             let current_roll := roll * curve_strength i n in
             let initial_rotation := axis_angle_normalized_to_quat initial_orientation 0 in
             let current_rotation :=
               axis_angle_normalized_to_quat initial_orientation current_roll in
             mk_segment (orig s) (head s)
                        (initial_orig s) (initial_head s) (len s) (scale s)
                        (rotation_between_quats_to_quat current_rotation initial_rotation)
                        (weights s) (trans_mat s) (pivot_mat s) (pivot_mat_inv s))
          (segments ik_chain)).

End WithRotationLib.


(** ** A reference implementation of the rotation helpers

    One concrete [RotationLib], built from the half-angle construction,
    on which the statements below are instantiated.  It is not a
    transcription of [BLI_math_rotation]; it shows that the contract
    [RotationLibSpec] can be met. *)

(** [mul_qt_qtqt]: the Hamilton product. *)
Definition quat_mul (a b : Quat) : Quat :=
  mk_quat (qw a * qw b - qx a * qx b - qy a * qy b - qz a * qz b)
          (qw a * qx b + qx a * qw b + qy a * qz b - qz a * qy b)
          (qw a * qy b + qy a * qw b + qz a * qx b - qx a * qz b)
          (qw a * qz b + qz a * qw b + qx a * qy b - qy a * qx b).

Definition quat_of (w : R) (u : float3) : Quat := mk_quat w (vx u) (vy u) (vz u).

(** A unit vector orthogonal to [a]. *)
Definition ortho_unit (a : float3) : float3 :=
  let o := mk_float3 (- vy a) (vx a) 0 in
  if Req_dec_T (length_squared o) 0 then mk_float3 1 0 0 else normalize o.

Definition ref_rotation_between_vecs (a b : float3) : Quat :=
  let d := dot a b in
  if Req_dec_T (1 + d) 0
  then quat_of 0 (ortho_unit a)
  else let s := sqrt (2 * (1 + d)) in
       quat_of ((1 + d) / s) (f3_div (cross a b) s).

Definition ref_axis_angle (axis : float3) (angle : R) : Quat :=
  quat_of (cos (angle / 2)) (axis *v sin (angle / 2)).

Definition ref_rotation_between_quats (q1 q2 : Quat) : Quat :=
  let n := quat_norm_squared q1 in
  quat_mul (mk_quat (qw q1 / n) (- qx q1 / n) (- qy q1 / n) (- qz q1 / n)) q2.

Definition ref_rotation_lib : RotationLib :=
  {| rotation_between_vecs_to_quat := ref_rotation_between_vecs;
     axis_angle_normalized_to_quat := ref_axis_angle;
     rotation_between_quats_to_quat := ref_rotation_between_quats |}.

(** ** Sample chains *)

(** A segment in its construction pose: [orig]/[head] equal to the initial
    values, unit scale, identity rotation, no weights and no matrices. *)
Definition rest_segment (o h : float3) (l : R) : IKChainSegment :=
  mk_segment o h o h l (mk_float3 1 1 1) unit_qt [] [] [] [].

(** One segment from the origin to [(0,0,1)], length 1. *)
Definition chain_unit_z : IKChain :=
  mk_chain [rest_segment f3_zero (mk_float3 0 0 1) 1] f3_zero.

(** One segment from [(0,0,1)] to [(0,0,2)], length 1. *)
Definition chain_raised_z : IKChain :=
  mk_chain [rest_segment (mk_float3 0 0 1) (mk_float3 0 0 2) 1] f3_zero.

(** Two segments along the z axis: head [(0,0,2)], joint [(0,0,1)], base at
    the origin. *)
Definition chain_two_z : IKChain :=
  mk_chain [rest_segment (mk_float3 0 0 1) (mk_float3 0 0 2) 1;
            rest_segment f3_zero (mk_float3 0 0 1) 1] f3_zero.

(** ** The factor grower ([grow_factors_mesh], [grow_pose_factor])

    The model follows the [bke::pbvh::Type::Mesh] case of
    [grow_pose_factor]; [grow_factors_grids] and [grow_factors_bmesh]
    apply the same rule to each vertex and differ in how they enumerate
    vertices and neighbours. *)

(** Reads outside an array are not defined in the source; the total
    lookup returns these values there. *)
#[global] Instance R_inhabited : Inhabited R := populate 0.
#[global] Instance float3_inhabited : Inhabited float3 := populate f3_zero.

#[global] Instance Rlt_decision : RelDecision Rlt := Rlt_dec.
#[global] Instance Req_decision : EqDecision R := Req_dec_T.

(** [FAKE_NEIGHBOR_NONE]. *)
Definition FAKE_NEIGHBOR_NONE : Z := (-1)%Z.

(** What the grower reads from the object, the session and the [pbvh] of
    a mesh:
    - [vert_positions]: the evaluated vertex positions;
    - [vert_neighbors v]: the topological neighbours of [v], as
      [calc_vert_neighbors] reports them;
    - [hide_vert]: the [".hide_vert"] attribute, empty when absent;
    - [fake_neighbor_index]: [ss.fake_neighbors.fake_neighbor_index],
      empty when fake neighbours are disabled;
    - [leaf_nodes]: the vertices of each leaf node;
    - [mesh_symmetry]: [SCULPT_mesh_symmetry_xyz_get], the symmetry flags;
    - [check_vertex_pivot_symmetry]: [SCULPT_check_vertex_pivot_symmetry]
      at the mesh symmetry flags;
    - [is_symmetry_iteration_valid], [symmetry_flip]:
      [SCULPT_is_symmetry_iteration_valid] and [symmetry_flip]. *)
Record SculptMesh : Type := mk_sculpt_mesh {
  vert_positions : list float3;
  vert_neighbors : nat -> list nat;
  hide_vert : list bool;
  fake_neighbor_index : list Z;
  leaf_nodes : list (list nat);
  mesh_symmetry : nat;
  check_vertex_pivot_symmetry : float3 -> float3 -> bool;
  is_symmetry_iteration_valid : nat -> nat -> bool;
  symmetry_flip : float3 -> nat -> float3
}.

(** [SCULPT_vertex_count_get]. *)
Definition vertex_count (ob : SculptMesh) : nat := length (vert_positions ob).

Record PoseGrowFactorData : Type := mk_gftd {
  pos_avg : float3;
  pos_count : Z
}.

(** [PoseGrowFactorData{}]. *)
Definition gftd_init : PoseGrowFactorData := mk_gftd f3_zero 0%Z.

(** [PoseGrowFactorData::join]: the sums of the two position sums and of
    the two counts.  The positions are real numbers here; the count is at
    most the number of vertices of the mesh. *)
Definition gftd_join (a b : PoseGrowFactorData) : PoseGrowFactorData :=
  mk_gftd (pos_avg a +v pos_avg b) (pos_count a + pos_count b)%Z.

(** [hide::node_visible_verts]: the vertices of the node that are not
    hidden; all of them when there is no hide attribute. *)
Definition node_visible_verts (ob : SculptMesh) (node : list nat) : list nat :=
  filter (fun v => default false (hide_vert ob !! v) = false) node.

(** The neighbour list of a vertex after [calc_vert_neighbors] and
    [add_fake_neighbors]. *)
Definition neighbors_of (ob : SculptMesh) (vert : nat) : list nat :=
  let fake := default FAKE_NEIGHBOR_NONE (fake_neighbor_index ob !! vert) in
  if decide (fake_neighbor_index ob = [])
  then vert_neighbors ob vert
  else if decide (fake = FAKE_NEIGHBOR_NONE)
       then vert_neighbors ob vert
       else vert_neighbors ob vert ++ [Z.to_nat fake].

(** The inner loop: [max = 0; for neighbor: max = std::max(max, prev_mask[neighbor])]. *)
Definition neighbor_max (prev_mask : list R) (neighbors : list nat) : R :=
  fold_left (fun max neighbor => Rmax max (prev_mask !!! neighbor)) neighbors 0.

(** The body of the vertex loop of [grow_factors_mesh]; the state is the
    array [pose_factor] being written and the accumulator [gftd]. *)
Definition grow_vert (ob : SculptMesh) (pose_initial_position : float3)
    (prev_mask : list R) (st : list R * PoseGrowFactorData) (vert : nat)
    : list R * PoseGrowFactorData :=
  let '(pose_factor, gftd) := st in
  let max := neighbor_max prev_mask (neighbors_of ob vert) in
  if Rlt_dec (prev_mask !!! vert) max
  then
    let position := vert_positions ob !!! vert in
    let pose_factor := <[vert := max]> pose_factor in
    if check_vertex_pivot_symmetry ob position pose_initial_position
    then (pose_factor, mk_gftd (pos_avg gftd +v position) (pos_count gftd + 1)%Z)
    else (pose_factor, gftd)
  else (pose_factor, gftd).

Definition grow_factors_mesh (ob : SculptMesh) (pose_initial_position : float3)
    (prev_mask : list R) (node : list nat)
    (pose_factor : list R) (gftd : PoseGrowFactorData)
    : list R * PoseGrowFactorData :=
  fold_left (grow_vert ob pose_initial_position prev_mask)
            (node_visible_verts ob node) (pose_factor, gftd).

(** One ring: the reduction over all leaf nodes.  Every node starts from
    the identity accumulator and the partial results are joined; the
    nodes write to the one shared [pose_factor]. *)
Definition grow_ring (ob : SculptMesh) (pose_target : float3)
    (prev_mask pose_factor : list R) : list R * PoseGrowFactorData :=
  fold_left
    (fun (st : list R * PoseGrowFactorData) node =>
       let '(pf, g) := grow_factors_mesh ob pose_target prev_mask node (fst st) gftd_init in
       (pf, gftd_join (snd st) g))
    (leaf_nodes ob) (pose_factor, gftd_init).

(** The centroid [gftd.pos_avg /= float(gftd.pos_count)]. *)
Definition gftd_centroid (gftd : PoseGrowFactorData) : float3 :=
  f3_div (pos_avg gftd) (IZR (pos_count gftd)).

(** [len < prev_len], where [prev_len] starts as [FLT_MAX]: [None] stands
    for [FLT_MAX], above every length. *)
Definition len_below (len : R) (prev_len : option R) : bool :=
  match prev_len with
  | None => true
  | Some p => if Rlt_dec len p then true else false
  end.

Record GrowResult : Type := mk_grow_result {
  grown_factor : list R;
  grown_origin : option float3
}.

(** The [while (grow_next_iteration)] loop of [grow_pose_factor].

    [pose_origin] and [r_pose_origin] are nullable pointers: [None] is the
    null pointer, [Some v] a pointer to a buffer that holds [v].  The
    result carries the final [pose_factor] and the final content of the
    [r_pose_origin] buffer.  [fuel] bounds the number of rings; the loop
    returns [None] only when it runs out of fuel. *)
Fixpoint grow_pose_factor_loop (fuel : nat) (ob : SculptMesh)
    (pose_origin : option float3) (pose_target : float3) (max_len : R)
    (prev_len : option R) (r_pose_origin : option float3)
    (pose_factor : list R) : option GrowResult :=
  match fuel with
  | O => None
  | S fuel =>
      let prev_mask := pose_factor in
      let '(pose_factor, gftd) := grow_ring ob pose_target prev_mask pose_factor in
      if decide (pos_count gftd <> 0%Z)
      then
        let centroid := gftd_centroid gftd in
        match pose_origin with
        | Some origin =>
            let len := distance centroid origin in
            if len_below len prev_len
            then grow_pose_factor_loop fuel ob pose_origin pose_target max_len
                   (Some len) r_pose_origin pose_factor
            else Some (mk_grow_result prev_mask r_pose_origin)
        | None =>
            let len := distance centroid pose_target in
            if Rlt_dec len max_len
            then grow_pose_factor_loop fuel ob pose_origin pose_target max_len
                   (Some len) r_pose_origin pose_factor
            else Some (mk_grow_result prev_mask
                         (match r_pose_origin with
                          | Some _ => Some centroid
                          | None => None
                          end))
        end
      else Some (mk_grow_result pose_factor
                   (match r_pose_origin with
                    | Some _ => Some pose_target
                    | None => None
                    end))
  end.

Definition grow_pose_factor (fuel : nat) (ob : SculptMesh)
    (pose_origin : option float3) (pose_target : float3) (max_len : R)
    (r_pose_origin : option float3) (pose_factor : list R) : option GrowResult :=
  grow_pose_factor_loop fuel ob pose_origin pose_target max_len None
    r_pose_origin pose_factor.

(** The field component of the vertex loop, on its own. *)
Definition grow_vert_factor (ob : SculptMesh) (prev_mask pose_factor : list R)
    (vert : nat) : list R :=
  if Rlt_dec (prev_mask !!! vert) (neighbor_max prev_mask (neighbors_of ob vert))
  then <[vert := neighbor_max prev_mask (neighbors_of ob vert)]> pose_factor
  else pose_factor.

(** All vertices a ring visits, in visiting order. *)
Definition ring_verts (ob : SculptMesh) : list nat :=
  concat (node_visible_verts ob <$> leaf_nodes ob).

(** The field and the accumulator after one ring started from [field]
    (the loop copies [pose_factor] into [prev_mask] before each ring). *)
Definition ring_factor (ob : SculptMesh) (pose_target : float3) (field : list R) : list R :=
  fst (grow_ring ob pose_target field field).

Definition ring_data (ob : SculptMesh) (pose_target : float3) (field : list R)
    : PoseGrowFactorData :=
  snd (grow_ring ob pose_target field field).

(** The field after [k] rings. *)
Fixpoint rings (k : nat) (ob : SculptMesh) (pose_target : float3) (field : list R) : list R :=
  match k with
  | O => field
  | S k => rings k ob pose_target (ring_factor ob pose_target field)
  end.

(** The vocabulary of the growth rule: a vertex the ring visits, and the
    maximum of a list of values. *)
Definition visible_vert (ob : SculptMesh) (v : nat) : Prop :=
  (exists node, node ∈ leaf_nodes ob /\ v ∈ node) /\
  default false (hide_vert ob !! v) = false.

Definition is_max_of (m : R) (values : list R) : Prop :=
  m ∈ values /\ forall x, x ∈ values -> x <= m.

(** ** A sample mesh: five vertices on a line, one unit apart *)

Definition line5 : SculptMesh :=
  {| vert_positions := [mk_float3 0 0 0; mk_float3 1 0 0; mk_float3 2 0 0;
                        mk_float3 3 0 0; mk_float3 4 0 0];
     vert_neighbors := fun v =>
       match v with
       | 0 => [1]
       | 1 => [0; 2]
       | 2 => [1; 3]
       | 3 => [2; 4]
       | 4 => [3]
       | _ => []
       end%nat;
     hide_vert := [];
     fake_neighbor_index := [];
     leaf_nodes := [[0; 1; 2]; [3; 4]]%nat;
     mesh_symmetry := 0;
     check_vertex_pivot_symmetry := fun _ _ => true;
     is_symmetry_iteration_valid := fun i _ => Nat.eqb i 0;
     symmetry_flip := fun v _ => v |}.

(** ** A bound on the number of rings

    Every ring that lets the loop continue raises the field somewhere,
    and the values of the field stay among the initial ones and 0.  The
    potential below counts, over all vertices, how many candidate values
    lie strictly under the vertex's value. *)

Fixpoint rank (candidates : list R) (x : R) : nat :=
  match candidates with
  | [] => 0
  | y :: rest => ((if Rlt_dec y x then 1 else 0) + rank rest x)%nat
  end.

Fixpoint potential (candidates : list R) (field : list R) : nat :=
  match field with
  | [] => 0
  | x :: rest => (rank candidates x + potential candidates rest)%nat
  end.

(** Enough fuel for the loop of [grow_pose_factor] on [totvert] vertices. *)
Definition grow_fuel (totvert : nat) : nat := S (totvert * S totvert).

(** The leaf nodes only name vertices of the mesh. *)
Definition nodes_in_range (ob : SculptMesh) (totvert : nat) : Prop :=
  forall v, v ∈ ring_verts ob -> (v < totvert)%nat.

(** A field of [totvert] values, all among [candidates]. *)
Definition field_within (candidates : list R) (totvert : nat) (field : list R) : Prop :=
  length field = totvert /\ forall i, field !!! i ∈ candidates.

(** ** The chain builder in topology mode *)

Inductive eBrushPoseDeformType : Type :=
  | BRUSH_POSE_DEFORM_ROTATE_TWIST
  | BRUSH_POSE_DEFORM_SCALE_TRASLATE
  | BRUSH_POSE_DEFORM_SQUASH_STRETCH.

Inductive eBrushDeformTarget : Type :=
  | BRUSH_DEFORM_TARGET_GEOMETRY
  | BRUSH_DEFORM_TARGET_CLOTH_SIM.

(** The fields of [Brush] that the pose brush reads.  [flag2] is given by
    its two bits [BRUSH_POSE_IK_ANCHORED] and
    [BRUSH_POSE_USE_LOCK_ROTATION]; [curve_strength i n] is
    [BKE_brush_curve_strength(&brush, i, n)]. *)
Record Brush : Type := mk_brush {
  pose_deform_type : eBrushPoseDeformType;
  pose_ik_segments : Z;
  pose_offset : R;
  pose_ik_anchored : bool;
  pose_use_lock_rotation : bool;
  deform_target : eBrushDeformTarget;
  curve_strength : nat -> nat -> R
}.

(** [brush_num_effective_segments]. *)
Definition brush_num_effective_segments (brush : Brush) : Z :=
  match pose_deform_type brush with
  | BRUSH_POSE_DEFORM_SCALE_TRASLATE
  | BRUSH_POSE_DEFORM_SQUASH_STRETCH => 1%Z
  | BRUSH_POSE_DEFORM_ROTATE_TWIST => pose_ik_segments brush
  end.

(** [vert_inside_brush_radius], with [symm] the mesh symmetry flags:
    [for (char i = 0; i <= symm; ++i)]. *)
Definition vert_inside_brush_radius (ob : SculptMesh) (vertex br_co : float3)
    (radius : R) : bool :=
  existsb
    (fun i =>
       is_symmetry_iteration_valid ob i (mesh_symmetry ob)
       && bool_decide (distance (symmetry_flip ob br_co i) vertex < radius))
    (seq 0 (S (mesh_symmetry ob))).

(** The variables the flood-fill callback of [calc_pose_data] captures. *)
Record FloodState : Type := mk_flood_state {
  fl_pose_factor : list R;
  fl_fallback_floodfill_origin : float3;
  fl_pose_origin : float3;
  fl_tot_co : Z
}.

(** [topology_floodfill]: the callback, on the vertex [to_v] being
    visited; the result is the new state and the flag that tells the
    flood fill whether to go on from [to_v]. *)
Definition topology_floodfill (ob : SculptMesh) (pose_initial_co : float3) (radius : R)
    (to_v : nat) (is_duplicate : bool) (st : FloodState) : FloodState * bool :=
  let co := vert_positions ob !!! to_v in
  let pose_factor :=
    if decide (fl_pose_factor st = [])
    then fl_pose_factor st
    else <[to_v := 1]> (fl_pose_factor st) in
  let fallback :=
    if Rlt_dec (length_squared (pose_initial_co -v fl_fallback_floodfill_origin st))
               (length_squared (pose_initial_co -v co))
    then co
    else fl_fallback_floodfill_origin st in
  if vert_inside_brush_radius ob co pose_initial_co radius
  then (mk_flood_state pose_factor fallback (fl_pose_origin st) (fl_tot_co st), true)
  else if check_vertex_pivot_symmetry ob co pose_initial_co && negb is_duplicate
       then (mk_flood_state pose_factor fallback
               (fl_pose_origin st +v co) (fl_tot_co st + 1)%Z, false)
       else (mk_flood_state pose_factor fallback (fl_pose_origin st) (fl_tot_co st), false).

(** [calc_pose_data].  The traversal [flood_fill::execute] is not part of
    this file's source: [visits] is the sequence of [(to_v, is_duplicate)]
    on which it invokes the callback, in order.  The result is
    [(r_pose_origin, r_pose_factor)]; [None] only when the grower runs
    out of fuel. *)
Definition calc_pose_data (fuel : nat) (ob : SculptMesh) (visits : list (nat * bool))
    (initial_location : float3) (radius : R) (offset : R)
    (r_pose_factor : list R) : option (float3 * list R) :=
  let st :=
    fold_left
      (fun st (visit : nat * bool) =>
         fst (topology_floodfill ob initial_location radius (fst visit) (snd visit) st))
      visits
      (mk_flood_state r_pose_factor initial_location f3_zero 0%Z) in
  let pose_origin :=
    if decide (0 < fl_tot_co st)%Z
    then f3_div (fl_pose_origin st) (IZR (fl_tot_co st))
    else fl_fallback_floodfill_origin st in
  let pose_d := normalize (pose_origin -v initial_location) in
  let pose_origin := pose_origin +v pose_d *v radius *v offset in
  if decide (offset <> 0 /\ fl_pose_factor st <> [])
  then
    match grow_pose_factor fuel ob (Some pose_origin) pose_origin 0 None
            (fl_pose_factor st) with
    | Some res => Some (pose_origin, grown_factor res)
    | None => None
    end
  else Some (pose_origin, fl_pose_factor st).

(** A segment as [ik_chain_new] leaves it: weights all zero.  The other
    fields are not initialised by the source; they are zero here, with the
    identity rotation. *)
Definition new_segment (totverts : nat) : IKChainSegment :=
  mk_segment f3_zero f3_zero f3_zero f3_zero 0 f3_zero unit_qt
             (replicate totverts 0) [] [] [].

(** [ik_chain_new]. *)
Definition ik_chain_new (totsegments totverts : nat) : IKChain :=
  mk_chain (replicate totsegments (new_segment totverts)) f3_zero.

(** The loop of [ik_chain_origin_heads_init]; [head] is the head of the
    segment at the front of [segs]. *)
Fixpoint origin_heads_loop (head : float3) (segs : list IKChainSegment)
    : list IKChainSegment :=
  match segs with
  | [] => []
  | s :: rest =>
      let origin := orig s in
      mk_segment origin head origin head (distance head origin) (mk_float3 1 1 1)
                 (rot s) (weights s) (trans_mat s) (pivot_mat s) (pivot_mat_inv s)
      :: origin_heads_loop origin rest
  end.

(** [ik_chain_origin_heads_init]. *)
Definition ik_chain_origin_heads_init (ik_chain : IKChain) (initial_location : float3)
    : IKChain :=
  set_segments ik_chain (origin_heads_loop initial_location (segments ik_chain)).

Definition set_orig_weights (s : IKChainSegment) (o : float3) (w : list R)
    : IKChainSegment :=
  mk_segment o (head s) (initial_orig s) (initial_head s) (len s) (scale s) (rot s)
             w (trans_mat s) (pivot_mat s) (pivot_mat_inv s).

(** The loop over the segments [1 .. N-1] of [pose_ik_chain_init_topology].
    The state is [next_chain_segment_target], [pose_factor_grow] and
    [pose_factor_grow_prev]; the result carries the segments written and
    the final [pose_factor_grow]. *)
Fixpoint grow_segments (fuel : nat) (ob : SculptMesh) (chain_segment_len : R)
    (next_chain_segment_target : float3)
    (pose_factor_grow pose_factor_grow_prev : list R)
    (segs : list IKChainSegment) : option (list IKChainSegment * list R) :=
  match segs with
  | [] => Some ([], pose_factor_grow)
  | s :: rest =>
      match grow_pose_factor fuel ob None next_chain_segment_target chain_segment_len
              (Some (orig s)) pose_factor_grow with
      | None => None
      | Some res =>
          let pose_factor_grow := grown_factor res in
          let new_orig := default (orig s) (grown_origin res) in
          let new_weights := zip_with Rminus pose_factor_grow pose_factor_grow_prev in
          match grow_segments fuel ob chain_segment_len new_orig
                  pose_factor_grow pose_factor_grow rest with
          | None => None
          | Some (segs', final) =>
              Some (set_orig_weights s new_orig new_weights :: segs', final)
          end
      end
  end.

(** [pose_ik_chain_init_topology], together with the final value of its
    local [pose_factor_grow].  [nearest_vertex_index] is the index that
    [nearest_vert_calc] returns.  [None] when the grower runs out of fuel,
    and for a chain without segments, on which [segments[0]] is not
    defined. *)
Definition pose_ik_chain_init_topology_fields (fuel : nat) (ob : SculptMesh)
    (brush : Brush) (visits : list (nat * bool)) (nearest_vertex_index : nat)
    (initial_location : float3) (radius : R) : option (IKChain * list R) :=
  let chain_segment_len := radius * (1 + pose_offset brush) in
  let totvert := vertex_count ob in
  let pose_factor_grow := <[nearest_vertex_index := 1]> (replicate totvert 0) in
  let tot_segments := brush_num_effective_segments brush in
  let ik_chain := ik_chain_new (Z.to_nat tot_segments) totvert in
  match segments ik_chain with
  | [] => None
  | seg0 :: rest =>
      match calc_pose_data fuel ob visits initial_location radius (pose_offset brush)
              pose_factor_grow with
      | None => None
      | Some (orig0, pose_factor_grow) =>
          let seg0 := set_orig_weights seg0 orig0 pose_factor_grow in
          match grow_segments fuel ob chain_segment_len orig0
                  pose_factor_grow pose_factor_grow rest with
          | None => None
          | Some (segs, final) =>
              Some (ik_chain_origin_heads_init
                      (set_segments ik_chain (seg0 :: segs)) initial_location,
                    final)
          end
      end
  end.

Definition pose_ik_chain_init_topology (fuel : nat) (ob : SculptMesh)
    (brush : Brush) (visits : list (nat * bool)) (nearest_vertex_index : nat)
    (initial_location : float3) (radius : R) : option IKChain :=
  fst <$> pose_ik_chain_init_topology_fields fuel ob brush visits nearest_vertex_index
            initial_location radius.

(** The sum over the segments of the weight of vertex [v]. *)
Definition sum_R (l : list R) : R := fold_right Rplus 0 l.

Definition weight_sum (ik_chain : IKChain) (v : nat) : R :=
  sum_R ((fun s => weights s !!! v) <$> segments ik_chain).

(** A field of [totvert] values in [[0,1]]. *)
Definition unit_field (totvert : nat) (field : list R) : Prop :=
  length field = totvert /\ forall i, 0 <= field !!! i <= 1.

(** A sample brush: rotate/twist with three segments, no origin offset. *)
Definition brush_rotate3 : Brush :=
  mk_brush BRUSH_POSE_DEFORM_ROTATE_TWIST 3 0 false false
           BRUSH_DEFORM_TARGET_GEOMETRY (fun _ _ => 1).

(** The same brush in squash/stretch mode. *)
Definition brush_squash3 : Brush :=
  mk_brush BRUSH_POSE_DEFORM_SQUASH_STRETCH 3 0 false false
           BRUSH_DEFORM_TARGET_GEOMETRY (fun _ _ => 1).

(** ** The builder on the five-vertex line

    Brush at vertex 0 with radius 3/2.  The flood fill from vertex 0
    reaches vertex 1, inside the radius, goes on to vertex 2, outside the
    radius, and stops there. *)
Definition line5_visits : list (nat * bool) := [(1%nat, false); (2%nat, false)].

Definition line5_chain (brush : Brush) : IKChain :=
  default (ik_chain_new 0 0)
    (pose_ik_chain_init_topology (grow_fuel 5) line5 brush line5_visits 0
       f3_zero (3 / 2)).

(** ** The deformation modes and [do_pose_brush] *)

(** Modelled from the spec: [plane_from_point_normal_v3] of
    [BLI_math_geom], whose body is not part of this file's source: the
    plane through [point] with normal [normal], as the four coefficients
    [(normal, -normal . point)]. *)
Definition plane_from_point_normal_v3 (point normal : float3) : float4 :=
  mk_float4 normal (- dot normal point).

(** Modelled from the spec: [dist_signed_to_plane_v3] of [BLI_math_geom],
    whose body is not part of this file's source: the signed distance of
    [pt] to the plane, positive on the side the normal points to. *)
Definition dist_signed_to_plane_v3 (pt : float3) (plane : float4) : R :=
  let len_sq := length_squared (f4_xyz plane) in
  let side := dot pt (f4_xyz plane) + f4_w plane in
  sqrt len_sq * (side / len_sq).

(** The fields of [StrokeCache] that the pose brush reads and writes;
    [initial_mouse_x] and [mouse_x] are [initial_mouse[0]] and
    [mouse[0]]. *)
Record StrokeCache : Type := mk_cache {
  mirror_symmetry_pass : Z;
  location : float3;
  grab_delta : float3;
  orig_grab_location : float3;
  invert : bool;
  initial_mouse_x : R;
  mouse_x : R;
  bstrength : R;
  pose_ik_chain : IKChain
}.

Definition set_pose_ik_chain (c : StrokeCache) (chain : IKChain) : StrokeCache :=
  mk_cache (mirror_symmetry_pass c) (location c) (grab_delta c) (orig_grab_location c)
           (invert c) (initial_mouse_x c) (mouse_x c) (bstrength c) chain.

(** The object being sculpted: the stroke cache of its session, the live
    vertex positions, and the deformation target of the cloth
    simulation. *)
Record SculptObject : Type := mk_object {
  cache : StrokeCache;
  positions : list float3;
  deformation_pos : list float3
}.

(** The matrix and symmetry helpers that the transform composer calls,
    and the sweep of the deformation applicator over the nodes
    ([calc_mesh], [calc_grids], [calc_bmesh] with their collaborators);
    their bodies are not part of the model. *)
Class DeformLib : Type := {
  flip_quat_by_symm_area : Quat -> nat -> nat -> float3 -> Quat;
  flip_v3_by_symm_area : float3 -> nat -> nat -> float3 -> float3;
  quat_to_mat4 : Quat -> float4x4;
  translate_m4 : float4x4 -> R -> R -> R -> float4x4;
  mul_m4_m4_post : float4x4 -> float4x4 -> float4x4;
  invert_m4_m4 : float4x4 -> float4x4;
  ortho_basis_v3v3_v3 : float3 -> float3 * float3;
  apply_deformation :
    Brush -> IKChain -> list nat -> list float3 * list float3 -> list float3 * list float3
}.

Section Deform.
Context {L : RotationLib} {D : DeformLib}.

(** [calc_scale_from_grab_delta]; [None] for a chain without segments, on
    which [segments[0]] is not defined. *)
Definition calc_scale_from_grab_delta (c : StrokeCache) (ik_target : float3) : option R :=
  match segments (pose_ik_chain c) with
  | [] => None
  | seg0 :: _ =>
      let segment_dir := normalize (initial_head seg0 -v initial_orig seg0) in
      let plane := plane_from_point_normal_v3 (initial_head seg0) segment_dir in
      let segment_len := len seg0 in
      Some (segment_len / (segment_len - dist_signed_to_plane_v3 ik_target plane))
  end.

(** [sculpt_pose_do_translate_deform]. *)
Definition sculpt_pose_do_translate_deform (c : StrokeCache) : StrokeCache :=
  set_pose_ik_chain c (solve_translate_chain (pose_ik_chain c) (grab_delta c)).

(** [calc_scale_deform]. *)
Definition calc_scale_deform (c : StrokeCache) (brush : Brush) : option StrokeCache :=
  let ik_target := location c +v grab_delta c in
  let c :=
    if pose_use_lock_rotation brush
    then c
    else set_pose_ik_chain c
           (solve_ik_chain (pose_ik_chain c) ik_target (pose_ik_anchored brush)) in
  match calc_scale_from_grab_delta c ik_target with
  | None => None
  | Some s =>
      Some (set_pose_ik_chain c (solve_scale_chain (pose_ik_chain c) (mk_float3 s s s)))
  end.

(** [calc_twist_deform]. *)
Definition calc_twist_deform (c : StrokeCache) (brush : Brush) : StrokeCache :=
  let roll := (initial_mouse_x c - mouse_x c) * bstrength c * (2 / 100) in
  set_pose_ik_chain c (solve_roll_chain (pose_ik_chain c) (curve_strength brush) roll).

(** [calc_rotate_deform]. *)
Definition calc_rotate_deform (c : StrokeCache) (brush : Brush) : StrokeCache :=
  let ik_target :=
    location c +v grab_delta c +v grab_delta_offset (pose_ik_chain c) in
  set_pose_ik_chain c
    (solve_ik_chain (pose_ik_chain c) ik_target (pose_ik_anchored brush)).

(** [calc_rotate_twist_deform]. *)
Definition calc_rotate_twist_deform (c : StrokeCache) (brush : Brush) : StrokeCache :=
  if invert c then calc_twist_deform c brush else calc_rotate_deform c brush.

(** [calc_scale_translate_deform]. *)
Definition calc_scale_translate_deform (c : StrokeCache) (brush : Brush)
    : option StrokeCache :=
  if invert c then Some (sculpt_pose_do_translate_deform c) else calc_scale_deform c brush.

(** [calc_squash_stretch_deform]. *)
Definition calc_squash_stretch_deform (c : StrokeCache) : option StrokeCache :=
  let ik_target := location c +v grab_delta c in
  match calc_scale_from_grab_delta c ik_target with
  | None => None
  | Some scale2 =>
      let scale01 := sqrt (1 / scale2) in
      Some (set_pose_ik_chain c
              (solve_scale_chain (pose_ik_chain c) (mk_float3 scale01 scale01 scale2)))
  end.

(** [mul_v3_fl] on the first three entries of a row. *)
Definition scale_row (r : float4) (s : R) : float4 := mk_float4 (f4_xyz r *v s) (f4_w r).

Definition set_row_xyz (r : float4) (v : float3) : float4 := mk_float4 v (f4_w r).

(** [align_pivot_local_space] on a unit matrix. *)
Definition align_pivot_local_space (r_mat : float4x4) (symm symm_area : nat)
    (segment : IKChainSegment) (grab_location : float3) : float4x4 :=
  let symm_head := flip_v3_by_symm_area (head segment) symm symm_area grab_location in
  let symm_orig := flip_v3_by_symm_area (orig segment) symm symm_area grab_location in
  let segment_origin_head := normalize (symm_head -v symm_orig) in
  let '(b0, b1) := ortho_basis_v3v3_v3 segment_origin_head in
  mk_float4x4 (set_row_xyz (m_row0 r_mat) b0) (set_row_xyz (m_row1 r_mat) b1)
              (set_row_xyz (m_row2 r_mat) segment_origin_head) (m_row3 r_mat).

(** The body of the two nested loops of [do_pose_brush] for one segment
    and one symmetry area: the matrices [trans_mat], [pivot_mat] and
    [pivot_mat_inv] of that area. *)
Definition segment_matrices (brush : Brush) (symm : nat) (c : StrokeCache)
    (s : IKChainSegment) (symm_it : nat) : float4x4 * float4x4 * float4x4 :=
  let symm_rot := flip_quat_by_symm_area (rot s) symm symm_it (orig_grab_location c) in
  let symm_orig := flip_v3_by_symm_area (orig s) symm symm_it (orig_grab_location c) in
  let symm_initial_orig :=
    flip_v3_by_symm_area (initial_orig s) symm symm_it (orig_grab_location c) in
  let squash :=
    match pose_deform_type brush with
    | BRUSH_POSE_DEFORM_SQUASH_STRETCH => true
    | _ => false
    end in
  let pivot_local_space :=
    if squash
    then align_pivot_local_space unit_m4 symm symm_it s (orig_grab_location c)
    else unit_m4 in
  let trans := if squash then unit_m4 else quat_to_mat4 symm_rot in
  let trans :=
    mk_float4x4 (scale_row (m_row0 trans) (vx (scale s)))
                (scale_row (m_row1 trans) (vy (scale s)))
                (scale_row (m_row2 trans) (vz (scale s)))
                (m_row3 trans) in
  let trans :=
    translate_m4 trans (vx symm_orig - vx symm_initial_orig)
                       (vy symm_orig - vy symm_initial_orig)
                       (vz symm_orig - vz symm_initial_orig) in
  let pivot := translate_m4 unit_m4 (vx symm_orig) (vy symm_orig) (vz symm_orig) in
  let pivot := mul_m4_m4_post pivot pivot_local_space in
  (trans, pivot, invert_m4_m4 pivot).

Definition update_segment_matrices (brush : Brush) (symm : nat) (c : StrokeCache)
    (s : IKChainSegment) : IKChainSegment :=
  let areas := seq 0 PAINT_SYMM_AREAS in
  mk_segment (orig s) (head s) (initial_orig s) (initial_head s) (len s) (scale s) (rot s)
             (weights s)
             ((fun a => fst (fst (segment_matrices brush symm c s a))) <$> areas)
             ((fun a => snd (fst (segment_matrices brush symm c s a))) <$> areas)
             ((fun a => snd (segment_matrices brush symm c s a)) <$> areas).

(** [do_pose_brush].  [symm] is [SCULPT_mesh_symmetry_xyz_get(ob)] and
    [node_mask] the nodes to process.  [None] marks a read of
    [segments[0]] on a chain without segments. *)
Definition do_pose_brush (brush : Brush) (symm : nat) (node_mask : list nat)
    (ob : SculptObject) : option SculptObject :=
  if decide (mirror_symmetry_pass (cache ob) <> 0%Z)
  then Some ob
  else
    let solved :=
      match pose_deform_type brush with
      | BRUSH_POSE_DEFORM_ROTATE_TWIST => Some (calc_rotate_twist_deform (cache ob) brush)
      | BRUSH_POSE_DEFORM_SCALE_TRASLATE => calc_scale_translate_deform (cache ob) brush
      | BRUSH_POSE_DEFORM_SQUASH_STRETCH => calc_squash_stretch_deform (cache ob)
      end in
    match solved with
    | None => None
    | Some c =>
        let chain :=
          set_segments (pose_ik_chain c)
            (update_segment_matrices brush symm c <$> segments (pose_ik_chain c)) in
        let '(pos, cloth) :=
          apply_deformation brush chain node_mask (positions ob, deformation_pos ob) in
        Some (mk_object (set_pose_ik_chain c chain) pos cloth)
    end.

End Deform.

(** ** A reference implementation of the matrix helpers

    One concrete [DeformLib] for a mesh without symmetry, on which the
    statements about [do_pose_brush] are instantiated.  The inverse is
    the one of a rigid transform, which is what the pivot matrices
    are. *)

Definition ref_quat_to_mat4 (q : Quat) : float4x4 :=
  let w := qw q in let x := qx q in let y := qy q in let z := qz q in
  mk_float4x4
    (mk_float4 (mk_float3 (1 - 2 * (y * y + z * z)) (2 * (x * y + w * z))
                          (2 * (x * z - w * y))) 0)
    (mk_float4 (mk_float3 (2 * (x * y - w * z)) (1 - 2 * (x * x + z * z))
                          (2 * (y * z + w * x))) 0)
    (mk_float4 (mk_float3 (2 * (x * z + w * y)) (2 * (y * z - w * x))
                          (1 - 2 * (x * x + y * y))) 0)
    (mk_float4 f3_zero 1).

Definition f4_add (a b : float4) : float4 :=
  mk_float4 (f4_xyz a +v f4_xyz b) (f4_w a + f4_w b).

Definition f4_mul (a : float4) (s : R) : float4 := mk_float4 (f4_xyz a *v s) (f4_w a * s).

(** [mat[3] += mat[0] * Tx + mat[1] * Ty + mat[2] * Tz] on the first three
    entries. *)
Definition ref_translate_m4 (m : float4x4) (tx ty tz : R) : float4x4 :=
  mk_float4x4 (m_row0 m) (m_row1 m) (m_row2 m)
    (set_row_xyz (m_row3 m)
       (f4_xyz (m_row3 m) +v f4_xyz (m_row0 m) *v tx +v f4_xyz (m_row1 m) *v ty
        +v f4_xyz (m_row2 m) *v tz)).

Definition ref_row_mul (a : float4x4) (r : float4) : float4 :=
  f4_add (f4_add (f4_mul (m_row0 a) (vx (f4_xyz r))) (f4_mul (m_row1 a) (vy (f4_xyz r))))
         (f4_add (f4_mul (m_row2 a) (vz (f4_xyz r))) (f4_mul (m_row3 a) (f4_w r))).

Definition ref_mul_m4_m4_post (a b : float4x4) : float4x4 :=
  mk_float4x4 (ref_row_mul a (m_row0 b)) (ref_row_mul a (m_row1 b))
              (ref_row_mul a (m_row2 b)) (ref_row_mul a (m_row3 b)).

Definition ref_invert_rigid (m : float4x4) : float4x4 :=
  let r0 := f4_xyz (m_row0 m) in
  let r1 := f4_xyz (m_row1 m) in
  let r2 := f4_xyz (m_row2 m) in
  let t := f4_xyz (m_row3 m) in
  mk_float4x4 (mk_float4 (mk_float3 (vx r0) (vx r1) (vx r2)) 0)
              (mk_float4 (mk_float3 (vy r0) (vy r1) (vy r2)) 0)
              (mk_float4 (mk_float3 (vz r0) (vz r1) (vz r2)) 0)
              (mk_float4 (mk_float3 (- dot t r0) (- dot t r1) (- dot t r2)) 1).

Definition ref_deform_lib : DeformLib :=
  {| flip_quat_by_symm_area := fun q _ _ _ => q;
     flip_v3_by_symm_area := fun v _ _ _ => v;
     quat_to_mat4 := ref_quat_to_mat4;
     translate_m4 := ref_translate_m4;
     mul_m4_m4_post := ref_mul_m4_m4_post;
     invert_m4_m4 := ref_invert_rigid;
     ortho_basis_v3v3_v3 := fun n => (ortho_unit n, cross n (ortho_unit n));
     apply_deformation := fun _ _ _ buffers => buffers |}.

(** ** Sample strokes *)

(** A stroke on [chain_unit_z]: grabbed at the head [(0,0,1)] and dragged
    by [(0,0,1/2)] along the segment. *)
Definition cache_drag_z (pass : Z) (inverted : bool) : StrokeCache :=
  mk_cache pass (mk_float3 0 0 1) (mk_float3 0 0 (1 / 2)) (mk_float3 0 0 1)
           inverted 0 0 1 chain_unit_z.

Definition object_drag_z (pass : Z) (inverted : bool) : SculptObject :=
  mk_object (cache_drag_z pass inverted) [f3_zero; mk_float3 0 0 1] [].

(** A scale/translate brush. *)
Definition brush_scale_translate : Brush :=
  mk_brush BRUSH_POSE_DEFORM_SCALE_TRASLATE 3 0 false false
           BRUSH_DEFORM_TARGET_GEOMETRY (fun _ _ => 1).

(** * Vocabulary of the further properties *)

(** What a solve of positions and rotations leaves alone in a segment. *)
Definition same_reference (s s' : IKChainSegment) : Prop :=
  initial_orig s' = initial_orig s /\
  initial_head s' = initial_head s /\
  len s' = len s /\
  scale s' = scale s /\
  weights s' = weights s /\
  trans_mat s' = trans_mat s /\
  pivot_mat s' = pivot_mat s /\
  pivot_mat_inv s' = pivot_mat_inv s.


(** A segment in the state [ik_chain_origin_heads_init] leaves it in. *)
Definition at_reference_pose (s : IKChainSegment) : Prop :=
  initial_orig s = orig s /\
  initial_head s = head s /\
  len s = distance (head s) (orig s) /\
  scale s = mk_float3 1 1 1.

(** The same mesh with its vertices distributed over other leaf nodes. *)
Definition with_leaf_nodes (ob : SculptMesh) (nodes : list (list nat)) : SculptMesh :=
  mk_sculpt_mesh (vert_positions ob) (vert_neighbors ob) (hide_vert ob)
                 (fake_neighbor_index ob) nodes (mesh_symmetry ob)
                 (check_vertex_pivot_symmetry ob) (is_symmetry_iteration_valid ob)
                 (symmetry_flip ob).

(** No visible vertex has a neighbour with a larger value. *)
Definition saturated (ob : SculptMesh) (field : list R) : Prop :=
  forall v n, visible_vert ob v -> n ∈ neighbors_of ob v ->
              field !!! n <= field !!! v.

(** A visit of the flood fill of [calc_pose_data] that contributes to the
    pose origin: outside the brush radius, on the canonical side of the
    symmetry, and not a symmetry duplicate. *)
Definition flood_counted (ob : SculptMesh) (pose_initial_co : float3) (radius : R)
    (visit : nat * bool) : bool :=
  let co := vert_positions ob !!! fst visit in
  negb (vert_inside_brush_radius ob co pose_initial_co radius)
  && check_vertex_pivot_symmetry ob co pose_initial_co
  && negb (snd visit).

Definition sum_f3 (l : list float3) : float3 := fold_right f3_add f3_zero l.

(** The flood fill of [calc_pose_data] as a fold over the visits. *)
Definition flood_fold (ob : SculptMesh) (c : float3) (radius : R)
    (visits : list (nat * bool)) (st : FloodState) : FloodState :=
  fold_left
    (fun st (visit : nat * bool) =>
       fst (topology_floodfill ob c radius (fst visit) (snd visit) st))
    visits st.


(** What no deformation mode changes in a segment: its reference pose,
    its length and its weights. *)
Definition same_binding (s s' : IKChainSegment) : Prop :=
  initial_orig s' = initial_orig s /\
  initial_head s' = initial_head s /\
  len s' = len s /\
  weights s' = weights s.

(** The joints of a segment stay where they are. *)
Definition same_joints (s s' : IKChainSegment) : Prop :=
  orig s' = orig s /\ head s' = head s.

(** The matrices [do_pose_brush] stores on a segment: one of each kind
    per symmetry area. *)
Definition matrices_stored (s : IKChainSegment) : Prop :=
  length (trans_mat s) = PAINT_SYMM_AREAS /\
  length (pivot_mat s) = PAINT_SYMM_AREAS /\
  length (pivot_mat_inv s) = PAINT_SYMM_AREAS.

(** The object with another chain in its stroke cache. *)
Definition with_chain (ob : SculptObject) (chain : IKChain) : SculptObject :=
  mk_object (set_pose_ik_chain (cache ob) chain) (positions ob) (deformation_pos ob).

(** ** A sample twist stroke

    Two segments along z; the pointer moved 10 pixels to the left at
    full strength, so the roll is 0.2; the brush curve gives the first
    segment the full roll and the second one half of it. *)
Definition brush_twist : Brush :=
  mk_brush BRUSH_POSE_DEFORM_ROTATE_TWIST 2 0 false false
           BRUSH_DEFORM_TARGET_GEOMETRY
           (fun i _ => if Nat.eqb i 0 then 1 else 1 / 2).

Definition object_twist_z : SculptObject :=
  mk_object
    (mk_cache 0 (mk_float3 0 0 2) (mk_float3 1 0 0) (mk_float3 0 0 2)
              true 10 0 1 chain_two_z)
    [f3_zero; mk_float3 0 0 1; mk_float3 0 0 2] [].

(** * The FK builder ([ik_chain_init_face_sets_fk]) *)

#[global] Instance IKChainSegment_inhabited : Inhabited IKChainSegment :=
  populate (new_segment 0).

(** [SCULPT_FACE_SET_NONE]. *)
Definition SCULPT_FACE_SET_NONE : Z := 0.

(** The face sets of the mesh as the builder reads them; the functions
    of the [face_set] namespace are not part of this file's source:
    - [vert_face_set_get v]: [face_set::vert_face_set_get];
    - [vert_has_unique_face_set v]: [face_set::vert_has_unique_face_set];
    - [vert_has_face_set v f]: [face_set::vert_has_face_set];
    - [active_face_set_get]: [face_set::active_face_set_get]. *)
Record FaceSets : Type := mk_face_sets {
  vert_face_set_get : nat -> Z;
  vert_has_unique_face_set : nat -> bool;
  vert_has_face_set : nat -> Z -> bool;
  active_face_set_get : Z
}.

(** One invocation of a flood-fill callback:
    [(from_v, to_v, is_duplicate)]. *)
Record FloodCall : Type := mk_call {
  call_from : nat;
  call_to : nat;
  call_dup : bool
}.

(** The variables the first flood-fill callback of the FK builder
    captures.  [Set<int>] is a list without repetitions: an element is
    added only when it is not contained. *)
Record FkFindState : Type := mk_fk_find {
  fk_visited_face_sets : list Z;
  fk_floodfill_it : list Z;
  fk_masked_face_set_it : Z;
  fk_masked_face_set : Z;
  fk_target_face_set : Z
}.

(** [face_sets_fk_find_masked_floodfill]: the new state and the flag
    returned to the flood fill.  The depth [floodfill_it] is an [int]
    bounded by the number of vertices. *)
Definition face_sets_fk_find_masked_floodfill (fs : FaceSets) (initial_face_set : Z)
    (from_v to_v : nat) (is_duplicate : bool) (st : FkFindState) : FkFindState * bool :=
  let floodfill_it :=
    if negb is_duplicate
    then <[to_v := (fk_floodfill_it st !!! from_v + 1)%Z]> (fk_floodfill_it st)
    else <[to_v := fk_floodfill_it st !!! from_v]> (fk_floodfill_it st) in
  let to_face_set := vert_face_set_get fs to_v in
  let st' :=
    if negb (bool_decide (to_face_set ∈ fk_visited_face_sets st))
       && (vert_has_unique_face_set fs to_v
           && negb (vert_has_unique_face_set fs from_v)
           && vert_has_face_set fs from_v to_face_set)
    then
      let deeper :=
        bool_decide (fk_masked_face_set_it st <= floodfill_it !!! to_v)%Z in
      mk_fk_find (to_face_set :: fk_visited_face_sets st) floodfill_it
        (if deeper then floodfill_it !!! to_v else fk_masked_face_set_it st)
        (if deeper then to_face_set else fk_masked_face_set st)
        (if bool_decide (fk_target_face_set st = SCULPT_FACE_SET_NONE)
         then to_face_set
         else fk_target_face_set st)
    else
      mk_fk_find (fk_visited_face_sets st) floodfill_it (fk_masked_face_set_it st)
        (fk_masked_face_set st) (fk_target_face_set st) in
  (st', vert_has_face_set fs to_v initial_face_set).

(** The first flood fill of the builder: the callback on each invocation
    in turn. *)
Definition fk_find_fold (fs : FaceSets) (initial_face_set : Z) (calls : list FloodCall)
    (st : FkFindState) : FkFindState :=
  fold_left
    (fun st call =>
       fst (face_sets_fk_find_masked_floodfill fs initial_face_set
              (call_from call) (call_to call) (call_dup call) st))
    calls st.

(** [pose_face_sets_fk_set_weights_floodfill]. *)
Definition pose_face_sets_fk_set_weights_floodfill (fs : FaceSets) (to_v : nat)
    (masked_face_set : Z) (fk_weights : list R) : list R * bool :=
  (<[to_v := 1]> fk_weights, negb (vert_has_face_set fs to_v masked_face_set)).

(** The two loops over the vertices of the builder: the sum and the
    number of the positions of the vertices with a non-zero depth that
    have both [active_face_set] and [face_set]. *)
Definition fk_accumulate (ob : SculptMesh) (fs : FaceSets) (floodfill_it : list Z)
    (active_face_set face_set : Z) : float3 * Z :=
  fold_left
    (fun (acc : float3 * Z) (i : nat) =>
       if bool_decide (floodfill_it !!! i <> 0%Z)
          && vert_has_face_set fs i active_face_set
          && vert_has_face_set fs i face_set
       then (fst acc +v vert_positions ob !!! i, (snd acc + 1)%Z)
       else acc)
    (seq 0 (vertex_count ob)) (f3_zero, 0%Z).

Definition set_orig (s : IKChainSegment) (o : float3) : IKChainSegment :=
  mk_segment o (head s) (initial_orig s) (initial_head s) (len s) (scale s) (rot s)
             (weights s) (trans_mat s) (pivot_mat s) (pivot_mat_inv s).

Definition set_head (s : IKChainSegment) (h : float3) : IKChainSegment :=
  mk_segment (orig s) h (initial_orig s) (initial_head s) (len s) (scale s) (rot s)
             (weights s) (trans_mat s) (pivot_mat s) (pivot_mat_inv s).

Definition set_weights (s : IKChainSegment) (w : list R) : IKChainSegment :=
  mk_segment (orig s) (head s) (initial_orig s) (initial_head s) (len s) (scale s) (rot s)
             w (trans_mat s) (pivot_mat s) (pivot_mat_inv s).

(** The state of the first search when it starts: [uninit] is the
    content of [Array<int> floodfill_it(totvert)], which the source
    leaves uninitialised but for the entry of the active vertex. *)
Definition fk_find_start (active_vertex : nat) (uninit : list Z) : FkFindState :=
  mk_fk_find [] (<[active_vertex := 1%Z]> uninit) 0%Z
             SCULPT_FACE_SET_NONE SCULPT_FACE_SET_NONE.

(** [ik_chain_init_face_sets_fk].  The traversal [flood_fill::execute]
    is not part of this file's source: [find_calls] and [weight_calls]
    are the invocations of the callbacks of the first and of the second
    flood fill, in order.  The brush radius only seeds the second flood
    fill ([add_initial_with_symmetry]). *)
Definition ik_chain_init_face_sets_fk (ob : SculptMesh) (fs : FaceSets)
    (active_vertex : nat) (uninit : list Z) (find_calls weight_calls : list FloodCall)
    (initial_location : float3) : IKChain :=
  let totvert := vertex_count ob in
  let ik_chain := ik_chain_new 1 totvert in
  let active_face_set := active_face_set_get fs in
  let st := fk_find_fold fs active_face_set find_calls
              (fk_find_start active_vertex uninit) in
  let floodfill_it := fk_floodfill_it st in
  let masked_face_set := fk_masked_face_set st in
  let target_face_set := fk_target_face_set st in
  let origin := fk_accumulate ob fs floodfill_it active_face_set masked_face_set in
  let target :=
    if decide (target_face_set <> masked_face_set)
    then fk_accumulate ob fs floodfill_it active_face_set target_face_set
    else (f3_zero, 0%Z) in
  let ik_chain :=
    set_segments ik_chain
      (alter (fun s =>
                set_orig s (if decide (0 < snd origin)%Z
                            then f3_div (fst origin) (IZR (snd origin))
                            else f3_zero))
             0%nat (segments ik_chain)) in
  let ik_chain :=
    if decide (0 < snd target)%Z
    then
      let segs :=
        alter (fun s => set_head s (f3_div (fst target) (IZR (snd target))))
              0%nat (segments ik_chain) in
      mk_chain segs (head (segs !!! 0%nat) -v initial_location)
    else
      set_segments ik_chain
        (alter (fun s => set_head s initial_location) 0%nat (segments ik_chain)) in
  let ik_chain :=
    set_segments ik_chain
      (alter (fun s =>
                set_weights s
                  (fold_left
                     (fun w call =>
                        fst (pose_face_sets_fk_set_weights_floodfill fs (call_to call)
                               masked_face_set w))
                     weight_calls (weights s)))
             0%nat (segments ik_chain)) in
  ik_chain_origin_heads_init ik_chain (head (segments ik_chain !!! 0%nat)).

(** A flood fill hands to the callback a [from_v] it has reached: the
    initial vertex or the [to_v] of an earlier invocation; all are
    vertices of the mesh. *)
Fixpoint flood_order (totvert : nat) (reached : list nat) (calls : list FloodCall)
    : Prop :=
  match calls with
  | [] => True
  | call :: rest =>
      call_from call ∈ reached /\ (call_to call < totvert)%nat /\
      flood_order totvert (call_to call :: reached) rest
  end.

(** ** A sample: two face sets on [line5]

    Vertices 0 and 1 are in face set 1, vertices 3 and 4 in face set 2,
    vertex 2 is on the boundary and has both. *)
Definition line5_face_sets : FaceSets :=
  {| vert_face_set_get := fun v => if decide (v < 3)%nat then 1%Z else 2%Z;
     vert_has_unique_face_set := fun v => negb (Nat.eqb v 2);
     vert_has_face_set := fun v f =>
       (Nat.leb v 2 && Z.eqb f 1) || (Nat.leb 2 v && Z.eqb f 2);
     active_face_set_get := 1%Z |}.

Definition line5_find_calls : list FloodCall :=
  [mk_call 0 1 false; mk_call 1 2 false; mk_call 2 3 false].

Definition line5_weight_calls : list FloodCall :=
  [mk_call 0 1 false; mk_call 1 2 false].

(** What the first search of the FK builder keeps true when the
    invocations come in flood order on a mesh whose face sets are all
    set: the vertices reached have a depth of at least 1, every face set
    was accepted once, and either none was accepted yet, or the target is
    the first one accepted and the masked one is among the accepted. *)
Definition fk_find_inv (totvert : nat) (reached : list nat) (st : FkFindState) : Prop :=
  length (fk_floodfill_it st) = totvert /\
  (forall v : nat, v ∈ reached ->
     (v < totvert)%nat /\ (1 <= fk_floodfill_it st !!! v)%Z) /\
  (SCULPT_FACE_SET_NONE ∉ fk_visited_face_sets st) /\
  NoDup (fk_visited_face_sets st) /\
  ((fk_visited_face_sets st = [] /\
    fk_target_face_set st = SCULPT_FACE_SET_NONE /\
    fk_masked_face_set st = SCULPT_FACE_SET_NONE /\
    fk_masked_face_set_it st = 0%Z) \/
   (exists rest : list Z,
      fk_visited_face_sets st = rest ++ [fk_target_face_set st] /\
      fk_masked_face_set st ∈ fk_visited_face_sets st)).

(** * The face-set builder ([ik_chain_init_face_sets]) *)

(** [Set<int>::add]. *)
Definition set_add (x : Z) (s : list Z) : list Z :=
  if bool_decide (x ∈ s) then s else x :: s.

(** The variables the flood-fill callback of the face-set builder
    captures. *)
Record FaceSetFlood : Type := mk_fs_flood {
  fsf_pose_factor : list R;
  fsf_visited_face_sets : list Z;
  fsf_is_weighted : list bool;
  fsf_fallback_origin : float3;
  fsf_fallback_count : Z;
  fsf_current_face_set : Z;
  fsf_next_face_set_found : bool;
  fsf_next_face_set : Z;
  fsf_next_vertex : nat;
  fsf_pose_origin : float3;
  fsf_tot_co : Z
}.

(** The loop over the neighbours of [face_sets_floodfill]: the state is
    [(next_face_set_found, next_face_set, next_vertex)] and
    [count_as_boundary]. *)
Definition face_sets_neighbor_step (fs : FaceSets) (visited_face_sets : list Z)
    (acc : bool * Z * nat * bool) (ni : nat) : bool * Z * nat * bool :=
  let '(found, next_face_set, next_vertex, count_as_boundary) := acc in
  let next_face_set_candidate := vert_face_set_get fs ni in
  if vert_has_unique_face_set fs ni
     && negb (bool_decide (next_face_set_candidate ∈ visited_face_sets))
  then
    if negb found
    then (true, next_face_set_candidate, ni, true)
    else (found, next_face_set, next_vertex, true)
  else acc.

(** [face_sets_floodfill]: the new state and the flag returned to the
    flood fill.  [neighbors v] is the sequence of vertices that
    [SCULPT_VERTEX_NEIGHBORS_ITER_BEGIN] yields on [v]. *)
Definition face_sets_floodfill (ob : SculptMesh) (fs : FaceSets)
    (neighbors : nat -> list nat) (pose_initial_co : float3) (radius : R)
    (is_first_iteration : bool) (to_v : nat) (is_duplicate : bool)
    (st : FaceSetFlood) : FaceSetFlood * bool :=
  let co := vert_positions ob !!! to_v in
  let symmetry_check :=
    check_vertex_pivot_symmetry ob co pose_initial_co && negb is_duplicate in
  if bool_decide (fsf_current_face_set st = SCULPT_FACE_SET_NONE)
  then
    let pose_factor := <[to_v := 1]> (fsf_pose_factor st) in
    let is_weighted := <[to_v := true]> (fsf_is_weighted st) in
    if vert_inside_brush_radius ob co pose_initial_co radius
    then
      (mk_fs_flood pose_factor
         (set_add (vert_face_set_get fs to_v) (fsf_visited_face_sets st))
         is_weighted (fsf_fallback_origin st) (fsf_fallback_count st)
         (fsf_current_face_set st) (fsf_next_face_set_found st) (fsf_next_face_set st)
         (fsf_next_vertex st) (fsf_pose_origin st) (fsf_tot_co st), true)
    else if symmetry_check
    then
      (mk_fs_flood pose_factor
         (set_add (vert_face_set_get fs to_v) (fsf_visited_face_sets st))
         is_weighted (fsf_fallback_origin st) (fsf_fallback_count st)
         (vert_face_set_get fs to_v) (fsf_next_face_set_found st) (fsf_next_face_set st)
         (fsf_next_vertex st) (fsf_pose_origin st) (fsf_tot_co st), true)
    else
      (mk_fs_flood pose_factor (fsf_visited_face_sets st)
         is_weighted (fsf_fallback_origin st) (fsf_fallback_count st)
         (fsf_current_face_set st) (fsf_next_face_set_found st) (fsf_next_face_set st)
         (fsf_next_vertex st) (fsf_pose_origin st) (fsf_tot_co st), true)
  else
    let is_vertex_valid :=
      if is_first_iteration
      then existsb (fun visited_face_set => vert_has_face_set fs to_v visited_face_set)
                   (fsf_visited_face_sets st)
      else vert_has_face_set fs to_v (fsf_current_face_set st) in
    if negb is_vertex_valid
    then (st, false)
    else
      let visit_next := negb (fsf_is_weighted st !!! to_v) in
      let pose_factor :=
        if visit_next then <[to_v := 1]> (fsf_pose_factor st) else fsf_pose_factor st in
      let is_weighted :=
        if visit_next then <[to_v := true]> (fsf_is_weighted st)
        else fsf_is_weighted st in
      let fallback_origin :=
        if symmetry_check then fsf_fallback_origin st +v co else fsf_fallback_origin st in
      let fallback_count :=
        if symmetry_check then (fsf_fallback_count st + 1)%Z else fsf_fallback_count st in
      if negb symmetry_check || vert_has_unique_face_set fs to_v
      then
        (mk_fs_flood pose_factor (fsf_visited_face_sets st) is_weighted
           fallback_origin fallback_count (fsf_current_face_set st)
           (fsf_next_face_set_found st) (fsf_next_face_set st) (fsf_next_vertex st)
           (fsf_pose_origin st) (fsf_tot_co st), visit_next)
      else
        let '(found, next_face_set, next_vertex, count_as_boundary) :=
          fold_left (face_sets_neighbor_step fs (fsf_visited_face_sets st))
            (neighbors to_v)
            (fsf_next_face_set_found st, fsf_next_face_set st, fsf_next_vertex st,
             false) in
        (mk_fs_flood pose_factor (fsf_visited_face_sets st) is_weighted
           fallback_origin fallback_count (fsf_current_face_set st)
           found next_face_set next_vertex
           (if count_as_boundary then fsf_pose_origin st +v co else fsf_pose_origin st)
           (if count_as_boundary then (fsf_tot_co st + 1)%Z else fsf_tot_co st),
         visit_next).

(** The variables of [ik_chain_init_face_sets] that live across the
    iterations of its loop over the segments. *)
Record FaceSetLoop : Type := mk_fs_loop {
  fsl_visited_face_sets : list Z;
  fsl_is_weighted : list bool;
  fsl_current_face_set : Z;
  fsl_current_vertex : nat
}.

(** The flood fill of one segment: the callback on each invocation in
    turn, from the state the loop body sets up. *)
Definition face_sets_flood (ob : SculptMesh) (fs : FaceSets)
    (neighbors : nat -> list nat) (null_vertex : nat) (radius : R)
    (is_first_iteration : bool) (calls : list FloodCall) (sh : FaceSetLoop)
    (pose_factor : list R) : FaceSetFlood :=
  let pose_initial_co := vert_positions ob !!! fsl_current_vertex sh in
  fold_left
    (fun st call =>
       fst (face_sets_floodfill ob fs neighbors pose_initial_co radius
              is_first_iteration (call_to call) (call_dup call) st))
    calls
    (mk_fs_flood pose_factor
       (set_add (fsl_current_face_set sh) (fsl_visited_face_sets sh))
       (fsl_is_weighted sh) f3_zero 0%Z (fsl_current_face_set sh)
       false SCULPT_FACE_SET_NONE null_vertex f3_zero 0%Z).

(** The body of the loop over the segments, on segment [s]. *)
Definition face_sets_segment (ob : SculptMesh) (fs : FaceSets)
    (neighbors : nat -> list nat) (null_vertex : nat) (radius : R)
    (is_first_iteration : bool) (calls : list FloodCall) (sh : FaceSetLoop)
    (s : IKChainSegment) : IKChainSegment * FaceSetLoop :=
  let st := face_sets_flood ob fs neighbors null_vertex radius is_first_iteration
              calls sh (weights s) in
  let new_orig :=
    if decide (0 < fsf_tot_co st)%Z
    then f3_div (fsf_pose_origin st) (IZR (fsf_tot_co st))
    else if decide (0 < fsf_fallback_count st)%Z
         then f3_div (fsf_fallback_origin st) (IZR (fsf_fallback_count st))
         else f3_zero in
  (set_orig_weights s new_orig (fsf_pose_factor st),
   mk_fs_loop (fsf_visited_face_sets st) (fsf_is_weighted st)
              (fsf_next_face_set st) (fsf_next_vertex st)).

(** The loop over the segments, from segment [i]; [calls i] are the
    invocations of the callback by the flood fill of segment [i]. *)
Fixpoint face_sets_loop (ob : SculptMesh) (fs : FaceSets)
    (neighbors : nat -> list nat) (null_vertex : nat) (radius : R)
    (calls : nat -> list FloodCall) (i : nat) (sh : FaceSetLoop)
    (segs : list IKChainSegment) : list IKChainSegment :=
  match segs with
  | [] => []
  | s :: rest =>
      let '(s', sh') :=
        face_sets_segment ob fs neighbors null_vertex radius (Nat.eqb i 0)
          (calls i) sh s in
      s' :: face_sets_loop ob fs neighbors null_vertex radius calls (S i) sh' rest
  end.

(** The value of [current_face_set] at the start of each iteration of
    the same loop. *)
Fixpoint face_sets_loop_current (ob : SculptMesh) (fs : FaceSets)
    (neighbors : nat -> list nat) (null_vertex : nat) (radius : R)
    (calls : nat -> list FloodCall) (i : nat) (sh : FaceSetLoop)
    (segs : list IKChainSegment) : list Z :=
  match segs with
  | [] => []
  | s :: rest =>
      fsl_current_face_set sh
      :: face_sets_loop_current ob fs neighbors null_vertex radius calls (S i)
           (snd (face_sets_segment ob fs neighbors null_vertex radius (Nat.eqb i 0)
                   (calls i) sh s))
           rest
  end.

(** The state of the loop when it starts. *)
Definition face_sets_loop_start (ob : SculptMesh) (active_vertex : nat) : FaceSetLoop :=
  mk_fs_loop [] (replicate (vertex_count ob) false) SCULPT_FACE_SET_NONE active_vertex.

(** [ik_chain_init_face_sets].  [active_vertex] is [ss.active_vert_ref()]
    and [null_vertex] the vertex that the value-initialised
    [PBVHVertRef{}] refers to. *)
Definition ik_chain_init_face_sets (ob : SculptMesh) (fs : FaceSets)
    (neighbors : nat -> list nat) (brush : Brush) (calls : nat -> list FloodCall)
    (active_vertex null_vertex : nat) (radius : R) : IKChain :=
  let totvert := vertex_count ob in
  let tot_segments := brush_num_effective_segments brush in
  let ik_chain := ik_chain_new (Z.to_nat tot_segments) totvert in
  let segs :=
    face_sets_loop ob fs neighbors null_vertex radius calls 0
      (face_sets_loop_start ob active_vertex) (segments ik_chain) in
  ik_chain_origin_heads_init (set_segments ik_chain segs)
    (vert_positions ob !!! active_vertex).

(** The value of [current_face_set] at the start of every iteration of
    the loop of [ik_chain_init_face_sets] but the first. *)
Definition face_sets_later_current (ob : SculptMesh) (fs : FaceSets)
    (neighbors : nat -> list nat) (brush : Brush) (calls : nat -> list FloodCall)
    (active_vertex null_vertex : nat) (radius : R) : list Z :=
  tail (face_sets_loop_current ob fs neighbors null_vertex radius calls 0
          (face_sets_loop_start ob active_vertex)
          (segments (ik_chain_new (Z.to_nat (brush_num_effective_segments brush))
                       (vertex_count ob)))).

(** ** A sample: the face-set builder on [line5]

    Two segments from vertex 0, with a brush radius of 0.  The flood fill
    of the first segment visits vertices 1 and 2, and finds face set 2
    through vertex 3; the one of the second visits vertex 4. *)
Definition brush_rotate2 : Brush :=
  mk_brush BRUSH_POSE_DEFORM_ROTATE_TWIST 2 0 false false
           BRUSH_DEFORM_TARGET_GEOMETRY (fun _ _ => 1).

Definition line5_face_set_calls (i : nat) : list FloodCall :=
  match i with
  | 0%nat => [mk_call 0 1 false; mk_call 1 2 false]
  | 1%nat => [mk_call 3 4 false]
  | _ => []
  end.

(** * The deformation applicator: the translations of a node *)

#[global] Instance float4x4_inhabited : Inhabited float4x4 := populate unit_m4.

(** Modelled from the spec: [scale_translations] of the brush helpers,
    whose body is not part of this file's source: each translation is
    scaled by the factor of its element. *)
Definition scale_translations (translations : list float3) (factors : list R)
    : list float3 :=
  zip_with f3_mul translations factors.

(** Modelled from the spec: [gather_data_mesh] of the brush helpers,
    whose body is not part of this file's source: the values of a
    per-vertex array at the vertices of a node. *)
Definition gather_data_mesh (data : list R) (verts : list nat) : list R :=
  (fun v => data !!! v) <$> verts.

(** [add_arrays]: [a[i] += b[i]] on arrays of one size. *)
Definition add_arrays (a b : list float3) : list float3 := zip_with f3_add a b.

Section Applicator.

(** [math::transform_point] and [SCULPT_get_vertex_symm_area], whose
    bodies are not part of this file's source. *)
Variable transform_point : float4x4 -> float3 -> float3.
Variable get_vertex_symm_area : float3 -> nat.

(** The displacement of one position by one segment: through the
    inverse pivot, the transform and the pivot of its symmetry area. *)
Definition segment_displacement (segment : IKChainSegment) (p : float3) : float3 :=
  let symm_area := get_vertex_symm_area p in
  let position := transform_point (pivot_mat_inv segment !!! symm_area) p in
  let position := transform_point (trans_mat segment !!! symm_area) position in
  let position := transform_point (pivot_mat segment !!! symm_area) position in
  position -v p.

(** [calc_segment_translations]. *)
Definition calc_segment_translations (positions : list float3)
    (segment : IKChainSegment) : list float3 :=
  segment_displacement segment <$> positions.

(** The translations [calc_mesh] computes for a node with the vertices
    [verts], the original positions [orig_positions] and the factors
    [factors], before it resets, clips and writes them: the loop over
    the segments and the scaling by the factors. *)
Definition calc_mesh_translations (orig_positions : list float3) (verts : list nat)
    (factors : list R) (ik_chain : IKChain) : list float3 :=
  let translations :=
    fold_left
      (fun translations segment =>
         add_arrays translations
           (scale_translations (calc_segment_translations orig_positions segment)
              (gather_data_mesh (weights segment) verts)))
      (segments ik_chain) (replicate (length verts) f3_zero) in
  scale_translations translations factors.

End Applicator.

(** ** A sample node for the applicator

    [mul_m4_v3]: the point [p] through the matrix [m], whose rows are
    the axes and the translation. *)
Definition ref_transform_point (m : float4x4) (p : float3) : float3 :=
  f4_xyz (m_row0 m) *v vx p +v f4_xyz (m_row1 m) *v vy p +v f4_xyz (m_row2 m) *v vz p
  +v f4_xyz (m_row3 m).

(** The translation by [v]. *)
Definition shift_m4 (v : float3) : float4x4 :=
  mk_float4x4 (m_row0 unit_m4) (m_row1 unit_m4) (m_row2 unit_m4) (mk_float4 v 1).

(** A segment that moves every point by [v], with the weights [w]. *)
Definition shift_segment (v : float3) (w : list R) : IKChainSegment :=
  mk_segment f3_zero (mk_float3 0 0 1) f3_zero (mk_float3 0 0 1) 1 (mk_float3 1 1 1)
             unit_qt w
             (replicate PAINT_SYMM_AREAS (shift_m4 v))
             (replicate PAINT_SYMM_AREAS unit_m4)
             (replicate PAINT_SYMM_AREAS unit_m4).

(** Two segments, one moving along x and one along y; vertex 1 is
    shared half and half, vertex 0 belongs to the second segment. *)
Definition blend_chain : IKChain :=
  mk_chain [shift_segment (mk_float3 1 0 0) [0; 1 / 2];
            shift_segment (mk_float3 0 1 0) [1; 1 / 2]] f3_zero.
(** * Properties *)

(** ** Vector algebra *)

Lemma float3_eq (a b : float3) :
  vx a = vx b -> vy a = vy b -> vz a = vz b -> a = b.
Proof. destruct a, b; simpl; intros; subst; reflexivity. Qed.

Ltac f3_ring :=
  apply float3_eq; simpl; try ring.

Ltac f3_field :=
  apply float3_eq; simpl; try (field; auto).

Lemma length_squared_nonneg (a : float3) : 0 <= length_squared a.
Proof. unfold length_squared, dot. nra. Qed.

Lemma f3_length_nonneg (a : float3) : 0 <= f3_length a.
Proof. apply sqrt_pos. Qed.

Lemma f3_length_sqr (a : float3) : f3_length a * f3_length a = length_squared a.
Proof. apply sqrt_sqrt, length_squared_nonneg. Qed.

Lemma length_squared_zero (a : float3) : length_squared a = 0 -> a = f3_zero.
Proof.
  unfold length_squared, dot. intros H.
  assert (vx a = 0) by nra. assert (vy a = 0) by nra. assert (vz a = 0) by nra.
  apply float3_eq; assumption.
Qed.

Lemma f3_length_zero (a : float3) : f3_length a = 0 -> a = f3_zero.
Proof.
  intros H. apply length_squared_zero.
  rewrite <- f3_length_sqr, H. ring.
Qed.

Lemma f3_length_pos (a : float3) : a <> f3_zero -> 0 < f3_length a.
Proof.
  intros Ha. destruct (f3_length_nonneg a) as [Hlt | Heq]; [exact Hlt |].
  exfalso. apply Ha, f3_length_zero. symmetry. exact Heq.
Qed.

Lemma f3_length_mul (a : float3) (s : R) :
  f3_length (a *v s) = f3_length a * Rabs s.
Proof.
  unfold f3_length.
  replace (length_squared (a *v s)) with (length_squared a * (s * s))
    by (unfold length_squared, dot; simpl; ring).
  rewrite sqrt_mult; [| apply length_squared_nonneg | nra].
  f_equal. replace (s * s) with (Rsqr s) by reflexivity.
  apply sqrt_Rsqr_abs.
Qed.

Lemma f3_length_opp (a b : float3) : f3_length (a -v b) = f3_length (b -v a).
Proof.
  unfold f3_length. f_equal. unfold length_squared, dot. simpl. ring.
Qed.

Lemma distance_sym (a b : float3) : distance a b = distance b a.
Proof. apply f3_length_opp. Qed.

Lemma distance_translate (a b d : float3) :
  distance (a +v d) (b +v d) = distance a b.
Proof.
  unfold distance. f_equal. f3_ring.
Qed.

Lemma normalize_length (a : float3) :
  a <> f3_zero -> f3_length (normalize a) = 1.
Proof.
  intros Ha. pose proof (f3_length_pos a Ha) as Hpos.
  unfold normalize.
  replace (f3_div a (f3_length a)) with (a *v (/ f3_length a))
    by (unfold f3_div, f3_mul, Rdiv; reflexivity).
  rewrite f3_length_mul, Rabs_right.
  - field. lra.
  - left. apply Rinv_0_lt_compat. exact Hpos.
Qed.

Lemma normalize_mul_length (a : float3) :
  a <> f3_zero -> normalize a *v f3_length a = a.
Proof.
  intros Ha. pose proof (f3_length_pos a Ha) as Hpos.
  unfold normalize. f3_field; lra.
Qed.

Lemma f3_sub_eq_zero (a b : float3) : a -v b = f3_zero -> a = b.
Proof.
  intros H. apply float3_eq.
  - apply (f_equal vx) in H. simpl in H. lra.
  - apply (f_equal vy) in H. simpl in H. lra.
  - apply (f_equal vz) in H. simpl in H. lra.
Qed.


Lemma f3_length_normalize_mul (a : float3) (s : R) :
  a <> f3_zero -> f3_length (normalize a *v s) = Rabs s.
Proof.
  intros Ha. rewrite f3_length_mul, normalize_length by exact Ha. ring.
Qed.

Lemma cross_cross (a b c : float3) :
  cross (cross a b) c = b *v dot a c -v a *v dot b c.
Proof. unfold cross, dot. f3_ring. Qed.

Lemma f3_length_one_dot (a : float3) : f3_length a = 1 -> dot a a = 1.
Proof.
  intros H. change (dot a a) with (length_squared a).
  rewrite <- f3_length_sqr, H. ring.
Qed.

(** ** The reference rotation helpers meet their contract *)

Lemma ortho_unit_spec (a : float3) :
  dot (ortho_unit a) (ortho_unit a) = 1 /\ dot (ortho_unit a) a = 0.
Proof.
  unfold ortho_unit.
  destruct (Req_dec_T (length_squared (mk_float3 (- vy a) (vx a) 0)) 0) as [Hz | Hnz].
  - unfold length_squared, dot in *. simpl in *.
    assert (vx a = 0) by nra. split; [ring | nra].
  - set (o := mk_float3 (- vy a) (vx a) 0) in *.
    assert (Ho : o <> f3_zero).
    { intros E. apply Hnz. rewrite E. unfold length_squared, dot. simpl. ring. }
    split.
    + apply f3_length_one_dot, normalize_length, Ho.
    + pose proof (f3_length_pos o Ho) as Hpos.
      unfold normalize, dot, f3_div. simpl. field. lra.
Qed.

Lemma unit_sum_nonneg (a b : float3) :
  dot a a = 1 -> dot b b = 1 -> 0 <= 1 + dot a b.
Proof.
  intros Ha Hb. unfold dot in *.
  pose proof (Rle_0_sqr (vx a + vx b)) as Hx.
  pose proof (Rle_0_sqr (vy a + vy b)) as Hy.
  pose proof (Rle_0_sqr (vz a + vz b)) as Hz.
  unfold Rsqr in *. lra.
Qed.

Lemma unit_opposite (a b : float3) :
  dot a a = 1 -> dot b b = 1 -> 1 + dot a b = 0 -> b = f3_zero -v a.
Proof.
  intros Ha Hb Hd. unfold dot in *.
  pose proof (Rle_0_sqr (vx a + vx b)) as Hx.
  pose proof (Rle_0_sqr (vy a + vy b)) as Hy.
  pose proof (Rle_0_sqr (vz a + vz b)) as Hz.
  unfold Rsqr in *.
  assert (H : (vx a + vx b) * (vx a + vx b) + (vy a + vy b) * (vy a + vy b)
              + (vz a + vz b) * (vz a + vz b) = 0) by lra.
  assert (Ex : (vx a + vx b) * (vx a + vx b) = 0) by lra.
  assert (Ey : (vy a + vy b) * (vy a + vy b) = 0) by lra.
  assert (Ez : (vz a + vz b) * (vz a + vz b) = 0) by lra.
  apply Rsqr_0_uniq in Ex, Ey, Ez.
  apply float3_eq; simpl; lra.
Qed.

(** The polynomial heart of the half-angle construction. *)
Lemma half_angle_identity (a b : float3) :
  dot a a = 1 -> dot b b = 1 ->
  (a +v cross (cross a b) a) *v (1 + dot a b)
    +v cross (cross a b) (cross (cross a b) a)
  = b *v (1 + dot a b).
Proof.
  intros Ha Hb. unfold dot, cross in *. apply float3_eq; simpl; nsatz.
Qed.

Lemma quat_rotate_of (w : R) (u v : float3) :
  quat_rotate (quat_of w u) v
  = v +v cross u v *v (2 * w) +v cross u (cross u v) *v 2.
Proof. destruct u; reflexivity. Qed.

Lemma ref_rotation_between_vecs_rotate (a b : float3) :
  f3_length a = 1 -> f3_length b = 1 ->
  quat_rotate (ref_rotation_between_vecs a b) a = b.
Proof.
  intros Ha Hb. apply f3_length_one_dot in Ha, Hb.
  unfold ref_rotation_between_vecs.
  destruct (Req_dec_T (1 + dot a b) 0) as [Hz | Hnz].
  - (* opposite vectors: half a turn about an orthogonal axis *)
    rewrite (unit_opposite a b Ha Hb Hz), quat_rotate_of.
    destruct (ortho_unit_spec a) as [Hu Hua].
    set (u := ortho_unit a) in *.
    assert (E : cross u (cross u a) = f3_zero -v a).
    { replace (cross u (cross u a)) with (f3_zero -v cross (cross u a) u)
        by (unfold cross; f3_ring).
      rewrite cross_cross, Hu.
      replace (dot a u) with (dot u a) by (unfold dot; ring).
      rewrite Hua. f3_ring. }
    rewrite E. f3_ring.
  - (* the generic case *)
    pose proof (unit_sum_nonneg a b Ha Hb) as Hge.
    assert (Hpos : 0 < 2 * (1 + dot a b)) by lra.
    set (s := sqrt (2 * (1 + dot a b))).
    assert (Hs : s * s = 2 * (1 + dot a b)) by (apply sqrt_sqrt; lra).
    assert (Hs0 : s <> 0) by (intros E; rewrite E in Hs; lra).
    rewrite quat_rotate_of.
    set (c := cross a b).
    assert (E1 : cross (f3_div c s) a *v (2 * ((1 + dot a b) / s)) = cross c a).
    { unfold cross, f3_div, f3_mul. simpl.
      apply float3_eq; simpl.
      all: apply Rmult_eq_reg_r with (r := s * s); [| nra].
      all: rewrite Hs at 2; field; exact Hs0. }
    assert (E2 : cross (f3_div c s) (cross (f3_div c s) a) *v 2 *v (1 + dot a b)
                 = cross c (cross c a)).
    { unfold cross, f3_div, f3_mul. simpl.
      apply float3_eq; simpl.
      all: apply Rmult_eq_reg_r with (r := s * s); [| nra].
      all: rewrite Hs at 2; field; exact Hs0. }
    pose proof (half_angle_identity a b Ha Hb) as Hid. fold c in Hid.
    rewrite E1.
    set (X := cross (f3_div c s) (cross (f3_div c s) a) *v 2) in *.
    rewrite <- E2 in Hid.
    apply float3_eq.
    + apply (f_equal vx) in Hid. simpl in *. nra.
    + apply (f_equal vy) in Hid. simpl in *. nra.
    + apply (f_equal vz) in Hid. simpl in *. nra.
Qed.

Lemma lagrange_identity (a b : float3) :
  dot (cross a b) (cross a b) = dot a a * dot b b - dot a b * dot a b.
Proof. unfold dot, cross. simpl. ring. Qed.

Lemma quat_norm_squared_of (w : R) (u : float3) :
  quat_norm_squared (quat_of w u) = w * w + dot u u.
Proof. unfold quat_norm_squared, quat_of, dot. simpl. ring. Qed.

Lemma ref_rotation_between_vecs_unit (a b : float3) :
  f3_length a = 1 -> f3_length b = 1 ->
  quat_norm_squared (ref_rotation_between_vecs a b) = 1.
Proof.
  intros Ha Hb. apply f3_length_one_dot in Ha, Hb.
  unfold ref_rotation_between_vecs.
  destruct (Req_dec_T (1 + dot a b) 0) as [Hz | Hnz];
    rewrite quat_norm_squared_of.
  - destruct (ortho_unit_spec a) as [Hu _]. rewrite Hu. ring.
  - pose proof (unit_sum_nonneg a b Ha Hb) as Hge.
    set (s := sqrt (2 * (1 + dot a b))).
    assert (Hs : s * s = 2 * (1 + dot a b)) by (apply sqrt_sqrt; lra).
    assert (Hs0 : s <> 0) by (intros E; rewrite E in Hs; lra).
    replace (dot (f3_div (cross a b) s) (f3_div (cross a b) s))
      with (dot (cross a b) (cross a b) / (s * s))
      by (unfold dot, f3_div; simpl; field; exact Hs0).
    rewrite lagrange_identity, Ha, Hb.
    apply Rmult_eq_reg_r with (r := s * s); [| nra].
    rewrite Hs at 3. field. exact Hs0.
Qed.

Lemma ref_rotation_lib_spec : RotationLibSpec ref_rotation_lib.
Proof.
  split.
  - exact ref_rotation_between_vecs_unit.
  - exact ref_rotation_between_vecs_rotate.
Qed.

(** ** The rotate solve *)

Section SolverFacts.
Context {L : RotationLib}.

Lemma ik_segment_step_head (t : float3) (s : IKChainSegment) :
  head (ik_segment_step t s) = orig s +v normalize (t -v orig s) *v len s.
Proof. reflexivity. Qed.

Lemma ik_segment_step_orig (t : float3) (s : IKChainSegment) :
  orig (ik_segment_step t s) = t -v normalize (t -v orig s) *v len s.
Proof. unfold ik_segment_step. simpl. f3_ring. Qed.

(** The slot [current_origin_position] is a displacement: the origin
    written back is [target - head] only for a segment that sat at zero. *)
Lemma ik_segment_step_orig_target_minus_head (t : float3) (s : IKChainSegment) :
  orig (ik_segment_step t s) = t -v head (ik_segment_step t s) <-> orig s = f3_zero.
Proof.
  unfold ik_segment_step. simpl. split.
  - intros H. apply float3_eq.
    + apply (f_equal vx) in H. simpl in *. lra.
    + apply (f_equal vy) in H. simpl in *. lra.
    + apply (f_equal vz) in H. simpl in *. lra.
  - intros ->. f3_ring.
Qed.

Lemma ik_segment_step_head_orig (t : float3) (s : IKChainSegment) :
  t <> orig s ->
  head (ik_segment_step t s) -v orig (ik_segment_step t s)
  = normalize (t -v orig s) *v (2 * len s - distance t (orig s)).
Proof.
  intros Hne.
  assert (Hnz : t -v orig s <> f3_zero).
  { intros E. apply Hne, f3_sub_eq_zero, E. }
  pose proof (normalize_mul_length _ Hnz) as Hn.
  rewrite ik_segment_step_head, ik_segment_step_orig. unfold distance.
  set (dir := normalize (t -v orig s)) in *.
  set (D := f3_length (t -v orig s)) in *.
  apply float3_eq.
  - apply (f_equal vx) in Hn. simpl in *. lra.
  - apply (f_equal vy) in Hn. simpl in *. lra.
  - apply (f_equal vz) in Hn. simpl in *. lra.
Qed.

(** The stored head is the head before the origin moves: the two stored
    points are [|2 len - D|] apart, [D] being the distance from the old
    origin to the target. *)
Lemma ik_segment_step_stored_distance (t : float3) (s : IKChainSegment) :
  t <> orig s ->
  distance (head (ik_segment_step t s)) (orig (ik_segment_step t s))
  = Rabs (2 * len s - distance t (orig s)).
Proof.
  intros Hne. unfold distance at 1.
  rewrite ik_segment_step_head_orig by exact Hne.
  apply f3_length_normalize_mul.
  intros E. apply Hne, f3_sub_eq_zero, E.
Qed.

Lemma ik_segment_step_orig_distance (t : float3) (s : IKChainSegment) :
  t <> orig s -> 0 <= len s ->
  distance (orig (ik_segment_step t s)) t = len s.
Proof.
  intros Hne Hlen. rewrite distance_sym, ik_segment_step_orig. unfold distance.
  replace (t -v (t -v normalize (t -v orig s) *v len s))
    with (normalize (t -v orig s) *v len s) by f3_ring.
  rewrite f3_length_normalize_mul.
  - apply Rabs_right. lra.
  - intros E. apply Hne, f3_sub_eq_zero, E.
Qed.

Lemma ik_segment_step_head_distance (t : float3) (s : IKChainSegment) :
  t <> orig s -> 0 <= len s ->
  distance (head (ik_segment_step t s)) (orig s) = len s.
Proof.
  intros Hne Hlen. rewrite ik_segment_step_head. unfold distance.
  replace (orig s +v normalize (t -v orig s) *v len s -v orig s)
    with (normalize (t -v orig s) *v len s) by f3_ring.
  rewrite f3_length_normalize_mul.
  - apply Rabs_right. lra.
  - intros E. apply Hne, f3_sub_eq_zero, E.
Qed.

Lemma ik_loop_length (t : float3) (segs : list IKChainSegment) :
  length (ik_loop t segs) = length segs.
Proof.
  revert t. induction segs as [| s rest IH]; intros t; simpl; [reflexivity |].
  f_equal. apply IH.
Qed.

Lemma ik_targets_length (t : float3) (segs : list IKChainSegment) :
  length (ik_targets t segs) = length segs.
Proof.
  revert t. induction segs as [| s rest IH]; intros t; simpl; [reflexivity |].
  f_equal. apply IH.
Qed.

(** Segment [i] of the solved chain is the loop body applied to segment
    [i] of the input with the running target of iteration [i]. *)
Lemma ik_loop_lookup (t : float3) (segs : list IKChainSegment) (i : nat)
    (s : IKChainSegment) (ti : float3) :
  segs !! i = Some s -> ik_targets t segs !! i = Some ti ->
  ik_loop t segs !! i = Some (ik_segment_step ti s).
Proof.
  revert t i. induction segs as [| s0 rest IH]; intros t i Hs Ht.
  - discriminate.
  - destruct i as [| i]; simpl in *.
    + congruence.
    + eapply IH; eassumption.
Qed.

Lemma ik_targets_lookup_total (t : float3) (segs : list IKChainSegment) (i : nat) :
  (i < length segs)%nat -> exists ti, ik_targets t segs !! i = Some ti.
Proof.
  intros Hi. apply lookup_lt_is_Some. rewrite ik_targets_length. exact Hi.
Qed.

Lemma ik_targets_first (t : float3) (segs : list IKChainSegment) (ti : float3) :
  ik_targets t segs !! 0%nat = Some ti -> ti = t.
Proof. destruct segs; simpl; congruence. Qed.

(** The origin written by iteration [i] is the target of iteration [i+1]. *)
Lemma ik_targets_next (t : float3) (segs : list IKChainSegment) (i : nat)
    (s' : IKChainSegment) :
  ik_loop t segs !! i = Some s' -> (S i < length segs)%nat ->
  ik_targets t segs !! S i = Some (orig s').
Proof.
  revert t i. induction segs as [| s0 rest IH]; intros t i Hs Hi.
  - discriminate.
  - destruct i as [| i]; simpl in *.
    + destruct rest as [| s1 rest]; simpl in *; [lia |].
      injection Hs as <-. reflexivity.
    + apply IH; [exact Hs | lia].
Qed.

Lemma last_ik_loop (t : float3) (segs : list IKChainSegment) (l : IKChainSegment) :
  last segs = Some l ->
  exists tl, last (ik_loop t segs) = Some (ik_segment_step tl l).
Proof.
  revert t. induction segs as [| s0 rest IH]; intros t Hl.
  - discriminate.
  - destruct rest as [| s1 rest].
    + simpl in *. exists t. congruence.
    + rewrite last_cons_cons in Hl.
      destruct (IH (orig (ik_segment_step t s0)) Hl) as [tl Htl].
      exists tl. simpl in *. exact Htl.
Qed.

Lemma solve_ik_chain_segments_free (chain : IKChain) (t : float3) :
  segments (solve_ik_chain chain t false) = ik_loop t (segments chain).
Proof. reflexivity. Qed.

Lemma solve_ik_chain_segments_anchored (chain : IKChain) (t : float3) :
  segments (solve_ik_chain chain t true)
  = translate_segment (anchor_diff (ik_loop t (segments chain)))
      <$> ik_loop t (segments chain).
Proof. reflexivity. Qed.

End SolverFacts.

Lemma f3_length_axis_z (c : R) : 0 <= c -> f3_length (mk_float3 0 0 c) = c.
Proof.
  intros Hc. unfold f3_length, length_squared, dot. simpl.
  replace (0 * 0 + 0 * 0 + c * c) with (Rsqr c) by (unfold Rsqr; ring).
  apply sqrt_Rsqr, Hc.
Qed.

Lemma f3_length_axis_x (c : R) : 0 <= c -> f3_length (mk_float3 c 0 0) = c.
Proof.
  intros Hc. unfold f3_length, length_squared, dot. simpl.
  replace (c * c + 0 * 0 + 0 * 0) with (Rsqr c) by (unfold Rsqr; ring).
  apply sqrt_Rsqr, Hc.
Qed.

Lemma float3_neq_x (a b : float3) : vx a <> vx b -> a <> b.
Proof. intros H E. apply H. rewrite E. reflexivity. Qed.

Lemma float3_neq_z (a b : float3) : vz a <> vz b -> a <> b.
Proof. intros H E. apply H. rewrite E. reflexivity. Qed.

(** C4 (anchor invariant).  For a chain with at least one segment and any
    target, the anchored rotate solve leaves the last segment's [orig]
    equal to its [initial_orig], and the anchored result is the unanchored
    result with every segment translated by one common vector. *)
Theorem solve_ik_chain_anchor_invariant {L : RotationLib}
    (chain : IKChain) (target : float3) :
  segments chain <> [] ->
  exists (l l' : IKChainSegment) (d : float3),
    last (segments chain) = Some l /\
    last (segments (solve_ik_chain chain target true)) = Some l' /\
    initial_orig l' = initial_orig l /\
    orig l' = initial_orig l' /\
    segments (solve_ik_chain chain target true)
    = translate_segment d <$> segments (solve_ik_chain chain target false).
Proof.
  intros Hne. apply last_is_Some in Hne as [l Hl].
  destruct (last_ik_loop target (segments chain) l Hl) as [tl Htl].
  exists l, (translate_segment (anchor_diff (ik_loop target (segments chain)))
               (ik_segment_step tl l)),
         (anchor_diff (ik_loop target (segments chain))).
  rewrite solve_ik_chain_segments_anchored, solve_ik_chain_segments_free.
  repeat split.
  - exact Hl.
  - rewrite fmap_last, Htl. reflexivity.
  - unfold anchor_diff. rewrite Htl. simpl. f3_ring.
Qed.

Lemma solve_ik_chain_anchor_invariant_witness :
  segments chain_two_z <> [] /\
  exists (l l' : IKChainSegment) (d : float3),
    last (segments chain_two_z) = Some l /\
    last (segments (solve_ik_chain (L := ref_rotation_lib) chain_two_z
                      (mk_float3 1 0 0) true)) = Some l' /\
    initial_orig l' = initial_orig l /\
    orig l' = initial_orig l' /\
    segments (solve_ik_chain (L := ref_rotation_lib) chain_two_z (mk_float3 1 0 0) true)
    = translate_segment d
        <$> segments (solve_ik_chain (L := ref_rotation_lib) chain_two_z
                        (mk_float3 1 0 0) false).
Proof.
  split; [discriminate |].
  apply (@solve_ik_chain_anchor_invariant ref_rotation_lib chain_two_z (mk_float3 1 0 0)).
  discriminate.
Defined.

(** C1, as stated, fails: on the one-segment chain from the origin to
    [(0,0,1)] with length 1 and the target [(2,0,0)], every direction is
    non-degenerate, and after the solve the stored head and the stored
    origin coincide, at distance 0 instead of 1. *)
Lemma solve_ik_chain_length_counterexample :
  exists s s' : IKChainSegment,
    segments chain_unit_z !! 0%nat = Some s /\
    mk_float3 2 0 0 <> orig s /\
    initial_head s <> initial_orig s /\
    len s = distance (initial_head s) (initial_orig s) /\
    segments (solve_ik_chain (L := ref_rotation_lib) chain_unit_z (mk_float3 2 0 0) false)
      !! 0%nat = Some s' /\
    len s' = len s /\
    distance (head s') (orig s') = 0 /\
    distance (head s') (orig s') <> len s'.
Proof.
  eexists. eexists.
  split; [reflexivity |].
  assert (Hne : mk_float3 2 0 0 <> orig (rest_segment f3_zero (mk_float3 0 0 1) 1)).
  { apply float3_neq_x. simpl. lra. }
  split; [exact Hne |].
  split; [apply float3_neq_z; simpl; lra |].
  split.
  { simpl. unfold distance.
    replace (mk_float3 0 0 1 -v f3_zero) with (mk_float3 0 0 1) by f3_ring.
    rewrite f3_length_axis_z; lra. }
  split; [reflexivity |].
  split; [reflexivity |].
  set (s' := ik_segment_step (L := ref_rotation_lib) (mk_float3 2 0 0)
               (rest_segment f3_zero (mk_float3 0 0 1) 1)).
  assert (Hd : distance (head s') (orig s') = 0).
  { unfold s'. rewrite ik_segment_step_stored_distance by exact Hne.
    simpl. unfold distance.
    replace (mk_float3 2 0 0 -v f3_zero) with (mk_float3 2 0 0) by f3_ring.
    rewrite f3_length_axis_x by lra.
    replace (2 * 1 - 2) with 0 by ring. apply Rabs_R0. }
  split; [exact Hd |].
  rewrite Hd. simpl. lra.
Qed.

(** C1 (length preservation of the rotate solve), on the code.  After
    [solve_ik_chain], with or without the anchor flag, a segment whose
    running target differs from its origin keeps its [len], but its
    stored head and its stored origin are [|2 len - D|] apart, [D] being
    the distance from the origin the segment had before the solve to its
    running target: the loop stores the head it computed from the old
    origin and then moves the origin alone, while the anchor loop moves
    both points together.  The two stored points are [len] apart only
    when [D = len] or [D = 3 len]. *)
Theorem solve_ik_chain_stored_distance {L : RotationLib}
    (chain : IKChain) (target : float3) (use_anchor : bool)
    (i : nat) (s : IKChainSegment) (t : float3) :
  segments chain !! i = Some s ->
  ik_targets target (segments chain) !! i = Some t ->
  t <> orig s ->
  exists s' : IKChainSegment,
    segments (solve_ik_chain chain target use_anchor) !! i = Some s' /\
    len s' = len s /\
    distance (head s') (orig s') = Rabs (2 * len s - distance t (orig s)) /\
    (0 <= len s ->
     (distance (head s') (orig s') = len s <->
      distance t (orig s) = len s \/ distance t (orig s) = 3 * len s)).
Proof.
  intros Hs Ht Hne.
  pose proof (ik_loop_lookup target (segments chain) i s t Hs Ht) as Hloop.
  pose proof (ik_segment_step_stored_distance t s Hne) as Hstored.
  assert (Hiff : forall d : R,
            d = Rabs (2 * len s - distance t (orig s)) ->
            0 <= len s ->
            (d = len s <->
             distance t (orig s) = len s \/ distance t (orig s) = 3 * len s)).
  { intros d -> Hlen. unfold Rabs.
    destruct (Rcase_abs (2 * len s - distance t (orig s))); split; intros H;
      try lra; destruct H; lra. }
  destruct use_anchor.
  - exists (translate_segment (anchor_diff (ik_loop target (segments chain)))
              (ik_segment_step t s)).
    rewrite solve_ik_chain_segments_anchored, list_lookup_fmap, Hloop.
    split; [reflexivity |]. split; [reflexivity |].
    cbn [translate_segment orig head]. rewrite distance_translate.
    split; [exact Hstored | apply Hiff; exact Hstored].
  - exists (ik_segment_step t s).
    rewrite solve_ik_chain_segments_free, Hloop.
    split; [reflexivity |]. split; [reflexivity |].
    split; [exact Hstored | apply Hiff; exact Hstored].
Qed.

Lemma solve_ik_chain_stored_distance_witness :
  let s := rest_segment f3_zero (mk_float3 0 0 1) 1 in
  let t := mk_float3 2 0 0 in
  segments chain_unit_z !! 0%nat = Some s /\
  ik_targets (L := ref_rotation_lib) t (segments chain_unit_z) !! 0%nat = Some t /\
  t <> orig s /\
  exists s' : IKChainSegment,
    segments (solve_ik_chain (L := ref_rotation_lib) chain_unit_z t false) !! 0%nat
    = Some s' /\
    len s' = len s /\
    distance (head s') (orig s') = Rabs (2 * len s - distance t (orig s)) /\
    (0 <= len s ->
     (distance (head s') (orig s') = len s <->
      distance t (orig s) = len s \/ distance t (orig s) = 3 * len s)).
Proof.
  assert (Hne : mk_float3 2 0 0 <> orig (rest_segment f3_zero (mk_float3 0 0 1) 1)).
  { apply float3_neq_x. simpl. lra. }
  split; [reflexivity |]. split; [reflexivity |]. split; [exact Hne |].
  apply (@solve_ik_chain_stored_distance ref_rotation_lib chain_unit_z (mk_float3 2 0 0)
           false 0%nat (rest_segment f3_zero (mk_float3 0 0 1) 1) (mk_float3 2 0 0)
           eq_refl eq_refl Hne).
Defined.

(** What the solve does keep at [len]: the new origin of a segment lies
    at distance [len] from the running target it was aimed at, and the
    head the loop stores lies at distance [len] from the origin the
    segment had when the head was computed (both reference points
    shifted by the anchor translation when the chain is anchored). *)
Lemma solve_ik_chain_lengths {L : RotationLib}
    (chain : IKChain) (target : float3) (use_anchor : bool)
    (i : nat) (s : IKChainSegment) (t : float3) :
  segments chain !! i = Some s ->
  ik_targets target (segments chain) !! i = Some t ->
  t <> orig s ->
  len s = distance (initial_head s) (initial_orig s) ->
  exists s' : IKChainSegment,
    segments (solve_ik_chain chain target use_anchor) !! i = Some s' /\
    len s' = len s /\
    let d := if use_anchor
             then anchor_diff (ik_loop target (segments chain))
             else f3_zero in
    distance (orig s') (t +v d) = len s /\
    distance (head s') (orig s +v d) = len s.
Proof.
  intros Hs Ht Hne Hlen.
  assert (Hpos : 0 <= len s) by (rewrite Hlen; apply f3_length_nonneg).
  pose proof (ik_loop_lookup target (segments chain) i s t Hs Ht) as Hloop.
  destruct use_anchor.
  - exists (translate_segment (anchor_diff (ik_loop target (segments chain)))
              (ik_segment_step t s)).
    rewrite solve_ik_chain_segments_anchored, list_lookup_fmap, Hloop.
    split; [reflexivity |]. split; [reflexivity |].
    cbv zeta. cbn [translate_segment orig head].
    rewrite !distance_translate.
    split; [apply ik_segment_step_orig_distance; assumption |].
    apply ik_segment_step_head_distance; assumption.
  - exists (ik_segment_step t s).
    rewrite solve_ik_chain_segments_free, Hloop.
    split; [reflexivity |]. split; [reflexivity |].
    cbv zeta.
    replace (t +v f3_zero) with t by f3_ring.
    replace (orig s +v f3_zero) with (orig s) by f3_ring.
    split; [apply ik_segment_step_orig_distance; assumption |].
    apply ik_segment_step_head_distance; assumption.
Qed.

Lemma distance_z12 : 1 = distance (mk_float3 0 0 2) (mk_float3 0 0 1).
Proof.
  unfold distance.
  replace (mk_float3 0 0 2 -v mk_float3 0 0 1) with (mk_float3 0 0 1) by f3_ring.
  rewrite f3_length_axis_z; lra.
Qed.

Lemma solve_ik_chain_lengths_witness :
  let s := rest_segment (mk_float3 0 0 1) (mk_float3 0 0 2) 1 in
  let t := mk_float3 2 0 0 in
  segments chain_two_z !! 0%nat = Some s /\
  ik_targets (L := ref_rotation_lib) t (segments chain_two_z) !! 0%nat = Some t /\
  t <> orig s /\
  len s = distance (initial_head s) (initial_orig s) /\
  exists s' : IKChainSegment,
    segments (solve_ik_chain (L := ref_rotation_lib) chain_two_z t true)
      !! 0%nat = Some s' /\
    len s' = len s /\
    let d := anchor_diff (ik_loop (L := ref_rotation_lib) t (segments chain_two_z)) in
    distance (orig s') (t +v d) = len s /\
    distance (head s') (orig s +v d) = len s.
Proof.
  assert (Hne : mk_float3 2 0 0
                <> orig (rest_segment (mk_float3 0 0 1) (mk_float3 0 0 2) 1)).
  { apply float3_neq_x. simpl. lra. }
  split; [reflexivity |]. split; [reflexivity |].
  split; [exact Hne |]. split; [exact distance_z12 |].
  apply (@solve_ik_chain_lengths ref_rotation_lib chain_two_z (mk_float3 2 0 0) true
           0%nat (rest_segment (mk_float3 0 0 1) (mk_float3 0 0 2) 1) (mk_float3 2 0 0)).
  - reflexivity.
  - reflexivity.
  - exact Hne.
  - exact distance_z12.
Defined.

(** The single-segment scenario: origin [(0,0,0)], head [(0,0,1)], length
    1, target [(1,0,0)], no anchor.  Here the target is at distance
    [len] from an origin that sits at zero, and only because of that the
    stored head is at distance 1 from the new origin and the new origin
    is the target minus the new head. *)
Lemma single_segment_rotate_scenario :
  exists s' : IKChainSegment,
    segments (solve_ik_chain (L := ref_rotation_lib) chain_unit_z (mk_float3 1 0 0) false)
    = [s'] /\
    distance (head s') (orig s') = 1 /\
    orig s' = mk_float3 1 0 0 -v head s'.
Proof.
  eexists. split; [reflexivity |].
  assert (Hne : mk_float3 1 0 0 <> orig (rest_segment f3_zero (mk_float3 0 0 1) 1)).
  { apply float3_neq_x. simpl. lra. }
  split.
  - rewrite ik_segment_step_stored_distance by exact Hne.
    simpl. unfold distance.
    replace (mk_float3 1 0 0 -v f3_zero) with (mk_float3 1 0 0) by f3_ring.
    rewrite f3_length_axis_x by lra.
    replace (2 * 1 - 1) with 1 by ring. apply Rabs_R1.
  - apply ik_segment_step_orig_target_minus_head. reflexivity.
Qed.

(** C2, as stated, fails in its third equation: on the one-segment chain
    from [(0,0,1)] to [(0,0,2)] with the target [(0,0,3)], the new head is
    [(0,0,2)], so target minus new head is [(0,0,1)], but the origin
    written back is [(0,0,2)]: the difference [target - head] is added to
    the old origin, it does not replace it. *)
Lemma solve_ik_chain_origin_counterexample :
  exists s s' : IKChainSegment,
    segments chain_raised_z !! 0%nat = Some s /\
    mk_float3 0 0 3 <> orig s /\
    initial_head s <> initial_orig s /\
    segments (solve_ik_chain (L := ref_rotation_lib) chain_raised_z (mk_float3 0 0 3) false)
      !! 0%nat = Some s' /\
    orig s' <> mk_float3 0 0 3 -v head s'.
Proof.
  eexists. eexists.
  split; [reflexivity |].
  split; [apply float3_neq_z; simpl; lra |].
  split; [apply float3_neq_z; simpl; lra |].
  split; [reflexivity |].
  intros H. apply ik_segment_step_orig_target_minus_head in H.
  apply (f_equal vz) in H. simpl in H. lra.
Qed.

(** C2, amended.  In the loop of [solve_ik_chain], for the segment at
    index [i] with running target [t] (non-degenerate directions
    assumed): the stored rotation is a unit quaternion that rotates the
    normalized initial head-minus-origin direction onto the normalized
    direction from the segment's origin to [t]; the new head is the
    origin plus that direction times [len]; the new origin is the OLD
    origin plus ([t] minus the new head), that is [t] minus direction
    times [len]; the first running target is the initial target and the
    new origin is the running target of segment [i+1]. *)
Theorem solve_ik_chain_step_equations {L : RotationLib} {LS : RotationLibSpec L}
    (chain : IKChain) (initial_target : float3)
    (i : nat) (s : IKChainSegment) (t : float3) :
  segments chain !! i = Some s ->
  ik_targets initial_target (segments chain) !! i = Some t ->
  t <> orig s ->
  initial_head s <> initial_orig s ->
  exists s' : IKChainSegment,
    segments (solve_ik_chain chain initial_target false) !! i = Some s' /\
    let dir := normalize (t -v orig s) in
    quat_norm_squared (rot s') = 1 /\
    quat_rotate (rot s') (normalize (initial_head s -v initial_orig s)) = dir /\
    head s' = orig s +v dir *v len s /\
    orig s' = orig s +v (t -v head s') /\
    orig s' = t -v dir *v len s /\
    (i = 0%nat -> t = initial_target) /\
    ((S i < length (segments chain))%nat ->
     ik_targets initial_target (segments chain) !! S i = Some (orig s')).
Proof.
  intros Hs Ht Hne Hini.
  pose proof (ik_loop_lookup initial_target (segments chain) i s t Hs Ht) as Hloop.
  exists (ik_segment_step t s).
  rewrite solve_ik_chain_segments_free.
  split; [exact Hloop |]. cbv zeta.
  assert (Hcur : f3_length (normalize (t -v orig s)) = 1).
  { apply normalize_length. intros E. apply Hne, f3_sub_eq_zero, E. }
  assert (Hinit : f3_length (normalize (initial_head s -v initial_orig s)) = 1).
  { apply normalize_length. intros E. apply Hini, f3_sub_eq_zero, E. }
  split; [apply rotation_between_vecs_unit; assumption |].
  split; [apply rotation_between_vecs_rotate; assumption |].
  split; [reflexivity |].
  split; [reflexivity |].
  split; [apply ik_segment_step_orig |].
  split.
  - intros ->. apply (ik_targets_first initial_target (segments chain)), Ht.
  - intros Hi. apply ik_targets_next; assumption.
Qed.

Lemma solve_ik_chain_step_equations_witness :
  let s := rest_segment (mk_float3 0 0 1) (mk_float3 0 0 2) 1 in
  let t := mk_float3 2 0 0 in
  RotationLibSpec ref_rotation_lib /\
  segments chain_two_z !! 0%nat = Some s /\
  ik_targets (L := ref_rotation_lib) t (segments chain_two_z) !! 0%nat = Some t /\
  t <> orig s /\
  initial_head s <> initial_orig s /\
  exists s' : IKChainSegment,
    segments (solve_ik_chain (L := ref_rotation_lib) chain_two_z t false)
      !! 0%nat = Some s' /\
    let dir := normalize (t -v orig s) in
    quat_norm_squared (rot s') = 1 /\
    quat_rotate (rot s') (normalize (initial_head s -v initial_orig s)) = dir /\
    head s' = orig s +v dir *v len s /\
    orig s' = orig s +v (t -v head s') /\
    orig s' = t -v dir *v len s /\
    (0%nat = 0%nat -> t = t) /\
    ((1 < length (segments chain_two_z))%nat ->
     ik_targets (L := ref_rotation_lib) t (segments chain_two_z) !! 1%nat
     = Some (orig s')).
Proof.
  assert (Hne : mk_float3 2 0 0
                <> orig (rest_segment (mk_float3 0 0 1) (mk_float3 0 0 2) 1)).
  { apply float3_neq_x. simpl. lra. }
  assert (Hini : initial_head (rest_segment (mk_float3 0 0 1) (mk_float3 0 0 2) 1)
                 <> initial_orig (rest_segment (mk_float3 0 0 1) (mk_float3 0 0 2) 1)).
  { apply float3_neq_z. simpl. lra. }
  split; [exact ref_rotation_lib_spec |].
  split; [reflexivity |]. split; [reflexivity |].
  split; [exact Hne |]. split; [exact Hini |].
  apply (@solve_ik_chain_step_equations ref_rotation_lib ref_rotation_lib_spec
           chain_two_z (mk_float3 2 0 0) 0%nat
           (rest_segment (mk_float3 0 0 1) (mk_float3 0 0 2) 1) (mk_float3 2 0 0)).
  - reflexivity.
  - reflexivity.
  - exact Hne.
  - exact Hini.
Defined.

(** ** The factor grower *)

Lemma neighbor_max_acc (prev : list R) (nbrs : list nat) (a : R) :
  let m := fold_left (fun max n => Rmax max (prev !!! n)) nbrs a in
  a <= m /\
  (forall n, n ∈ nbrs -> prev !!! n <= m) /\
  (m = a \/ exists n, n ∈ nbrs /\ m = prev !!! n).
Proof.
  revert a. induction nbrs as [| n0 rest IH]; intros a; simpl.
  - split; [lra |]. split; [| left; reflexivity].
    intros n Hn. inversion Hn.
  - destruct (IH (Rmax a (prev !!! n0))) as (Hge & Hub & Hin).
    pose proof (Rmax_l a (prev !!! n0)) as Hl.
    pose proof (Rmax_r a (prev !!! n0)) as Hr.
    split; [lra |]. split.
    + intros n Hn. apply elem_of_cons in Hn as [-> | Hn]; [lra | apply Hub, Hn].
    + destruct Hin as [Heq | (n & Hn & Heq)].
      * rewrite Heq. unfold Rmax. destruct (Rle_dec a (prev !!! n0)).
        -- right. exists n0. split; [apply elem_of_cons; left; reflexivity | reflexivity].
        -- left. reflexivity.
      * right. exists n. split; [apply elem_of_cons; right; exact Hn | exact Heq].
Qed.

Lemma neighbor_max_nonneg (prev : list R) (nbrs : list nat) :
  0 <= neighbor_max prev nbrs.
Proof. apply (neighbor_max_acc prev nbrs 0). Qed.

Lemma neighbor_max_upper (prev : list R) (nbrs : list nat) (n : nat) :
  n ∈ nbrs -> prev !!! n <= neighbor_max prev nbrs.
Proof. apply (neighbor_max_acc prev nbrs 0). Qed.

Lemma neighbor_max_attained (prev : list R) (nbrs : list nat) :
  neighbor_max prev nbrs = 0 \/
  exists n, n ∈ nbrs /\ neighbor_max prev nbrs = prev !!! n.
Proof. apply (neighbor_max_acc prev nbrs 0). Qed.

Lemma grow_vert_fst (ob : SculptMesh) (t : float3) (prev : list R)
    (st : list R * PoseGrowFactorData) (v : nat) :
  fst (grow_vert ob t prev st v) = grow_vert_factor ob prev (fst st) v.
Proof.
  destruct st as [pf g]. unfold grow_vert, grow_vert_factor. simpl.
  destruct (Rlt_dec _ _); [| reflexivity].
  destruct (check_vertex_pivot_symmetry _ _ _); reflexivity.
Qed.

Lemma grow_factors_mesh_fst (ob : SculptMesh) (t : float3) (prev : list R)
    (node : list nat) (pf : list R) (g : PoseGrowFactorData) :
  fst (grow_factors_mesh ob t prev node pf g)
  = fold_left (grow_vert_factor ob prev) (node_visible_verts ob node) pf.
Proof.
  unfold grow_factors_mesh.
  generalize (node_visible_verts ob node) as vs. intros vs.
  revert pf g. induction vs as [| v vs IH]; intros pf g; cbn [fold_left]; [reflexivity |].
  destruct (grow_vert ob t prev (pf, g) v) as [pf' g'] eqn:E.
  rewrite IH. f_equal.
  change pf' with (fst (pf', g')). rewrite <- E, grow_vert_fst. reflexivity.
Qed.

Lemma grow_ring_fst (ob : SculptMesh) (t : float3) (prev pf : list R) :
  fst (grow_ring ob t prev pf)
  = fold_left (grow_vert_factor ob prev) (ring_verts ob) pf.
Proof.
  unfold grow_ring, ring_verts.
  generalize gftd_init at 2 as g0.
  generalize (leaf_nodes ob) as nodes. intros nodes.
  revert pf. induction nodes as [| node nodes IH]; intros pf g0;
    cbn [fold_left fmap list_fmap concat fst snd]; [reflexivity |].
  destruct (grow_factors_mesh ob t prev node pf gftd_init) as [pf' g'] eqn:E.
  rewrite IH, fold_left_app. f_equal.
  change pf' with (fst (pf', g')). rewrite <- E, grow_factors_mesh_fst. reflexivity.
Qed.

Lemma grow_vert_factor_length (ob : SculptMesh) (prev pf : list R) (v : nat) :
  length (grow_vert_factor ob prev pf v) = length pf.
Proof.
  unfold grow_vert_factor. destruct (Rlt_dec _ _); [apply length_insert | reflexivity].
Qed.

Lemma fold_grow_vert_factor_length (ob : SculptMesh) (prev : list R)
    (vs : list nat) (pf : list R) :
  length (fold_left (grow_vert_factor ob prev) vs pf) = length pf.
Proof.
  revert pf. induction vs as [| v vs IH]; intros pf; simpl; [reflexivity |].
  rewrite IH. apply grow_vert_factor_length.
Qed.

(** Reads come from [prev] only, so the outcome at a vertex does not
    depend on the order of the visits or on the other writes. *)
Lemma fold_grow_vert_factor_lookup (ob : SculptMesh) (prev : list R)
    (vs : list nat) (pf : list R) (v : nat) :
  (v < length pf)%nat ->
  fold_left (grow_vert_factor ob prev) vs pf !!! v
  = if decide (v ∈ vs)
    then if Rlt_dec (prev !!! v) (neighbor_max prev (neighbors_of ob v))
         then neighbor_max prev (neighbors_of ob v)
         else pf !!! v
    else pf !!! v.
Proof.
  revert pf. induction vs as [| u vs IH]; intros pf Hv; simpl.
  - destruct (decide (v ∈ [])) as [Hin | _]; [inversion Hin | reflexivity].
  - rewrite IH by (rewrite grow_vert_factor_length; exact Hv).
    destruct (decide (u = v)) as [-> | Hne].
    + assert (Hhd : v ∈ v :: vs) by (apply elem_of_cons; left; reflexivity).
      destruct (decide (v ∈ v :: vs)) as [_ | Hn]; [| contradiction].
      unfold grow_vert_factor.
      destruct (Rlt_dec (prev !!! v) (neighbor_max prev (neighbors_of ob v))).
      * destruct (decide (v ∈ vs)); [reflexivity |].
        apply list_lookup_total_insert_eq. exact Hv.
      * destruct (decide (v ∈ vs)); reflexivity.
    + assert (Hpf : grow_vert_factor ob prev pf u !!! v = pf !!! v).
      { unfold grow_vert_factor.
        destruct (Rlt_dec (prev !!! u) (neighbor_max prev (neighbors_of ob u)));
          [| reflexivity].
        apply list_lookup_total_insert_ne. exact Hne. }
      rewrite Hpf.
      destruct (decide (v ∈ vs)) as [Hin | Hnin].
      * destruct (decide (v ∈ u :: vs)) as [_ | Hn]; [reflexivity |].
        exfalso. apply Hn, elem_of_cons. right. exact Hin.
      * destruct (decide (v ∈ u :: vs)) as [Hin' | _]; [| reflexivity].
        apply elem_of_cons in Hin' as [-> | Hin']; [congruence | contradiction].
Qed.

Lemma elem_of_concat {A : Type} (x : A) (ls : list (list A)) :
  x ∈ concat ls <-> exists l, x ∈ l /\ l ∈ ls.
Proof.
  induction ls as [| l0 ls IH]; simpl.
  - split; [intros H; inversion H | intros (l & _ & H); inversion H].
  - rewrite elem_of_app, IH. split.
    + intros [H | (l & Hx & Hl)].
      * exists l0. split; [exact H | apply elem_of_cons; left; reflexivity].
      * exists l. split; [exact Hx | apply elem_of_cons; right; exact Hl].
    + intros (l & Hx & Hl). apply elem_of_cons in Hl as [-> | Hl].
      * left. exact Hx.
      * right. exists l. split; assumption.
Qed.

Lemma ring_verts_visible (ob : SculptMesh) (v : nat) :
  v ∈ ring_verts ob <-> visible_vert ob v.
Proof.
  unfold ring_verts, visible_vert. rewrite elem_of_concat. split.
  - intros (vs & Hv & Hvs). apply list_elem_of_fmap in Hvs as (node & -> & Hnode).
    unfold node_visible_verts in Hv. apply list_elem_of_filter in Hv as [Hvis Hin].
    split; [exists node; split; assumption | exact Hvis].
  - intros [(node & Hnode & Hin) Hvis].
    exists (node_visible_verts ob node). split.
    + unfold node_visible_verts. apply list_elem_of_filter. split; assumption.
    + apply list_elem_of_fmap. exists node. split; [reflexivity | exact Hnode].
Qed.

Lemma neighbors_of_topological (ob : SculptMesh) (v n : nat) :
  n ∈ vert_neighbors ob v -> n ∈ neighbors_of ob v.
Proof.
  intros Hn. unfold neighbors_of.
  destruct (decide (fake_neighbor_index ob = [])); [exact Hn |].
  destruct (decide (_ = FAKE_NEIGHBOR_NONE)); [exact Hn |].
  apply elem_of_app. left. exact Hn.
Qed.

Lemma neighbors_of_fake (ob : SculptMesh) (v : nat) (f : Z) :
  fake_neighbor_index ob !! v = Some f -> f <> FAKE_NEIGHBOR_NONE ->
  Z.to_nat f ∈ neighbors_of ob v.
Proof.
  intros Hf Hne. unfold neighbors_of. rewrite Hf. simpl.
  destruct (decide (fake_neighbor_index ob = [])) as [E | _].
  - rewrite E in Hf. discriminate.
  - destruct (decide (f = FAKE_NEIGHBOR_NONE)); [contradiction |].
    apply elem_of_app. right. apply list_elem_of_singleton. reflexivity.
Qed.

(** C6 (per-ring growth rule).  One ring started from the field [prev]
    (values at [v] non-negative, as pose factors are) leaves the length of
    the field unchanged and, for every vertex [v] of the field:
    - if [v] is visible and some neighbour (topological, or the fake
      neighbour when enabled) has a larger previous value, the new value
      at [v] is the maximum of the neighbours' previous values;
    - if [v] is visible and no neighbour has a larger previous value, the
      value at [v] is unchanged;
    - if [v] is not visited, the value at [v] is unchanged.
    Every value on the right-hand side is read from [prev]: writes of the
    same ring are not visible to other vertices. *)
Theorem grow_ring_rule (ob : SculptMesh) (pose_target : float3)
    (prev : list R) (v : nat) :
  (v < length prev)%nat ->
  0 <= prev !!! v ->
  let new := fst (grow_ring ob pose_target prev prev) in
  let values := (fun n => prev !!! n) <$> neighbors_of ob v in
  length new = length prev /\
  (visible_vert ob v -> (exists x, x ∈ values /\ prev !!! v < x) ->
   is_max_of (new !!! v) values) /\
  (visible_vert ob v -> (forall x, x ∈ values -> x <= prev !!! v) ->
   new !!! v = prev !!! v) /\
  (~ visible_vert ob v -> new !!! v = prev !!! v) /\
  (forall n, n ∈ vert_neighbors ob v -> n ∈ neighbors_of ob v) /\
  (forall f, fake_neighbor_index ob !! v = Some f -> f <> FAKE_NEIGHBOR_NONE ->
             Z.to_nat f ∈ neighbors_of ob v).
Proof.
  intros Hv Hnonneg new values. subst new.
  rewrite grow_ring_fst.
  split; [apply fold_grow_vert_factor_length |].
  rewrite (fold_grow_vert_factor_lookup ob prev (ring_verts ob) prev v Hv).
  pose proof (neighbor_max_attained prev (neighbors_of ob v)) as Hatt.
  pose proof (neighbor_max_upper prev (neighbors_of ob v)) as Hub.
  set (m := neighbor_max prev (neighbors_of ob v)) in *.
  split; [| split; [| split; [| split]]].
  - intros Hvis (x & Hx & Hlt).
    apply ring_verts_visible in Hvis.
    destruct (decide (v ∈ ring_verts ob)) as [_ | Hn]; [| contradiction].
    apply list_elem_of_fmap in Hx as (n & -> & Hn).
    specialize (Hub n Hn) as Hle.
    destruct (Rlt_dec (prev !!! v) m) as [_ | Hnlt]; [| lra].
    split.
    + destruct Hatt as [H0 | (n' & Hn' & Heq)]; [lra |].
      apply list_elem_of_fmap. exists n'. split; assumption.
    + intros y Hy. apply list_elem_of_fmap in Hy as (n' & -> & Hn').
      apply Hub, Hn'.
  - intros Hvis Hall.
    destruct (decide (v ∈ ring_verts ob)); [| reflexivity].
    destruct (Rlt_dec (prev !!! v) m) as [Hlt | _]; [| reflexivity].
    exfalso. destruct Hatt as [H0 | (n' & Hn' & Heq)]; [lra |].
    assert (prev !!! n' <= prev !!! v).
    { apply Hall, list_elem_of_fmap. exists n'. split; [reflexivity | exact Hn']. }
    lra.
  - intros Hnvis.
    destruct (decide (v ∈ ring_verts ob)) as [Hin | _]; [| reflexivity].
    exfalso. apply Hnvis, ring_verts_visible, Hin.
  - intros n. apply neighbors_of_topological.
  - intros f. apply neighbors_of_fake.
Qed.

Lemma grow_ring_rule_witness :
  let prev := [1; 0; 0; 0; 0] in
  (1 < length prev)%nat /\
  0 <= prev !!! 1%nat /\
  let new := fst (grow_ring line5 f3_zero prev prev) in
  let values := (fun n => prev !!! n) <$> neighbors_of line5 1 in
  length new = length prev /\
  (visible_vert line5 1 -> (exists x, x ∈ values /\ prev !!! 1%nat < x) ->
   is_max_of (new !!! 1%nat) values) /\
  (visible_vert line5 1 -> (forall x, x ∈ values -> x <= prev !!! 1%nat) ->
   new !!! 1%nat = prev !!! 1%nat) /\
  (~ visible_vert line5 1 -> new !!! 1%nat = prev !!! 1%nat) /\
  (forall n, n ∈ vert_neighbors line5 1 -> n ∈ neighbors_of line5 1) /\
  (forall f, fake_neighbor_index line5 !! 1%nat = Some f -> f <> FAKE_NEIGHBOR_NONE ->
             Z.to_nat f ∈ neighbors_of line5 1).
Proof.
  split; [simpl; lia |].
  split; [simpl; lra |].
  apply (grow_ring_rule line5 f3_zero [1; 0; 0; 0; 0] 1).
  - simpl. lia.
  - simpl. lra.
Defined.

Lemma ring_factor_data (ob : SculptMesh) (t : float3) (field : list R) :
  grow_ring ob t field field = (ring_factor ob t field, ring_data ob t field).
Proof. unfold ring_factor, ring_data. destruct (grow_ring ob t field field); reflexivity. Qed.

Lemma rings_succ (k : nat) (ob : SculptMesh) (t : float3) (field : list R) :
  rings (S k) ob t field = ring_factor ob t (rings k ob t field).
Proof.
  revert field. induction k as [| k IH]; intros field; [reflexivity |].
  change (rings (S (S k)) ob t field) with (rings (S k) ob t (ring_factor ob t field)).
  rewrite IH. reflexivity.
Qed.

(** One turn of the loop in target-distance mode, when the ring grew
    something and its centroid is still within [max_len]. *)
Lemma grow_loop_continue (fuel : nat) (ob : SculptMesh) (t : float3) (max_len : R)
    (prev_len : option R) (r : option float3) (field : list R) :
  pos_count (ring_data ob t field) <> 0%Z ->
  distance (gftd_centroid (ring_data ob t field)) t < max_len ->
  grow_pose_factor_loop (S fuel) ob None t max_len prev_len r field
  = grow_pose_factor_loop fuel ob None t max_len
      (Some (distance (gftd_centroid (ring_data ob t field)) t)) r
      (ring_factor ob t field).
Proof.
  intros Hcount Hlen. cbn [grow_pose_factor_loop].
  rewrite ring_factor_data.
  destruct (decide (pos_count (ring_data ob t field) <> 0%Z)); [| contradiction].
  destruct (Rlt_dec _ max_len); [reflexivity | contradiction].
Qed.

Lemma grow_loop_stop (fuel : nat) (ob : SculptMesh) (t : float3) (max_len : R)
    (prev_len : option R) (r : option float3) (field : list R) :
  pos_count (ring_data ob t field) <> 0%Z ->
  max_len <= distance (gftd_centroid (ring_data ob t field)) t ->
  grow_pose_factor_loop (S fuel) ob None t max_len prev_len r field
  = Some (mk_grow_result field
            (match r with
             | Some _ => Some (gftd_centroid (ring_data ob t field))
             | None => None
             end)).
Proof.
  intros Hcount Hlen. cbn [grow_pose_factor_loop].
  rewrite ring_factor_data.
  destruct (decide (pos_count (ring_data ob t field) <> 0%Z)); [| contradiction].
  destruct (Rlt_dec _ max_len); [lra | reflexivity].
Qed.

Lemma grow_loop_degenerate (fuel : nat) (ob : SculptMesh) (pose_origin : option float3)
    (t : float3) (max_len : R) (prev_len : option R) (r : option float3)
    (field : list R) :
  pos_count (ring_data ob t field) = 0%Z ->
  grow_pose_factor_loop (S fuel) ob pose_origin t max_len prev_len r field
  = Some (mk_grow_result (ring_factor ob t field)
            (match r with
             | Some _ => Some t
             | None => None
             end)).
Proof.
  intros Hcount. cbn [grow_pose_factor_loop].
  rewrite ring_factor_data.
  destruct (decide (pos_count (ring_data ob t field) <> 0%Z)); [contradiction | reflexivity].
Qed.

(** The loop in target-distance mode, followed to the first ring whose
    centroid reaches [max_len]. *)
Lemma grow_loop_target_distance (ob : SculptMesh) (t : float3) (max_len : R) (k : nat) :
  forall (field : list R) (prev_len : option R) (r : option float3) (fuel : nat),
    (forall j, (j < k)%nat ->
       pos_count (ring_data ob t (rings j ob t field)) <> 0%Z /\
       distance (gftd_centroid (ring_data ob t (rings j ob t field))) t < max_len) ->
    pos_count (ring_data ob t (rings k ob t field)) <> 0%Z ->
    max_len <= distance (gftd_centroid (ring_data ob t (rings k ob t field))) t ->
    (k < fuel)%nat ->
    grow_pose_factor_loop fuel ob None t max_len prev_len r field
    = Some (mk_grow_result (rings k ob t field)
              (match r with
               | Some _ => Some (gftd_centroid (ring_data ob t (rings k ob t field)))
               | None => None
               end)).
Proof.
  induction k as [| k IH]; intros field prev_len r fuel Hbefore Hcount Hlen Hfuel.
  - destruct fuel as [| fuel]; [lia |].
    apply grow_loop_stop; assumption.
  - destruct fuel as [| fuel]; [lia |].
    destruct (Hbefore 0%nat ltac:(lia)) as [Hc0 Hl0]. simpl in Hc0, Hl0.
    rewrite grow_loop_continue by assumption.
    apply (IH (ring_factor ob t field)).
    + intros j Hj. apply (Hbefore (S j)). lia.
    + exact Hcount.
    + exact Hlen.
    + lia.
Qed.

(** C9 (degenerate-growth fallback).  Whenever a ring grows no
    symmetry-eligible vertex (the joined count is 0), the loop returns at
    once with a result, whatever the mode and the previous length, at any
    iteration and in particular at the first one of [grow_pose_factor];
    the content of the output origin, when one was supplied, is the
    target point passed in, and the field is the one this last ring
    left. *)
Theorem grow_pose_factor_degenerate (fuel : nat) (ob : SculptMesh)
    (pose_origin : option float3) (pose_target : float3) (max_len : R)
    (prev_len : option R) (r_pose_origin : option float3) (field : list R) :
  pos_count (ring_data ob pose_target field) = 0%Z ->
  grow_pose_factor_loop (S fuel) ob pose_origin pose_target max_len prev_len
    r_pose_origin field
  = Some (mk_grow_result (ring_factor ob pose_target field)
            (match r_pose_origin with
             | Some _ => Some pose_target
             | None => None
             end)) /\
  grow_pose_factor (S fuel) ob pose_origin pose_target max_len r_pose_origin field
  = Some (mk_grow_result (ring_factor ob pose_target field)
            (match r_pose_origin with
             | Some _ => Some pose_target
             | None => None
             end)).
Proof.
  intros Hcount. split.
  - apply grow_loop_degenerate, Hcount.
  - unfold grow_pose_factor. apply grow_loop_degenerate, Hcount.
Qed.

(** ** The grower on the five-vertex line *)

Ltac grow_eval :=
  repeat match goal with
  | |- context [Rmax ?a ?b] =>
      first [rewrite (Rmax_left a b) by lra | rewrite (Rmax_right a b) by lra]
  end;
  repeat match goal with
  | |- context [Rlt_dec ?a ?b] => destruct (Rlt_dec a b); try lra
  end.

Ltac ring_eval :=
  unfold ring_factor, ring_data, grow_ring, grow_factors_mesh, node_visible_verts, line5;
  simpl;
  unfold grow_vert, neighbor_max, neighbors_of; simpl;
  grow_eval; simpl;
  repeat split; try reflexivity; try f3_ring.

Lemma line5_ring_zero (t : float3) :
  ring_factor line5 t [0; 0; 0; 0; 0] = [0; 0; 0; 0; 0] /\
  pos_count (ring_data line5 t [0; 0; 0; 0; 0]) = 0%Z.
Proof. ring_eval. Qed.

Lemma line5_ring_first :
  ring_factor line5 f3_zero [1; 0; 0; 0; 0] = [1; 1; 0; 0; 0] /\
  pos_count (ring_data line5 f3_zero [1; 0; 0; 0; 0]) = 1%Z /\
  pos_avg (ring_data line5 f3_zero [1; 0; 0; 0; 0]) = mk_float3 1 0 0.
Proof. ring_eval. Qed.

Lemma line5_ring_second :
  ring_factor line5 f3_zero [1; 1; 0; 0; 0] = [1; 1; 1; 0; 0] /\
  pos_count (ring_data line5 f3_zero [1; 1; 0; 0; 0]) = 1%Z /\
  pos_avg (ring_data line5 f3_zero [1; 1; 0; 0; 0]) = mk_float3 2 0 0.
Proof. ring_eval. Qed.

Lemma f3_div_one (a : float3) : f3_div a (IZR 1) = a.
Proof. f3_field. Qed.

Lemma line5_centroid_first :
  gftd_centroid (ring_data line5 f3_zero [1; 0; 0; 0; 0]) = mk_float3 1 0 0.
Proof.
  destruct line5_ring_first as (_ & Hc & Ha).
  unfold gftd_centroid. rewrite Hc, Ha. apply f3_div_one.
Qed.

Lemma line5_centroid_second :
  gftd_centroid (ring_data line5 f3_zero [1; 1; 0; 0; 0]) = mk_float3 2 0 0.
Proof.
  destruct line5_ring_second as (_ & Hc & Ha).
  unfold gftd_centroid. rewrite Hc, Ha. apply f3_div_one.
Qed.

Lemma distance_x_origin (c : R) : 0 <= c -> distance (mk_float3 c 0 0) f3_zero = c.
Proof.
  intros Hc. unfold distance.
  replace (mk_float3 c 0 0 -v f3_zero) with (mk_float3 c 0 0) by f3_ring.
  apply f3_length_axis_x, Hc.
Qed.

(** The scenario of the specification: seed at vertex 0, anchor at
    vertex 0, maximum length 2.  The loop stops in its second ring. *)
Lemma line5_grow_target_distance (buf : float3) :
  grow_pose_factor 5 line5 None f3_zero 2 (Some buf) [1; 0; 0; 0; 0]
  = Some (mk_grow_result [1; 1; 0; 0; 0] (Some (mk_float3 2 0 0))).
Proof.
  unfold grow_pose_factor.
  destruct line5_ring_first as (Hf1 & Hc1 & _).
  destruct line5_ring_second as (_ & Hc2 & _).
  rewrite (grow_loop_target_distance line5 f3_zero 2 1 [1; 0; 0; 0; 0] None (Some buf) 5).
  - simpl. rewrite Hf1, line5_centroid_second. reflexivity.
  - intros j Hj. assert (j = 0%nat) as -> by lia. simpl.
    rewrite Hc1, line5_centroid_first, distance_x_origin by lra.
    split; [discriminate | lra].
  - simpl. rewrite Hf1, Hc2. discriminate.
  - simpl. rewrite Hf1, line5_centroid_second, distance_x_origin by lra. lra.
  - lia.
Qed.

Lemma grow_pose_factor_degenerate_witness :
  pos_count (ring_data line5 (mk_float3 7 0 0) [0; 0; 0; 0; 0]) = 0%Z /\
  (grow_pose_factor_loop 1 line5 None (mk_float3 7 0 0) 2 None (Some f3_zero)
     [0; 0; 0; 0; 0]
   = Some (mk_grow_result (ring_factor line5 (mk_float3 7 0 0) [0; 0; 0; 0; 0])
             (Some (mk_float3 7 0 0))) /\
   grow_pose_factor 1 line5 None (mk_float3 7 0 0) 2 (Some f3_zero) [0; 0; 0; 0; 0]
   = Some (mk_grow_result (ring_factor line5 (mk_float3 7 0 0) [0; 0; 0; 0; 0])
             (Some (mk_float3 7 0 0)))).
Proof.
  split; [apply line5_ring_zero |].
  apply (grow_pose_factor_degenerate 0 line5 None (mk_float3 7 0 0) 2 None
           (Some f3_zero) [0; 0; 0; 0; 0]).
  apply line5_ring_zero.
Defined.

(** C3, as stated, fails: in the scenario of the specification the first
    ring has centroid [(1,0,0)], within the limit 2, and the second ring
    has centroid [(2,0,0)], which reaches it.  The loop stops there and
    reports [(2,0,0)], the centroid that reached the limit, not the
    centroid [(1,0,0)] of the ring before. *)
Lemma grow_pose_factor_origin_counterexample :
  let field := [1; 0; 0; 0; 0] in
  let before := gftd_centroid (ring_data line5 f3_zero field) in
  let stopping :=
    gftd_centroid (ring_data line5 f3_zero (ring_factor line5 f3_zero field)) in
  distance before f3_zero < 2 /\
  2 <= distance stopping f3_zero /\
  exists res : GrowResult,
    grow_pose_factor 5 line5 None f3_zero 2 (Some f3_zero) field = Some res /\
    grown_factor res = ring_factor line5 f3_zero field /\
    grown_origin res = Some stopping /\
    grown_origin res <> Some before.
Proof.
  cbv zeta.
  destruct line5_ring_first as (Hf1 & _ & _).
  rewrite Hf1, line5_centroid_first, line5_centroid_second.
  rewrite !distance_x_origin by lra.
  split; [lra |]. split; [lra |].
  exists (mk_grow_result [1; 1; 0; 0; 0] (Some (mk_float3 2 0 0))).
  split; [apply line5_grow_target_distance |].
  split; [reflexivity |]. split; [reflexivity |].
  simpl. intros E. injection E as E. lra.
Qed.

(** C3, amended.  In target-distance mode (null [pose_origin], non-null
    [r_pose_origin]) the grower iterates rings as long as each ring grows
    a symmetry-eligible vertex and its centroid stays closer than
    [max_len] to the target.  At the first ring whose centroid is at
    distance [>= max_len] it returns: the factor field is rolled back to
    the snapshot taken before that ring, and the origin reported is the
    centroid of that stopping ring itself. *)
Theorem grow_pose_factor_target_distance (ob : SculptMesh) (pose_target : float3)
    (max_len : R) (buf : float3) (field : list R) (k fuel : nat) :
  (forall j, (j < k)%nat ->
     pos_count (ring_data ob pose_target (rings j ob pose_target field)) <> 0%Z /\
     distance (gftd_centroid (ring_data ob pose_target (rings j ob pose_target field)))
              pose_target < max_len) ->
  pos_count (ring_data ob pose_target (rings k ob pose_target field)) <> 0%Z ->
  max_len <= distance (gftd_centroid (ring_data ob pose_target
                                        (rings k ob pose_target field)))
                      pose_target ->
  (k < fuel)%nat ->
  grow_pose_factor fuel ob None pose_target max_len (Some buf) field
  = Some (mk_grow_result
            (rings k ob pose_target field)
            (Some (gftd_centroid (ring_data ob pose_target
                                    (rings k ob pose_target field))))).
Proof.
  intros Hbefore Hcount Hlen Hfuel. unfold grow_pose_factor.
  apply (grow_loop_target_distance ob pose_target max_len k field None (Some buf) fuel);
    assumption.
Qed.

Lemma line5_before_stop (j : nat) :
  (j < 1)%nat ->
  pos_count (ring_data line5 f3_zero (rings j line5 f3_zero [1; 0; 0; 0; 0])) <> 0%Z /\
  distance (gftd_centroid (ring_data line5 f3_zero (rings j line5 f3_zero [1; 0; 0; 0; 0])))
           f3_zero < 2.
Proof.
  intros Hj. assert (j = 0%nat) as -> by lia. simpl.
  destruct line5_ring_first as (_ & Hc1 & _).
  rewrite Hc1, line5_centroid_first, distance_x_origin by lra.
  split; [discriminate | lra].
Qed.

Lemma line5_at_stop :
  pos_count (ring_data line5 f3_zero (rings 1 line5 f3_zero [1; 0; 0; 0; 0])) <> 0%Z /\
  2 <= distance (gftd_centroid (ring_data line5 f3_zero
                                  (rings 1 line5 f3_zero [1; 0; 0; 0; 0])))
                f3_zero.
Proof.
  simpl. destruct line5_ring_first as (Hf1 & _ & _).
  destruct line5_ring_second as (_ & Hc2 & _).
  rewrite Hf1, Hc2, line5_centroid_second, distance_x_origin by lra.
  split; [discriminate | lra].
Qed.

Lemma grow_pose_factor_target_distance_witness :
  (forall j, (j < 1)%nat ->
     pos_count (ring_data line5 f3_zero (rings j line5 f3_zero [1; 0; 0; 0; 0])) <> 0%Z /\
     distance (gftd_centroid (ring_data line5 f3_zero
                                (rings j line5 f3_zero [1; 0; 0; 0; 0])))
              f3_zero < 2) /\
  pos_count (ring_data line5 f3_zero (rings 1 line5 f3_zero [1; 0; 0; 0; 0])) <> 0%Z /\
  2 <= distance (gftd_centroid (ring_data line5 f3_zero
                                  (rings 1 line5 f3_zero [1; 0; 0; 0; 0])))
                f3_zero /\
  (1 < 5)%nat /\
  grow_pose_factor 5 line5 None f3_zero 2 (Some f3_zero) [1; 0; 0; 0; 0]
  = Some (mk_grow_result
            (rings 1 line5 f3_zero [1; 0; 0; 0; 0])
            (Some (gftd_centroid (ring_data line5 f3_zero
                                    (rings 1 line5 f3_zero [1; 0; 0; 0; 0]))))).
Proof.
  split; [exact line5_before_stop |].
  split; [apply line5_at_stop |].
  split; [apply line5_at_stop |].
  split; [lia |].
  apply (grow_pose_factor_target_distance line5 f3_zero 2 f3_zero [1; 0; 0; 0; 0] 1 5).
  - exact line5_before_stop.
  - apply line5_at_stop.
  - apply line5_at_stop.
  - lia.
Defined.

(** ** Termination of the grower *)

Lemma rank_le (V : list R) (x y : R) : x <= y -> (rank V x <= rank V y)%nat.
Proof.
  intros Hxy. induction V as [| z V IH]; simpl; [lia |].
  destruct (Rlt_dec z x), (Rlt_dec z y); try lia. lra.
Qed.

Lemma rank_lt (V : list R) (x y : R) :
  x ∈ V -> x < y -> (rank V x < rank V y)%nat.
Proof.
  intros Hin Hxy. induction V as [| z V IH]; [inversion Hin |].
  simpl. apply elem_of_cons in Hin as [<- | Hin].
  - pose proof (rank_le V x y ltac:(lra)).
    destruct (Rlt_dec x x), (Rlt_dec x y); try lra; lia.
  - specialize (IH Hin).
    destruct (Rlt_dec z x), (Rlt_dec z y); try lia. lra.
Qed.

Lemma rank_bound (V : list R) (x : R) : (rank V x <= length V)%nat.
Proof.
  induction V as [| z V IH]; simpl; [lia |].
  destruct (Rlt_dec z x); lia.
Qed.

Lemma potential_bound (V field : list R) :
  (potential V field <= length field * length V)%nat.
Proof.
  induction field as [| x field IH]; simpl; [lia |].
  pose proof (rank_bound V x). lia.
Qed.

Lemma potential_mono (V f f' : list R) :
  Forall2 Rle f f' -> (potential V f <= potential V f')%nat.
Proof.
  induction 1 as [| x y f f' Hxy _ IH]; simpl; [lia |].
  pose proof (rank_le V x y Hxy). lia.
Qed.

Lemma potential_strict (V f f' : list R) (i : nat) (x y : R) :
  Forall2 Rle f f' ->
  f !! i = Some x -> f' !! i = Some y -> x ∈ V -> x < y ->
  (potential V f < potential V f')%nat.
Proof.
  intros HF. revert i. induction HF as [| a b f f' Hab HF IH]; intros i Hx Hy Hin Hlt.
  - discriminate.
  - destruct i as [| i]; simpl in *.
    + injection Hx as ->. injection Hy as ->.
      pose proof (rank_lt V x y Hin Hlt). pose proof (potential_mono V f f' HF). lia.
    + pose proof (rank_le V a b Hab). specialize (IH i Hx Hy Hin Hlt). lia.
Qed.

Lemma ring_factor_length (ob : SculptMesh) (t : float3) (field : list R) :
  length (ring_factor ob t field) = length field.
Proof. unfold ring_factor. rewrite grow_ring_fst. apply fold_grow_vert_factor_length. Qed.

Lemma ring_factor_lookup (ob : SculptMesh) (t : float3) (field : list R) (v : nat) :
  (v < length field)%nat ->
  ring_factor ob t field !!! v
  = if decide (v ∈ ring_verts ob)
    then if Rlt_dec (field !!! v) (neighbor_max field (neighbors_of ob v))
         then neighbor_max field (neighbors_of ob v)
         else field !!! v
    else field !!! v.
Proof.
  intros Hv. unfold ring_factor. rewrite grow_ring_fst.
  apply fold_grow_vert_factor_lookup, Hv.
Qed.

Lemma ring_factor_ge (ob : SculptMesh) (t : float3) (field : list R) :
  Forall2 Rle field (ring_factor ob t field).
Proof.
  apply Forall2_same_length_lookup. split.
  - symmetry. apply ring_factor_length.
  - intros i x y Hx Hy.
    assert (Hi : (i < length field)%nat) by (eapply lookup_lt_Some; exact Hx).
    apply list_lookup_total_correct in Hx, Hy. subst x y.
    rewrite ring_factor_lookup by exact Hi.
    destruct (decide (i ∈ ring_verts ob)); [| lra].
    destruct (Rlt_dec _ _); lra.
Qed.

(** A non-zero count means that some visited vertex grew. *)
Lemma grow_vert_count (ob : SculptMesh) (t : float3) (prev : list R)
    (st : list R * PoseGrowFactorData) (v : nat) :
  ~ prev !!! v < neighbor_max prev (neighbors_of ob v) ->
  grow_vert ob t prev st v = st.
Proof.
  intros Hn. destruct st as [pf g]. unfold grow_vert.
  destruct (Rlt_dec _ _); [contradiction | reflexivity].
Qed.

Lemma grow_factors_mesh_idle (ob : SculptMesh) (t : float3) (prev : list R)
    (node : list nat) (pf : list R) (g : PoseGrowFactorData) :
  (forall v, v ∈ node_visible_verts ob node ->
             ~ prev !!! v < neighbor_max prev (neighbors_of ob v)) ->
  grow_factors_mesh ob t prev node pf g = (pf, g).
Proof.
  unfold grow_factors_mesh.
  generalize (node_visible_verts ob node) as vs. intros vs.
  induction vs as [| v vs IH]; intros Hall; cbn [fold_left]; [reflexivity |].
  rewrite grow_vert_count.
  - apply IH. intros u Hu. apply Hall, elem_of_cons. right. exact Hu.
  - apply Hall, elem_of_cons. left. reflexivity.
Qed.

Lemma grow_ring_idle_count (ob : SculptMesh) (t : float3) (prev pf : list R) :
  (forall v, v ∈ ring_verts ob ->
             ~ prev !!! v < neighbor_max prev (neighbors_of ob v)) ->
  pos_count (snd (grow_ring ob t prev pf)) = 0%Z.
Proof.
  unfold grow_ring, ring_verts.
  assert (Hgen : forall nodes st,
             (forall v, v ∈ concat (node_visible_verts ob <$> nodes) ->
                        ~ prev !!! v < neighbor_max prev (neighbors_of ob v)) ->
             pos_count (snd st) = 0%Z ->
             pos_count
               (snd (fold_left
                       (fun (st : list R * PoseGrowFactorData) node =>
                          let '(pf, g) :=
                            grow_factors_mesh ob t prev node (fst st) gftd_init in
                          (pf, gftd_join (snd st) g))
                       nodes st)) = 0%Z).
  { induction nodes as [| node nodes IH]; intros st Hall Hst;
      cbn [fold_left]; [exact Hst |].
    rewrite grow_factors_mesh_idle.
    - apply IH.
      + intros v Hv. apply Hall. cbn [fmap list_fmap concat].
        apply elem_of_app. right. exact Hv.
      + simpl. rewrite Hst. reflexivity.
    - intros v Hv. apply Hall. cbn [fmap list_fmap concat].
      apply elem_of_app. left. exact Hv. }
  intros Hall. apply Hgen; [exact Hall | reflexivity].
Qed.

Lemma ring_data_grew (ob : SculptMesh) (t : float3) (field : list R) :
  pos_count (ring_data ob t field) <> 0%Z ->
  exists v, v ∈ ring_verts ob /\
            field !!! v < neighbor_max field (neighbors_of ob v).
Proof.
  intros Hcount.
  destruct (decide (Exists
              (fun v => field !!! v < neighbor_max field (neighbors_of ob v))
              (ring_verts ob))) as [Hex | Hnex].
  - apply Exists_exists in Hex as (v & Hv & Hlt).
    exists v. split; [exact Hv | exact Hlt].
  - exfalso. apply Hcount. apply grow_ring_idle_count.
    intros v Hv Hlt. apply Hnex, Exists_exists.
    exists v. split; [exact Hv | exact Hlt].
Qed.

Lemma lookup_total_out_of_range (field : list R) (i : nat) :
  (length field <= i)%nat -> field !!! i = 0.
Proof.
  intros Hi. rewrite list_lookup_total_alt, (lookup_ge_None_2 _ _ Hi). reflexivity.
Qed.

Lemma lookup_total_in_candidates (field : list R) (i : nat) :
  field !!! i ∈ 0 :: field.
Proof.
  destruct (decide (i < length field)%nat) as [Hi | Hi].
  - apply elem_of_cons. right. apply list_elem_of_lookup_total_2, Hi.
  - rewrite lookup_total_out_of_range by lia. apply elem_of_cons. left. reflexivity.
Qed.

Lemma neighbor_max_within (V field : list R) (nbrs : list nat) :
  0 ∈ V -> (forall i, field !!! i ∈ V) -> neighbor_max field nbrs ∈ V.
Proof.
  intros H0 Hall.
  destruct (neighbor_max_attained field nbrs) as [-> | (n & _ & ->)]; [exact H0 | apply Hall].
Qed.

Lemma ring_factor_within (ob : SculptMesh) (t : float3) (V : list R) (n : nat)
    (field : list R) :
  0 ∈ V -> field_within V n field -> field_within V n (ring_factor ob t field).
Proof.
  intros H0 [Hlen Hall]. split; [rewrite ring_factor_length; exact Hlen |].
  intros i. destruct (decide (i < length field)%nat) as [Hi | Hi].
  - rewrite ring_factor_lookup by exact Hi.
    destruct (decide (i ∈ ring_verts ob)); [| apply Hall].
    destruct (Rlt_dec _ _); [apply neighbor_max_within; assumption | apply Hall].
  - rewrite lookup_total_out_of_range; [exact H0 |].
    rewrite ring_factor_length. lia.
Qed.

Lemma ring_potential_grows (ob : SculptMesh) (t : float3) (V : list R) (n : nat)
    (field : list R) :
  nodes_in_range ob n -> field_within V n field ->
  pos_count (ring_data ob t field) <> 0%Z ->
  (potential V field < potential V (ring_factor ob t field))%nat.
Proof.
  intros Hrange [Hlen Hall] Hcount.
  destruct (ring_data_grew ob t field Hcount) as (v & Hv & Hlt).
  assert (Hvn : (v < length field)%nat) by (rewrite Hlen; apply Hrange, Hv).
  apply (potential_strict V field (ring_factor ob t field) v
           (field !!! v) (neighbor_max field (neighbors_of ob v))).
  - apply ring_factor_ge.
  - apply list_lookup_lookup_total_lt, Hvn.
  - rewrite list_lookup_lookup_total_lt by (rewrite ring_factor_length; exact Hvn).
    f_equal. rewrite ring_factor_lookup by exact Hvn.
    destruct (decide (v ∈ ring_verts ob)); [| contradiction].
    destruct (Rlt_dec _ _); [reflexivity | contradiction].
  - apply Hall.
  - exact Hlt.
Qed.

(** With enough fuel the loop returns; the field it returns has the same
    length and values among the candidates, and the origin buffer is
    present exactly when it was supplied. *)
Lemma grow_loop_terminates_aux (ob : SculptMesh) (pose_origin : option float3)
    (t : float3) (max_len : R) (V : list R) (n : nat) :
  nodes_in_range ob n -> 0 ∈ V ->
  forall (m fuel : nat) (field : list R) (prev_len : option R) (r : option float3),
    field_within V n field ->
    (n * length V - potential V field < m)%nat ->
    (m <= fuel)%nat ->
    exists res : GrowResult,
      grow_pose_factor_loop fuel ob pose_origin t max_len prev_len r field = Some res /\
      field_within V n (grown_factor res) /\
      (is_Some r <-> is_Some (grown_origin res)).
Proof.
  intros Hrange H0. induction m as [| m IH]; intros fuel field prev_len r Hin Hpot Hfuel.
  - lia.
  - destruct fuel as [| fuel]; [lia |].
    cbn [grow_pose_factor_loop]. rewrite ring_factor_data.
    pose proof (ring_factor_within ob t V n field H0 Hin) as Hin'.
    assert (Hbound : (potential V (ring_factor ob t field) <= n * length V)%nat).
    { destruct Hin' as [Hlen' _]. rewrite <- Hlen'. apply potential_bound. }
    destruct (decide (pos_count (ring_data ob t field) <> 0%Z)) as [Hcount | Hzero].
    + pose proof (ring_potential_grows ob t V n field Hrange Hin Hcount) as Hgrow.
      destruct pose_origin as [origin |].
      * destruct (len_below _ prev_len).
        -- apply IH; [exact Hin' | lia | lia].
        -- eexists. split; [reflexivity |]. split; [exact Hin | reflexivity].
      * destruct (Rlt_dec _ max_len).
        -- apply IH; [exact Hin' | lia | lia].
        -- eexists. split; [reflexivity |]. split; [exact Hin |].
           destruct r; simpl; split; intros H; try exact H; eauto;
             destruct H; discriminate.
    + eexists. split; [reflexivity |]. split; [exact Hin' |].
      destruct r; simpl; split; intros H; try exact H; eauto;
        destruct H; discriminate.
Qed.

(** [grow_pose_factor] terminates on every mesh whose nodes name vertices
    of the field: [grow_fuel] rings are enough. *)
Lemma grow_pose_factor_terminates (ob : SculptMesh) (pose_origin : option float3)
    (t : float3) (max_len : R) (r : option float3) (field : list R) (fuel : nat) :
  nodes_in_range ob (length field) ->
  (grow_fuel (length field) <= fuel)%nat ->
  exists res : GrowResult,
    grow_pose_factor fuel ob pose_origin t max_len r field = Some res /\
    field_within (0 :: field) (length field) (grown_factor res) /\
    (is_Some r <-> is_Some (grown_origin res)).
Proof.
  intros Hrange Hfuel. unfold grow_pose_factor.
  apply (grow_loop_terminates_aux ob pose_origin t max_len (0 :: field) (length field)
           Hrange ltac:(apply elem_of_cons; left; reflexivity)
           (grow_fuel (length field))).
  - split; [reflexivity | apply lookup_total_in_candidates].
  - unfold grow_fuel. simpl. lia.
  - exact Hfuel.
Qed.

(** ** The chain builder in topology mode *)

Lemma Forall2_Rle_refl (f : list R) : Forall2 Rle f f.
Proof. induction f; constructor; [lra | assumption]. Qed.

Lemma Forall2_Rle_trans (f g h : list R) :
  Forall2 Rle f g -> Forall2 Rle g h -> Forall2 Rle f h.
Proof.
  intros Hfg. revert h. induction Hfg as [| x y f g Hxy _ IH]; intros h Hgh.
  - inversion Hgh. constructor.
  - inversion Hgh as [| y' z g' h' Hyz Hgh']; subst.
    constructor; [lra | apply IH, Hgh'].
Qed.

Lemma Forall2_Rle_lookup_total (f g : list R) (i : nat) :
  Forall2 Rle f g -> f !!! i <= g !!! i.
Proof.
  intros H. revert i. induction H as [| x y f g Hxy _ IH]; intros i.
  - simpl. lra.
  - destruct i as [| i]; [exact Hxy | apply IH].
Qed.

(** What the loop returns, whenever it returns: a field of the same
    length, with values among the candidates, pointwise above the field
    it started from; the origin buffer is present exactly when it was
    supplied. *)
Lemma grow_loop_partial (ob : SculptMesh) (pose_origin : option float3)
    (t : float3) (max_len : R) (V : list R) (n : nat) :
  0 ∈ V ->
  forall (fuel : nat) (field : list R) (prev_len : option R) (r : option float3)
         (res : GrowResult),
    field_within V n field ->
    grow_pose_factor_loop fuel ob pose_origin t max_len prev_len r field = Some res ->
    field_within V n (grown_factor res) /\
    Forall2 Rle field (grown_factor res) /\
    (is_Some r <-> is_Some (grown_origin res)).
Proof.
  intros H0. induction fuel as [| fuel IH]; intros field prev_len r res Hin Hres.
  - discriminate.
  - cbn [grow_pose_factor_loop] in Hres. rewrite ring_factor_data in Hres.
    pose proof (ring_factor_within ob t V n field H0 Hin) as Hin'.
    pose proof (ring_factor_ge ob t field) as Hge.
    assert (Hsome : forall x : float3,
               is_Some r <-> is_Some (match r with Some _ => Some x | None => None end)).
    { intros x. destruct r; simpl; split; intros H; try exact H; eauto;
        destruct H; discriminate. }
    destruct (decide (pos_count (ring_data ob t field) <> 0%Z)).
    + destruct pose_origin as [origin |].
      * destruct (len_below _ prev_len).
        -- destruct (IH _ _ _ _ Hin' Hres) as (Hw & Hle & Hs).
           split; [exact Hw |]. split; [| exact Hs].
           eapply Forall2_Rle_trans; eassumption.
        -- injection Hres as <-. simpl.
           split; [exact Hin |]. split; [apply Forall2_Rle_refl | reflexivity].
      * destruct (Rlt_dec _ max_len).
        -- destruct (IH _ _ _ _ Hin' Hres) as (Hw & Hle & Hs).
           split; [exact Hw |]. split; [| exact Hs].
           eapply Forall2_Rle_trans; eassumption.
        -- injection Hres as <-. simpl.
           split; [exact Hin |]. split; [apply Forall2_Rle_refl | apply Hsome].
    + injection Hres as <-. simpl.
      split; [exact Hin' |]. split; [exact Hge | apply Hsome].
Qed.

Lemma unit_field_within (n : nat) (field res : list R) :
  unit_field n field -> field_within (0 :: field) n res -> unit_field n res.
Proof.
  intros [Hlen Hall] [Hlen' Hin]. split; [exact Hlen' |].
  intros i. specialize (Hin i). apply elem_of_cons in Hin as [-> | Hin]; [lra |].
  apply list_elem_of_lookup_total in Hin as (j & _ & <-). apply Hall.
Qed.

Lemma grow_pose_factor_partial (fuel : nat) (ob : SculptMesh)
    (pose_origin : option float3) (t : float3) (max_len : R) (r : option float3)
    (n : nat) (field : list R) (res : GrowResult) :
  unit_field n field ->
  grow_pose_factor fuel ob pose_origin t max_len r field = Some res ->
  unit_field n (grown_factor res) /\
  Forall2 Rle field (grown_factor res) /\
  (is_Some r <-> is_Some (grown_origin res)).
Proof.
  intros Hunit Hres. unfold grow_pose_factor in Hres.
  destruct (grow_loop_partial ob pose_origin t max_len (0 :: field) n
              ltac:(apply elem_of_cons; left; reflexivity)
              fuel field None r res) as (Hw & Hle & Hs).
  - split; [apply Hunit | apply lookup_total_in_candidates].
  - exact Hres.
  - split; [eapply unit_field_within; eassumption |]. split; assumption.
Qed.

Lemma unit_field_insert_one (n : nat) (field : list R) (i : nat) :
  unit_field n field -> unit_field n (<[i := 1]> field).
Proof.
  intros [Hlen Hall]. split; [rewrite length_insert; exact Hlen |].
  intros j. rewrite list_lookup_total_insert.
  destruct (decide (i = j /\ (i < length field)%nat)); [lra | apply Hall].
Qed.

Lemma unit_field_zero (n : nat) : unit_field n (replicate n 0).
Proof.
  split; [apply length_replicate |].
  intros i. destruct (decide (i < n)%nat) as [Hi | Hi].
  - rewrite lookup_total_replicate_2 by exact Hi. lra.
  - rewrite lookup_total_out_of_range by (rewrite length_replicate; lia). lra.
Qed.

Lemma topology_floodfill_unit (ob : SculptMesh) (c : float3) (radius : R)
    (to_v : nat) (dup : bool) (st : FloodState) (n : nat) :
  unit_field n (fl_pose_factor st) ->
  unit_field n (fl_pose_factor (fst (topology_floodfill ob c radius to_v dup st))).
Proof.
  intros Hunit.
  assert (Hpf : unit_field n (if decide (fl_pose_factor st = [])
                              then fl_pose_factor st
                              else <[to_v := 1]> (fl_pose_factor st))).
  { destruct (decide (fl_pose_factor st = []));
      [exact Hunit | apply unit_field_insert_one, Hunit]. }
  unfold topology_floodfill.
  destruct (vert_inside_brush_radius _ _ _ _); [exact Hpf |].
  destruct (check_vertex_pivot_symmetry _ _ _ && negb dup); exact Hpf.
Qed.

Lemma flood_unit (ob : SculptMesh) (c : float3) (radius : R)
    (visits : list (nat * bool)) (st : FloodState) (n : nat) :
  unit_field n (fl_pose_factor st) ->
  unit_field n
    (fl_pose_factor
       (fold_left
          (fun st (visit : nat * bool) =>
             fst (topology_floodfill ob c radius (fst visit) (snd visit) st))
          visits st)).
Proof.
  revert st. induction visits as [| visit visits IH]; intros st Hunit;
    cbn [fold_left]; [exact Hunit |].
  apply IH, topology_floodfill_unit, Hunit.
Qed.

Lemma calc_pose_data_partial (fuel : nat) (ob : SculptMesh)
    (visits : list (nat * bool)) (c : float3) (radius offset : R)
    (n : nat) (field : list R) (o : float3) (field' : list R) :
  unit_field n field ->
  calc_pose_data fuel ob visits c radius offset field = Some (o, field') ->
  unit_field n field'.
Proof.
  intros Hunit. unfold calc_pose_data.
  pose proof (flood_unit ob c radius visits
                (mk_flood_state field c f3_zero 0%Z) n Hunit) as Hflood.
  set (st := fold_left _ visits _) in *.
  destruct (decide (offset <> 0 /\ fl_pose_factor st <> [])).
  - destruct (grow_pose_factor _ _ _ _ _ _ _) as [res |] eqn:Hres; [| discriminate].
    intros H. injection H as _ <-.
    apply (grow_pose_factor_partial _ _ _ _ _ _ n _ _ Hflood Hres).
  - intros H. injection H as _ <-. exact Hflood.
Qed.

Lemma calc_pose_data_total (fuel : nat) (ob : SculptMesh)
    (visits : list (nat * bool)) (c : float3) (radius offset : R)
    (n : nat) (field : list R) :
  unit_field n field -> nodes_in_range ob n -> (grow_fuel n <= fuel)%nat ->
  exists (o : float3) (field' : list R),
    calc_pose_data fuel ob visits c radius offset field = Some (o, field').
Proof.
  intros Hunit Hrange Hfuel. unfold calc_pose_data.
  pose proof (flood_unit ob c radius visits
                (mk_flood_state field c f3_zero 0%Z) n Hunit) as [Hlen _].
  set (st := fold_left _ visits _) in *.
  destruct (decide (offset <> 0 /\ fl_pose_factor st <> [])); [| eauto].
  match goal with
  | |- context [grow_pose_factor fuel ob ?po ?t ?ml ?r ?f] =>
      destruct (grow_pose_factor_terminates ob po t ml r f fuel) as (res & -> & _)
  end.
  - rewrite Hlen. exact Hrange.
  - rewrite Hlen. exact Hfuel.
  - eauto.
Qed.

Lemma zip_with_minus_lookup (a b : list R) (v : nat) :
  length a = length b ->
  zip_with Rminus a b !!! v = a !!! v - b !!! v.
Proof.
  intros Hlen. destruct (decide (v < length a)%nat) as [Hv | Hv].
  - apply lookup_total_zip_with; lia.
  - rewrite !lookup_total_out_of_range; [lra | lia | lia |].
    rewrite length_zip_with. lia.
Qed.

Lemma sum_R_cons (x : R) (l : list R) : sum_R (x :: l) = x + sum_R l.
Proof. reflexivity. Qed.

(** The weights written by the segment loop telescope: they are
    non-negative and sum to the final field minus the field the loop
    started from. *)
Lemma grow_segments_partial (fuel : nat) (ob : SculptMesh) (seg_len : R) (n : nat) :
  forall (segs : list IKChainSegment) (target : float3) (grow : list R)
         (segs' : list IKChainSegment) (final : list R),
    unit_field n grow ->
    grow_segments fuel ob seg_len target grow grow segs = Some (segs', final) ->
    unit_field n final /\
    Forall2 Rle grow final /\
    length segs' = length segs /\
    forall v,
      sum_R ((fun s => weights s !!! v) <$> segs') = final !!! v - grow !!! v /\
      Forall (fun s => 0 <= weights s !!! v) segs'.
Proof.
  induction segs as [| s rest IH]; intros target grow segs' final Hunit Hres.
  - simpl in Hres. injection Hres as <- <-.
    split; [exact Hunit |]. split; [apply Forall2_Rle_refl |].
    split; [reflexivity |]. intros v. split; [simpl; lra | constructor].
  - cbn [grow_segments] in Hres.
    destruct (grow_pose_factor fuel ob None target seg_len (Some (orig s)) grow)
      as [res |] eqn:Hgrow; [| discriminate].
    destruct (grow_segments fuel ob seg_len _ (grown_factor res) (grown_factor res) rest)
      as [[tl final'] |] eqn:Hrest; [| discriminate].
    injection Hres as <- <-.
    destruct (grow_pose_factor_partial _ _ _ _ _ _ n _ _ Hunit Hgrow)
      as (Hunit' & Hle & _).
    destruct (IH _ _ _ _ Hunit' Hrest) as (Hfinal & Hle' & Hlen & Hsum).
    split; [exact Hfinal |].
    split; [eapply Forall2_Rle_trans; eassumption |].
    split; [simpl; f_equal; exact Hlen |].
    intros v. destruct (Hsum v) as [Hs Hpos].
    assert (Hw : zip_with Rminus (grown_factor res) grow !!! v
                 = grown_factor res !!! v - grow !!! v).
    { apply zip_with_minus_lookup.
      destruct Hunit as [-> _], Hunit' as [-> _]. reflexivity. }
    split.
    + rewrite fmap_cons, sum_R_cons.
      cbn [set_orig_weights weights]. rewrite Hw, Hs. lra.
    + constructor; [| exact Hpos].
      cbn [set_orig_weights weights]. rewrite Hw.
      pose proof (Forall2_Rle_lookup_total _ _ v Hle). lra.
Qed.

Lemma grow_segments_total (fuel : nat) (ob : SculptMesh) (seg_len : R) (n : nat) :
  nodes_in_range ob n -> (grow_fuel n <= fuel)%nat ->
  forall (segs : list IKChainSegment) (target : float3) (grow : list R),
    unit_field n grow ->
    exists (segs' : list IKChainSegment) (final : list R),
      grow_segments fuel ob seg_len target grow grow segs = Some (segs', final).
Proof.
  intros Hrange Hfuel. induction segs as [| s rest IH]; intros target grow Hunit.
  - simpl. eauto.
  - cbn [grow_segments].
    destruct (grow_pose_factor_terminates ob None target seg_len (Some (orig s))
                grow fuel) as (res & Hres & _).
    + destruct Hunit as [-> _]. exact Hrange.
    + destruct Hunit as [-> _]. exact Hfuel.
    + rewrite Hres.
      destruct (grow_pose_factor_partial _ _ _ _ _ _ n _ _ Hunit Hres) as (Hunit' & _).
      destruct (IH (default (orig s) (grown_origin res)) (grown_factor res) Hunit')
        as (segs' & final & ->).
      eauto.
Qed.

Lemma origin_heads_loop_length (h : float3) (segs : list IKChainSegment) :
  length (origin_heads_loop h segs) = length segs.
Proof.
  revert h. induction segs as [| s rest IH]; intros h; simpl; [reflexivity |].
  f_equal. apply IH.
Qed.

Lemma origin_heads_loop_weights (h : float3) (segs : list IKChainSegment) :
  weights <$> origin_heads_loop h segs = weights <$> segs.
Proof.
  revert h. induction segs as [| s rest IH]; intros h; [reflexivity |].
  cbn [origin_heads_loop]. rewrite !fmap_cons, IH. reflexivity.
Qed.

Lemma weight_sum_weights (c : IKChain) (v : nat) :
  weight_sum c v = sum_R ((fun w : list R => w !!! v) <$> (weights <$> segments c)).
Proof. unfold weight_sum. rewrite <- list_fmap_compose. reflexivity. Qed.

Lemma initial_pose_factor_unit (n nearest : nat) :
  unit_field n (<[nearest := 1]> (replicate n 0)).
Proof. apply unit_field_insert_one, unit_field_zero. Qed.

(** Whenever the topology builder returns, the final grown field is a
    field of values in [[0,1]], the weights of the segments are
    non-negative and, at every vertex, they sum to the final field. *)
Lemma topology_fields_partial (fuel : nat) (ob : SculptMesh) (brush : Brush)
    (visits : list (nat * bool)) (nearest : nat) (c : float3) (radius : R)
    (chain : IKChain) (final : list R) :
  pose_ik_chain_init_topology_fields fuel ob brush visits nearest c radius
  = Some (chain, final) ->
  unit_field (vertex_count ob) final /\
  length (segments chain) = Z.to_nat (brush_num_effective_segments brush) /\
  forall v,
    weight_sum chain v = final !!! v /\
    Forall (fun w : list R => 0 <= w !!! v) (weights <$> segments chain).
Proof.
  unfold pose_ik_chain_init_topology_fields.
  set (n := vertex_count ob).
  pose proof (initial_pose_factor_unit n nearest) as Hinit.
  unfold ik_chain_new. cbn [segments].
  destruct (Z.to_nat (brush_num_effective_segments brush)) as [| k] eqn:Hk;
    [discriminate |].
  cbn [replicate].
  destruct (calc_pose_data _ _ _ _ _ _ _) as [[orig0 grow0] |] eqn:Hcalc;
    [| discriminate].
  pose proof (calc_pose_data_partial _ _ _ _ _ _ n _ _ _ Hinit Hcalc) as Hunit0.
  destruct (grow_segments _ _ _ _ _ _ _) as [[segs final'] |] eqn:Hsegs;
    [| discriminate].
  intros H. injection H as <- <-.
  destruct (grow_segments_partial _ _ _ n _ _ _ _ _ Hunit0 Hsegs)
    as (Hfinal & Hle & Hlen & Hsum).
  split; [exact Hfinal |].
  split.
  { unfold ik_chain_origin_heads_init, set_segments. cbn [segments].
    rewrite origin_heads_loop_length. simpl. rewrite Hlen, length_replicate.
    reflexivity. }
  intros v. destruct (Hsum v) as [Hs Hpos].
  rewrite weight_sum_weights.
  unfold ik_chain_origin_heads_init, set_segments. cbn [segments].
  rewrite origin_heads_loop_weights, !fmap_cons. cbn [set_orig_weights weights].
  split.
  - rewrite sum_R_cons, <- list_fmap_compose.
    change (sum_R ((fun w : list R => w !!! v) ∘ weights <$> segs))
      with (sum_R ((fun s => weights s !!! v) <$> segs)).
    rewrite Hs. lra.
  - constructor; [apply Hunit0 |].
    apply Forall_fmap. exact Hpos.
Qed.

Lemma topology_fields_total (fuel : nat) (ob : SculptMesh) (brush : Brush)
    (visits : list (nat * bool)) (nearest : nat) (c : float3) (radius : R) :
  (1 <= brush_num_effective_segments brush)%Z ->
  nodes_in_range ob (vertex_count ob) ->
  (grow_fuel (vertex_count ob) <= fuel)%nat ->
  exists (chain : IKChain) (final : list R),
    pose_ik_chain_init_topology_fields fuel ob brush visits nearest c radius
    = Some (chain, final).
Proof.
  intros Hseg Hrange Hfuel.
  unfold pose_ik_chain_init_topology_fields.
  set (n := vertex_count ob) in *.
  pose proof (initial_pose_factor_unit n nearest) as Hinit.
  unfold ik_chain_new. cbn [segments].
  destruct (Z.to_nat (brush_num_effective_segments brush)) as [| k] eqn:Hk; [lia |].
  cbn [replicate].
  destruct (calc_pose_data_total fuel ob visits c radius (pose_offset brush) n _
              Hinit Hrange Hfuel) as (orig0 & grow0 & Hcalc).
  rewrite Hcalc.
  pose proof (calc_pose_data_partial _ _ _ _ _ _ n _ _ _ Hinit Hcalc) as Hunit0.
  destruct (grow_segments_total fuel ob (radius * (1 + pose_offset brush)) n
              Hrange Hfuel (replicate k (new_segment n)) orig0 grow0 Hunit0)
    as (segs & final & ->).
  eauto.
Qed.

Lemma topology_init_fields (fuel : nat) (ob : SculptMesh) (brush : Brush)
    (visits : list (nat * bool)) (nearest : nat) (c : float3) (radius : R)
    (chain : IKChain) :
  pose_ik_chain_init_topology fuel ob brush visits nearest c radius = Some chain ->
  exists final,
    pose_ik_chain_init_topology_fields fuel ob brush visits nearest c radius
    = Some (chain, final).
Proof.
  unfold pose_ik_chain_init_topology.
  destruct (pose_ik_chain_init_topology_fields _ _ _ _ _ _ _) as [[c' final] |];
    [| discriminate].
  simpl. intros H. injection H as <-. eauto.
Qed.

Lemma line5_nodes_in_range : nodes_in_range line5 (vertex_count line5).
Proof.
  intros v Hv. change (vertex_count line5) with 5%nat.
  change (ring_verts line5) with [0; 1; 2; 3; 4]%nat in Hv.
  repeat (apply elem_of_cons in Hv as [-> | Hv]; [lia |]).
  inversion Hv.
Qed.

Lemma line5_chain_built (brush : Brush) :
  (1 <= brush_num_effective_segments brush)%Z ->
  pose_ik_chain_init_topology (grow_fuel 5) line5 brush line5_visits 0 f3_zero (3 / 2)
  = Some (line5_chain brush).
Proof.
  intros Hseg. unfold line5_chain.
  destruct (topology_fields_total (grow_fuel 5) line5 brush line5_visits 0 f3_zero
              (3 / 2) Hseg line5_nodes_in_range ltac:(reflexivity))
    as (chain & final & Hfields).
  unfold pose_ik_chain_init_topology. rewrite Hfields. reflexivity.
Qed.

(** C5 (weight disjointness in topology mode).  For every chain that
    [pose_ik_chain_init_topology] builds (with two segments or more, and
    with one as well) and every vertex index [v], the weights of the
    segments at [v] are non-negative and sum to the value at [v] of the
    final grown field, which lies in [[0,1]]; so the sum never exceeds
    1. *)
Theorem topology_weights_disjoint (fuel : nat) (ob : SculptMesh) (brush : Brush)
    (visits : list (nat * bool)) (nearest_vertex_index : nat)
    (initial_location : float3) (radius : R) (chain : IKChain) (v : nat) :
  pose_ik_chain_init_topology fuel ob brush visits nearest_vertex_index
    initial_location radius = Some chain ->
  (2 <= length (segments chain))%nat ->
  weight_sum chain v <= 1 /\
  Forall (fun w : list R => 0 <= w !!! v) (weights <$> segments chain) /\
  exists final : list R,
    pose_ik_chain_init_topology_fields fuel ob brush visits nearest_vertex_index
      initial_location radius = Some (chain, final) /\
    weight_sum chain v = final !!! v /\
    0 <= final !!! v <= 1.
Proof.
  intros Hbuilt _.
  destruct (topology_init_fields _ _ _ _ _ _ _ _ Hbuilt) as (final & Hfields).
  destruct (topology_fields_partial _ _ _ _ _ _ _ _ _ Hfields) as ([_ Hunit] & _ & Hsum).
  destruct (Hsum v) as [Hs Hpos].
  split; [rewrite Hs; apply Hunit |].
  split; [exact Hpos |].
  exists final. split; [exact Hfields |]. split; [exact Hs | apply Hunit].
Qed.

Lemma brush_rotate3_segments : (1 <= brush_num_effective_segments brush_rotate3)%Z.
Proof. unfold brush_num_effective_segments. simpl. lia. Qed.

Lemma line5_chain_rotate3_length : length (segments (line5_chain brush_rotate3)) = 3%nat.
Proof.
  destruct (topology_init_fields _ _ _ _ _ _ _ _
              (line5_chain_built brush_rotate3 brush_rotate3_segments)) as (final & Hfields).
  destruct (topology_fields_partial _ _ _ _ _ _ _ _ _ Hfields) as (_ & Hlen & _).
  exact Hlen.
Qed.

Lemma topology_weights_disjoint_witness :
  pose_ik_chain_init_topology (grow_fuel 5) line5 brush_rotate3 line5_visits 0
    f3_zero (3 / 2) = Some (line5_chain brush_rotate3) /\
  (2 <= length (segments (line5_chain brush_rotate3)))%nat /\
  weight_sum (line5_chain brush_rotate3) 3 <= 1 /\
  Forall (fun w : list R => 0 <= w !!! 3%nat)
         (weights <$> segments (line5_chain brush_rotate3)) /\
  exists final : list R,
    pose_ik_chain_init_topology_fields (grow_fuel 5) line5 brush_rotate3 line5_visits 0
      f3_zero (3 / 2) = Some (line5_chain brush_rotate3, final) /\
    weight_sum (line5_chain brush_rotate3) 3 = final !!! 3%nat /\
    0 <= final !!! 3%nat <= 1.
Proof.
  assert (Hbuilt := line5_chain_built brush_rotate3 brush_rotate3_segments).
  assert (Hlen : (2 <= length (segments (line5_chain brush_rotate3)))%nat)
    by (rewrite line5_chain_rotate3_length; lia).
  split; [exact Hbuilt |]. split; [exact Hlen |].
  apply (topology_weights_disjoint (grow_fuel 5) line5 brush_rotate3 line5_visits 0
           f3_zero (3 / 2) (line5_chain brush_rotate3) 3 Hbuilt Hlen).
Defined.

(** C7 (single-segment downgrade for scale modes).
    [brush_num_effective_segments] is 1 when the deform type is
    scale-translate or squash-stretch, whatever [pose_ik_segments] is, and
    [pose_ik_segments] otherwise; in those two modes the topology builder,
    given enough fuel on a mesh whose nodes name vertices of the mesh,
    returns a chain, and that chain has exactly one segment. *)
Theorem brush_num_effective_segments_scale_modes (brush : Brush) :
  (pose_deform_type brush = BRUSH_POSE_DEFORM_SCALE_TRASLATE \/
   pose_deform_type brush = BRUSH_POSE_DEFORM_SQUASH_STRETCH ->
   brush_num_effective_segments brush = 1%Z) /\
  (pose_deform_type brush <> BRUSH_POSE_DEFORM_SCALE_TRASLATE /\
   pose_deform_type brush <> BRUSH_POSE_DEFORM_SQUASH_STRETCH ->
   brush_num_effective_segments brush = pose_ik_segments brush) /\
  (pose_deform_type brush = BRUSH_POSE_DEFORM_SCALE_TRASLATE \/
   pose_deform_type brush = BRUSH_POSE_DEFORM_SQUASH_STRETCH ->
   forall (fuel : nat) (ob : SculptMesh) (visits : list (nat * bool))
          (nearest_vertex_index : nat) (initial_location : float3) (radius : R),
     nodes_in_range ob (vertex_count ob) ->
     (grow_fuel (vertex_count ob) <= fuel)%nat ->
     exists chain : IKChain,
       pose_ik_chain_init_topology fuel ob brush visits nearest_vertex_index
         initial_location radius = Some chain /\
       length (segments chain) = 1%nat).
Proof.
  assert (Hone : pose_deform_type brush = BRUSH_POSE_DEFORM_SCALE_TRASLATE \/
                 pose_deform_type brush = BRUSH_POSE_DEFORM_SQUASH_STRETCH ->
                 brush_num_effective_segments brush = 1%Z).
  { unfold brush_num_effective_segments. intros [-> | ->]; reflexivity. }
  split; [exact Hone |]. split.
  - unfold brush_num_effective_segments. intros [H1 H2].
    destruct (pose_deform_type brush); [reflexivity | contradiction | contradiction].
  - intros Hmode fuel ob visits nearest c radius Hrange Hfuel.
    specialize (Hone Hmode).
    destruct (topology_fields_total fuel ob brush visits nearest c radius
                ltac:(lia) Hrange Hfuel) as (chain & final & Hfields).
    destruct (topology_fields_partial _ _ _ _ _ _ _ _ _ Hfields) as (_ & Hlen & _).
    exists chain. split.
    + unfold pose_ik_chain_init_topology. rewrite Hfields. reflexivity.
    + rewrite Hlen, Hone. reflexivity.
Qed.

Lemma brush_num_effective_segments_scale_modes_witness :
  pose_ik_segments brush_squash3 = 3%Z /\
  (pose_deform_type brush_squash3 = BRUSH_POSE_DEFORM_SCALE_TRASLATE \/
   pose_deform_type brush_squash3 = BRUSH_POSE_DEFORM_SQUASH_STRETCH) /\
  nodes_in_range line5 (vertex_count line5) /\
  (grow_fuel (vertex_count line5) <= grow_fuel 5)%nat /\
  brush_num_effective_segments brush_squash3 = 1%Z /\
  exists chain : IKChain,
    pose_ik_chain_init_topology (grow_fuel 5) line5 brush_squash3 line5_visits 0
      f3_zero (3 / 2) = Some chain /\
    length (segments chain) = 1%nat.
Proof.
  assert (Hmode : pose_deform_type brush_squash3 = BRUSH_POSE_DEFORM_SCALE_TRASLATE \/
                  pose_deform_type brush_squash3 = BRUSH_POSE_DEFORM_SQUASH_STRETCH)
    by (right; reflexivity).
  assert (Hfuel : (grow_fuel (vertex_count line5) <= grow_fuel 5)%nat)
    by (apply Nat.le_refl).
  destruct (brush_num_effective_segments_scale_modes brush_squash3) as (Hone & _ & Hbuild).
  split; [reflexivity |]. split; [exact Hmode |].
  split; [exact line5_nodes_in_range |]. split; [exact Hfuel |].
  split; [exact (Hone Hmode) |].
  exact (Hbuild Hmode (grow_fuel 5) line5 line5_visits 0%nat f3_zero (3 / 2)
           line5_nodes_in_range Hfuel).
Defined.

(** ** The builder on the five-vertex line, evaluated *)

Lemma distance_x_axis (a b : R) :
  distance (mk_float3 a 0 0) (mk_float3 b 0 0) = Rabs (a - b).
Proof.
  unfold distance, f3_length, length_squared, dot. simpl.
  replace ((a - b) * (a - b) + (0 - 0) * (0 - 0) + (0 - 0) * (0 - 0))
    with (Rsqr (a - b)) by (unfold Rsqr; ring).
  apply sqrt_Rsqr_abs.
Qed.

Lemma line5_ring_third (t : float3) :
  ring_factor line5 t [1; 1; 1; 0; 0] = [1; 1; 1; 1; 0] /\
  pos_count (ring_data line5 t [1; 1; 1; 0; 0]) = 1%Z /\
  pos_avg (ring_data line5 t [1; 1; 1; 0; 0]) = mk_float3 3 0 0.
Proof. ring_eval. Qed.

Lemma line5_ring_fourth (t : float3) :
  ring_factor line5 t [1; 1; 1; 1; 0] = [1; 1; 1; 1; 1] /\
  pos_count (ring_data line5 t [1; 1; 1; 1; 0]) = 1%Z /\
  pos_avg (ring_data line5 t [1; 1; 1; 1; 0]) = mk_float3 4 0 0.
Proof. ring_eval. Qed.

Lemma line5_ring_full (t : float3) :
  ring_factor line5 t [1; 1; 1; 1; 1] = [1; 1; 1; 1; 1] /\
  pos_count (ring_data line5 t [1; 1; 1; 1; 1]) = 0%Z.
Proof. ring_eval. Qed.

Lemma line5_inside_radius (v c : float3) (r : R) :
  vert_inside_brush_radius line5 v c r = bool_decide (distance c v < r).
Proof.
  unfold vert_inside_brush_radius. simpl. rewrite orb_false_r. reflexivity.
Qed.

Lemma Rabs_minus_nat (a b : R) : a <= b -> Rabs (a - b) = b - a.
Proof. intros H. rewrite Rabs_left1 by lra. ring. Qed.

Lemma line5_flood_first :
  topology_floodfill line5 f3_zero (3 / 2) 1 false
    (mk_flood_state [1; 0; 0; 0; 0] f3_zero f3_zero 0%Z)
  = (mk_flood_state [1; 1; 0; 0; 0] (mk_float3 1 0 0) f3_zero 0%Z, true).
Proof.
  unfold topology_floodfill. rewrite line5_inside_radius. simpl.
  unfold f3_zero. rewrite distance_x_axis, Rabs_minus_nat by lra.
  rewrite bool_decide_eq_true_2 by lra.
  f_equal. f_equal.
  destruct (Rlt_dec _ _) as [_ | Hn]; [reflexivity |].
  exfalso. apply Hn. unfold length_squared, dot. simpl. lra.
Qed.

Lemma line5_flood_second :
  topology_floodfill line5 f3_zero (3 / 2) 2 false
    (mk_flood_state [1; 1; 0; 0; 0] (mk_float3 1 0 0) f3_zero 0%Z)
  = (mk_flood_state [1; 1; 1; 0; 0] (mk_float3 2 0 0)
       (f3_zero +v mk_float3 2 0 0) (0 + 1)%Z, false).
Proof.
  unfold topology_floodfill. rewrite line5_inside_radius. simpl.
  unfold f3_zero. rewrite distance_x_axis, Rabs_minus_nat by lra.
  rewrite bool_decide_eq_false_2 by lra.
  f_equal. f_equal.
  destruct (Rlt_dec _ _) as [_ | Hn]; [reflexivity |].
  exfalso. apply Hn. unfold length_squared, dot. simpl. lra.
Qed.

Lemma line5_calc_pose_data (fuel : nat) :
  calc_pose_data fuel line5 line5_visits f3_zero (3 / 2) 0 [1; 0; 0; 0; 0]
  = Some (mk_float3 2 0 0, [1; 1; 1; 0; 0]).
Proof.
  unfold calc_pose_data, line5_visits. cbn [fold_left fst snd].
  rewrite line5_flood_first. cbn [fst]. rewrite line5_flood_second.
  cbn [fst fl_tot_co fl_pose_origin fl_pose_factor fl_fallback_floodfill_origin].
  destruct (decide (0 <> 0 /\ [1; 1; 1; 0; 0] <> [])) as [[H _] | _]; [lra |].
  destruct (decide (0 < 0 + 1)%Z); [| lia].
  f_equal. f_equal.
  match goal with
  | |- ?p +v ?d *v _ *v 0 = _ => replace (p +v d *v (3 / 2) *v 0) with p by f3_ring
  end.
  change (0 + 1)%Z with 1%Z. rewrite f3_div_one. f3_ring.
Qed.

Lemma centroid_of_one (g : PoseGrowFactorData) (p : float3) :
  pos_count g = 1%Z -> pos_avg g = p -> gftd_centroid g = p.
Proof. intros Hc Ha. unfold gftd_centroid. rewrite Hc, Ha. apply f3_div_one. Qed.

(** Second segment: two rings, stopped by the length. *)
Lemma line5_grow_second_segment (buf : float3) :
  grow_pose_factor (grow_fuel 5) line5 None (mk_float3 2 0 0) (3 / 2 * (1 + 0))
    (Some buf) [1; 1; 1; 0; 0]
  = Some (mk_grow_result [1; 1; 1; 1; 0] (Some (mk_float3 4 0 0))).
Proof.
  unfold grow_pose_factor, grow_fuel.
  destruct (line5_ring_third (mk_float3 2 0 0)) as (Hf3 & Hc3 & Ha3).
  destruct (line5_ring_fourth (mk_float3 2 0 0)) as (Hf4 & Hc4 & Ha4).
  change (S (5 * 6)) with (S (S 29)).
  rewrite grow_loop_continue.
  - rewrite Hf3, grow_loop_stop.
    + rewrite (centroid_of_one _ _ Hc4 Ha4). reflexivity.
    + rewrite Hc4. discriminate.
    + rewrite (centroid_of_one _ _ Hc4 Ha4), distance_x_axis, Rabs_right; lra.
  - rewrite Hc3. discriminate.
  - rewrite (centroid_of_one _ _ Hc3 Ha3), distance_x_axis, Rabs_right; lra.
Qed.

(** Third segment: one ring fills the mesh, the next one grows nothing. *)
Lemma line5_grow_third_segment (buf : float3) :
  grow_pose_factor (grow_fuel 5) line5 None (mk_float3 4 0 0) (3 / 2 * (1 + 0))
    (Some buf) [1; 1; 1; 1; 0]
  = Some (mk_grow_result [1; 1; 1; 1; 1] (Some (mk_float3 4 0 0))).
Proof.
  unfold grow_pose_factor, grow_fuel.
  destruct (line5_ring_fourth (mk_float3 4 0 0)) as (Hf4 & Hc4 & Ha4).
  destruct (line5_ring_full (mk_float3 4 0 0)) as (Hf5 & Hc5).
  change (S (5 * 6)) with (S (S 29)).
  rewrite grow_loop_continue.
  - rewrite Hf4, grow_loop_degenerate by exact Hc5. rewrite Hf5. reflexivity.
  - rewrite Hc4. discriminate.
  - rewrite (centroid_of_one _ _ Hc4 Ha4), distance_x_axis.
    replace (4 - 4) with 0 by ring. rewrite Rabs_R0. lra.
Qed.

(** The builder on the line: three segments with origins [(2,0,0)],
    [(4,0,0)], [(4,0,0)], whose weights cover vertices 0-2, vertex 3 and
    vertex 4; the last segment has length 0. *)
Lemma line5_topology_example :
  exists chain : IKChain,
    pose_ik_chain_init_topology_fields (grow_fuel 5) line5 brush_rotate3 line5_visits 0
      f3_zero (3 / 2) = Some (chain, [1; 1; 1; 1; 1]) /\
    orig <$> segments chain = [mk_float3 2 0 0; mk_float3 4 0 0; mk_float3 4 0 0] /\
    head <$> segments chain = [f3_zero; mk_float3 2 0 0; mk_float3 4 0 0] /\
    weights <$> segments chain
    = [[1; 1; 1; 0; 0];
       [1 - 1; 1 - 1; 1 - 1; 1 - 0; 0 - 0];
       [1 - 1; 1 - 1; 1 - 1; 1 - 1; 1 - 0]].
Proof.
  unfold pose_ik_chain_init_topology_fields.
  change (vertex_count line5) with 5%nat.
  change (brush_num_effective_segments brush_rotate3) with 3%Z.
  change (Z.to_nat 3) with 3%nat.
  change (pose_offset brush_rotate3) with 0.
  cbn [ik_chain_new segments replicate].
  change (<[0%nat := 1]> (replicate 5 0)) with [1; 0; 0; 0; 0].
  rewrite line5_calc_pose_data.
  cbn [grow_segments]. rewrite line5_grow_second_segment.
  cbn [grown_factor grown_origin default]. rewrite line5_grow_third_segment.
  cbn [grown_factor grown_origin default].
  eexists. split; [reflexivity |].
  repeat split.
Qed.

(** ** The deformation modes *)

Lemma dist_signed_to_plane_unit (pt point normal : float3) :
  f3_length normal = 1 ->
  dist_signed_to_plane_v3 pt (plane_from_point_normal_v3 point normal)
  = dot (pt -v point) normal.
Proof.
  intros Hn. unfold dist_signed_to_plane_v3, plane_from_point_normal_v3. simpl.
  assert (Hsq : length_squared normal = 1).
  { rewrite <- f3_length_sqr, Hn. ring. }
  rewrite Hsq, sqrt_1. unfold dot. simpl. field.
Qed.

Lemma solve_scale_chain_segments (chain : IKChain) (sc : float3) (s : IKChainSegment) :
  s ∈ segments (solve_scale_chain chain sc) -> scale s = sc.
Proof.
  unfold solve_scale_chain, set_segments. simpl.
  intros Hs. apply list_elem_of_fmap in Hs as (s0 & -> & _). reflexivity.
Qed.

Lemma solve_scale_chain_length (chain : IKChain) (sc : float3) :
  length (segments (solve_scale_chain chain sc)) = length (segments chain).
Proof. unfold solve_scale_chain, set_segments. simpl. apply length_fmap. Qed.

(** C8 (squash/stretch scale law).  When the grab target lies at signed
    distance [d] from the initial head of the first segment, measured
    along the normalized initial head-minus-origin direction, and
    [d < len], [calc_squash_stretch_deform] stores on every segment a
    scale whose third component is [len / (len - d)] and whose first two
    components are [sqrt (1 / scale[2])]. *)
Theorem squash_stretch_scale_law (c : StrokeCache) (seg0 : IKChainSegment)
    (rest : list IKChainSegment) (d : R) :
  segments (pose_ik_chain c) = seg0 :: rest ->
  initial_head seg0 <> initial_orig seg0 ->
  dot (location c +v grab_delta c -v initial_head seg0)
      (normalize (initial_head seg0 -v initial_orig seg0)) = d ->
  d < len seg0 ->
  exists c' : StrokeCache,
    calc_squash_stretch_deform c = Some c' /\
    dist_signed_to_plane_v3 (location c +v grab_delta c)
      (plane_from_point_normal_v3 (initial_head seg0)
         (normalize (initial_head seg0 -v initial_orig seg0))) = d /\
    length (segments (pose_ik_chain c')) = length (segments (pose_ik_chain c)) /\
    forall s : IKChainSegment,
      s ∈ segments (pose_ik_chain c') ->
      vz (scale s) = len seg0 / (len seg0 - d) /\
      vz (scale s) * (len seg0 - d) = len seg0 /\
      vx (scale s) = sqrt (1 / vz (scale s)) /\
      vy (scale s) = sqrt (1 / vz (scale s)).
Proof.
  intros Hsegs Hne Hd Hlt.
  assert (Hunit : f3_length (normalize (initial_head seg0 -v initial_orig seg0)) = 1).
  { apply normalize_length. intros E. apply Hne, f3_sub_eq_zero, E. }
  pose proof (dist_signed_to_plane_unit (location c +v grab_delta c)
                (initial_head seg0) _ Hunit) as Hdist.
  rewrite Hd in Hdist.
  unfold calc_squash_stretch_deform, calc_scale_from_grab_delta.
  rewrite Hsegs, Hdist.
  eexists. split; [reflexivity |]. split; [reflexivity |].
  cbn [pose_ik_chain set_pose_ik_chain].
  split; [rewrite solve_scale_chain_length, Hsegs; reflexivity |].
  intros s Hs. apply solve_scale_chain_segments in Hs. rewrite Hs. simpl.
  split; [reflexivity |]. split; [field; lra |]. split; reflexivity.
Qed.

Lemma normalize_axis_z (cz : R) : 0 < cz -> normalize (mk_float3 0 0 cz) = mk_float3 0 0 1.
Proof.
  intros Hc. unfold normalize. rewrite f3_length_axis_z by lra.
  unfold f3_div. simpl. f_equal; field; lra.
Qed.

Lemma squash_stretch_scale_law_witness :
  let c := cache_drag_z 0 false in
  let seg0 := rest_segment f3_zero (mk_float3 0 0 1) 1 in
  segments (pose_ik_chain c) = [seg0] /\
  initial_head seg0 <> initial_orig seg0 /\
  dot (location c +v grab_delta c -v initial_head seg0)
      (normalize (initial_head seg0 -v initial_orig seg0)) = 1 / 2 /\
  1 / 2 < len seg0 /\
  exists c' : StrokeCache,
    calc_squash_stretch_deform c = Some c' /\
    dist_signed_to_plane_v3 (location c +v grab_delta c)
      (plane_from_point_normal_v3 (initial_head seg0)
         (normalize (initial_head seg0 -v initial_orig seg0))) = 1 / 2 /\
    length (segments (pose_ik_chain c')) = length (segments (pose_ik_chain c)) /\
    forall s : IKChainSegment,
      s ∈ segments (pose_ik_chain c') ->
      vz (scale s) = len seg0 / (len seg0 - 1 / 2) /\
      vz (scale s) * (len seg0 - 1 / 2) = len seg0 /\
      vx (scale s) = sqrt (1 / vz (scale s)) /\
      vy (scale s) = sqrt (1 / vz (scale s)).
Proof.
  cbv zeta.
  assert (Hne : initial_head (rest_segment f3_zero (mk_float3 0 0 1) 1)
                <> initial_orig (rest_segment f3_zero (mk_float3 0 0 1) 1)).
  { apply float3_neq_z. simpl. lra. }
  assert (Hd : dot (location (cache_drag_z 0 false) +v grab_delta (cache_drag_z 0 false)
                    -v initial_head (rest_segment f3_zero (mk_float3 0 0 1) 1))
                   (normalize (initial_head (rest_segment f3_zero (mk_float3 0 0 1) 1)
                               -v initial_orig (rest_segment f3_zero (mk_float3 0 0 1) 1)))
               = 1 / 2).
  { simpl.
    replace (mk_float3 0 0 1 -v f3_zero) with (mk_float3 0 0 1) by f3_ring.
    rewrite normalize_axis_z by lra. unfold dot. simpl. field. }
  assert (Hlt : 1 / 2 < len (rest_segment f3_zero (mk_float3 0 0 1) 1))
    by (simpl; lra).
  split; [reflexivity |]. split; [exact Hne |]. split; [exact Hd |].
  split; [exact Hlt |].
  apply (squash_stretch_scale_law (cache_drag_z 0 false)
           (rest_segment f3_zero (mk_float3 0 0 1) 1) [] (1 / 2)
           eq_refl Hne Hd Hlt).
Defined.

(** ** [do_pose_brush] *)

(** C10 (no-op on repeated symmetry passes).  When the stroke cache's
    [mirror_symmetry_pass] is non-zero, [do_pose_brush] returns the
    object it was given: the chain's segments (state and matrices), the
    vertex positions and the cloth deformation target are unchanged. *)
Theorem do_pose_brush_symmetry_pass_noop {L : RotationLib} {D : DeformLib}
    (brush : Brush) (symm : nat) (node_mask : list nat) (ob : SculptObject) :
  mirror_symmetry_pass (cache ob) <> 0%Z ->
  do_pose_brush brush symm node_mask ob = Some ob.
Proof.
  intros Hpass. unfold do_pose_brush.
  destruct (decide (mirror_symmetry_pass (cache ob) <> 0%Z)); [reflexivity | contradiction].
Qed.

Lemma do_pose_brush_symmetry_pass_noop_witness :
  mirror_symmetry_pass (cache (object_drag_z 1 true)) <> 0%Z /\
  do_pose_brush (L := ref_rotation_lib) (D := ref_deform_lib)
    brush_scale_translate 0 [0%nat] (object_drag_z 1 true)
  = Some (object_drag_z 1 true).
Proof.
  split; [discriminate |].
  apply (@do_pose_brush_symmetry_pass_noop ref_rotation_lib ref_deform_lib
           brush_scale_translate 0%nat [0%nat] (object_drag_z 1 true)).
  discriminate.
Defined.

(** In pass 0 the same call does solve: the translate solve moves the
    origin of the segment from the origin to [(0,0,1/2)]. *)
Lemma do_pose_brush_pass_zero_solves :
  exists (ob' : SculptObject) (s : IKChainSegment),
    do_pose_brush (L := ref_rotation_lib) (D := ref_deform_lib)
      brush_scale_translate 0 [0%nat] (object_drag_z 0 true) = Some ob' /\
    segments (pose_ik_chain (cache ob')) = [s] /\
    orig s = f3_zero +v mk_float3 0 0 (1 / 2) /\
    ob' <> object_drag_z 0 true.
Proof.
  eexists. eexists. split; [reflexivity |]. split; [reflexivity |].
  split; [reflexivity |].
  intros E.
  apply (f_equal (fun o => vz (orig (default (new_segment 0)
                                       (segments (pose_ik_chain (cache o)) !! 0%nat))))) in E.
  simpl in E. lra.
Qed.

(** * Further properties of the code *)

(** ** The solvers *)

Lemma same_reference_step {L : RotationLib} (t : float3) (s : IKChainSegment) :
  same_reference s (ik_segment_step t s).
Proof. repeat split. Qed.

Lemma ik_loop_same_reference {L : RotationLib} (t : float3) (segs : list IKChainSegment) :
  Forall2 same_reference segs (ik_loop t segs).
Proof.
  revert t. induction segs as [| s rest IH]; intros t; simpl; constructor.
  - apply same_reference_step.
  - apply IH.
Qed.

Lemma solve_ik_chain_keeps_reference_aux {L : RotationLib}
    (chain : IKChain) (target : float3) (use_anchor : bool) :
  length (segments (solve_ik_chain chain target use_anchor)) = length (segments chain) /\
  Forall2 same_reference (segments chain)
          (segments (solve_ik_chain chain target use_anchor)).
Proof.
  pose proof (ik_loop_same_reference target (segments chain)) as Href.
  destruct use_anchor.
  - rewrite solve_ik_chain_segments_anchored.
    split; [rewrite length_fmap; apply ik_loop_length |].
    apply Forall2_fmap_r.
    eapply Forall2_impl; [exact Href |].
    intros s s' H. exact H.
  - rewrite solve_ik_chain_segments_free.
    split; [apply ik_loop_length | exact Href].
Qed.

(** X1.  The rotate solve, anchored or not, keeps the number of segments
    and the chain's grab offset, and in every segment it leaves the
    reference pose ([initial_orig], [initial_head]), the length, the
    scale, the weights and the matrices as they were. *)
Theorem solve_ik_chain_keeps_reference {L : RotationLib}
    (chain : IKChain) (target : float3) (use_anchor : bool) :
  length (segments (solve_ik_chain chain target use_anchor)) = length (segments chain) /\
  grab_delta_offset (solve_ik_chain chain target use_anchor) = grab_delta_offset chain /\
  Forall2 same_reference (segments chain)
          (segments (solve_ik_chain chain target use_anchor)).
Proof.
  destruct (solve_ik_chain_keeps_reference_aux chain target use_anchor) as [Hlen Href].
  split; [exact Hlen |]. split; [| exact Href].
  destruct use_anchor; reflexivity.
Qed.

Lemma normalize_scaled_unit (u : float3) (k : R) :
  f3_length u = 1 -> 0 < k -> normalize (u *v k) = u.
Proof.
  intros Hu Hk. unfold normalize.
  rewrite f3_length_mul, Hu, Rabs_right by lra.
  unfold f3_div, f3_mul. simpl. apply float3_eq; simpl; field; lra.
Qed.

(** Solving a segment again with the target it was just solved for. *)
Lemma ik_segment_step_again {L : RotationLib} (t : float3) (s : IKChainSegment) :
  t <> orig s -> 0 < len s ->
  t <> orig (ik_segment_step t s) /\
  orig (ik_segment_step t (ik_segment_step t s)) = orig (ik_segment_step t s) /\
  rot (ik_segment_step t (ik_segment_step t s)) = rot (ik_segment_step t s) /\
  head (ik_segment_step t (ik_segment_step t s)) = t.
Proof.
  intros Hne Hlen.
  assert (Hnz : t -v orig s <> f3_zero).
  { intros E. apply Hne, f3_sub_eq_zero, E. }
  pose proof (normalize_length _ Hnz) as Hunit.
  set (dir := normalize (t -v orig s)) in *.
  assert (Hdiff : t -v orig (ik_segment_step t s) = dir *v len s).
  { rewrite ik_segment_step_orig. fold dir. f3_ring. }
  assert (Hdir : normalize (t -v orig (ik_segment_step t s)) = dir).
  { rewrite Hdiff. apply normalize_scaled_unit; assumption. }
  split.
  { intros E. rewrite <- E in Hdiff.
    assert (Hl : f3_length (dir *v len s) = len s).
    { rewrite f3_length_mul, Hunit, Rabs_right by lra. ring. }
    rewrite <- Hdiff in Hl.
    replace (t -v t) with f3_zero in Hl by f3_ring.
    unfold f3_length, length_squared, dot in Hl. simpl in Hl.
    replace (0 * 0 + 0 * 0 + 0 * 0) with 0 in Hl by ring.
    rewrite sqrt_0 in Hl. lra. }
  split.
  { rewrite (ik_segment_step_orig t (ik_segment_step t s)), Hdir.
    cbn [ik_segment_step len]. rewrite ik_segment_step_orig. reflexivity. }
  split.
  { unfold ik_segment_step at 1. cbn [rot initial_head initial_orig].
    fold (ik_segment_step t s). rewrite Hdir. reflexivity. }
  rewrite (ik_segment_step_head t (ik_segment_step t s)), Hdir.
  cbn [ik_segment_step len]. rewrite ik_segment_step_orig. fold dir. f3_ring.
Qed.

Lemma ik_loop_again {L : RotationLib} (segs : list IKChainSegment) :
  forall t0 : float3,
    (forall i s t, segs !! i = Some s -> ik_targets t0 segs !! i = Some t ->
                   t <> orig s /\ 0 < len s) ->
    orig <$> ik_loop t0 (ik_loop t0 segs) = orig <$> ik_loop t0 segs /\
    rot <$> ik_loop t0 (ik_loop t0 segs) = rot <$> ik_loop t0 segs /\
    head <$> ik_loop t0 (ik_loop t0 segs) = ik_targets t0 segs.
Proof.
  induction segs as [| s rest IH]; intros t0 Hnd; [repeat split |].
  destruct (Hnd 0%nat s t0 eq_refl eq_refl) as [Hne Hlen].
  destruct (ik_segment_step_again t0 s Hne Hlen) as (_ & Ho & Hr & Hh).
  cbn [ik_loop ik_targets]. rewrite !fmap_cons, Ho.
  destruct (IH (orig (ik_segment_step t0 s))) as (IHo & IHr & IHh).
  { intros i s1 t1 Hs1 Ht1. apply (Hnd (S i) s1 t1); assumption. }
  rewrite IHo, IHr, IHh, Hr, Hh. repeat split.
Qed.

(** X2.  Solving twice for the same target, without anchor, on a chain
    whose segments have positive length and whose running targets differ
    from the origins: the second solve leaves every origin and every
    rotation as the first one set them, and moves every stored head onto
    the running target of its segment. *)
Theorem solve_ik_chain_again {L : RotationLib} (chain : IKChain) (target : float3) :
  (forall i s t,
     segments chain !! i = Some s ->
     ik_targets target (segments chain) !! i = Some t ->
     t <> orig s /\ 0 < len s) ->
  let once := solve_ik_chain chain target false in
  let twice := solve_ik_chain once target false in
  orig <$> segments twice = orig <$> segments once /\
  rot <$> segments twice = rot <$> segments once /\
  head <$> segments twice = ik_targets target (segments chain).
Proof.
  intros Hnd once twice. subst once twice.
  rewrite !solve_ik_chain_segments_free. apply ik_loop_again, Hnd.
Qed.

Lemma chain_two_z_nondegenerate (i : nat) (s : IKChainSegment) (t : float3) :
  segments chain_two_z !! i = Some s ->
  ik_targets (L := ref_rotation_lib) (mk_float3 0 0 5) (segments chain_two_z) !! i
  = Some t ->
  t <> orig s /\ 0 < len s.
Proof.
  intros Hs Ht. unfold chain_two_z in Hs, Ht.
  cbn [segments ik_targets] in Hs, Ht.
  destruct i as [| [| i]]; cbn [lookup list_lookup] in Hs, Ht.
  - injection Hs as <-. injection Ht as <-. simpl.
    split; [apply float3_neq_z; simpl; lra | lra].
  - injection Hs as <-. injection Ht as <-.
    replace (mk_float3 0 0 5 -v mk_float3 0 0 1) with (mk_float3 0 0 4) by f3_ring.
    rewrite normalize_axis_z by lra.
    split; [apply float3_neq_z; simpl; lra | simpl; lra].
  - discriminate.
Qed.

Lemma solve_ik_chain_again_witness :
  (forall i s t,
     segments chain_two_z !! i = Some s ->
     ik_targets (L := ref_rotation_lib) (mk_float3 0 0 5) (segments chain_two_z) !! i
     = Some t ->
     t <> orig s /\ 0 < len s) /\
  let once := solve_ik_chain (L := ref_rotation_lib) chain_two_z (mk_float3 0 0 5) false in
  let twice := solve_ik_chain (L := ref_rotation_lib) once (mk_float3 0 0 5) false in
  orig <$> segments twice = orig <$> segments once /\
  rot <$> segments twice = rot <$> segments once /\
  head <$> segments twice
  = ik_targets (L := ref_rotation_lib) (mk_float3 0 0 5) (segments chain_two_z).
Proof.
  split; [exact chain_two_z_nondegenerate |].
  apply (@solve_ik_chain_again ref_rotation_lib chain_two_z (mk_float3 0 0 5)
           chain_two_z_nondegenerate).
Defined.

(** X3.  After the rotate solve, anchored or not, consecutive origins are
    one segment length apart: for a segment at index [i+1] whose running
    target differs from its origin, the new origin lies at distance [len]
    from the new origin of segment [i]. *)
Theorem solve_ik_chain_origins_linked {L : RotationLib}
    (chain : IKChain) (target : float3) (use_anchor : bool)
    (i : nat) (s : IKChainSegment) (t : float3) (a b : IKChainSegment) :
  segments chain !! S i = Some s ->
  ik_targets target (segments chain) !! S i = Some t ->
  t <> orig s ->
  0 <= len s ->
  segments (solve_ik_chain chain target use_anchor) !! i = Some a ->
  segments (solve_ik_chain chain target use_anchor) !! S i = Some b ->
  distance (orig b) (orig a) = len s.
Proof.
  intros Hs Ht Hne Hlen Ha Hb.
  assert (Hi : (S i < length (segments chain))%nat) by (eapply lookup_lt_Some; exact Hs).
  pose proof (ik_loop_lookup target (segments chain) (S i) s t Hs Ht) as Hloop.
  destruct (lookup_lt_is_Some_2 (ik_loop target (segments chain)) i) as [a0 Ha0].
  { rewrite ik_loop_length. lia. }
  pose proof (ik_targets_next target (segments chain) i a0 Ha0 Hi) as Hnext.
  rewrite Ht in Hnext. injection Hnext as Hta.
  destruct use_anchor.
  - rewrite solve_ik_chain_segments_anchored, list_lookup_fmap in Ha, Hb.
    rewrite Ha0 in Ha. rewrite Hloop in Hb. simpl in Ha, Hb.
    injection Ha as <-. injection Hb as <-.
    cbn [translate_segment orig]. rewrite distance_translate, <- Hta.
    apply ik_segment_step_orig_distance; assumption.
  - rewrite solve_ik_chain_segments_free in Ha, Hb.
    rewrite Ha0 in Ha. rewrite Hloop in Hb.
    injection Ha as <-. injection Hb as <-.
    rewrite <- Hta. apply ik_segment_step_orig_distance; assumption.
Qed.

Lemma solve_ik_chain_origins_linked_witness :
  let s := rest_segment f3_zero (mk_float3 0 0 1) 1 in
  let t := mk_float3 0 0 4 in
  let solved := solve_ik_chain (L := ref_rotation_lib) chain_two_z (mk_float3 0 0 5) true in
  let a := default s (segments solved !! 0%nat) in
  let b := default s (segments solved !! 1%nat) in
  segments chain_two_z !! 1%nat = Some s /\
  ik_targets (L := ref_rotation_lib) (mk_float3 0 0 5) (segments chain_two_z) !! 1%nat
  = Some t /\
  t <> orig s /\
  0 <= len s /\
  segments solved !! 0%nat = Some a /\
  segments solved !! 1%nat = Some b /\
  distance (orig b) (orig a) = len s.
Proof.
  cbv zeta.
  assert (Ht : ik_targets (L := ref_rotation_lib) (mk_float3 0 0 5)
                 (segments chain_two_z) !! 1%nat = Some (mk_float3 0 0 4)).
  { unfold chain_two_z. cbn [segments ik_targets lookup list_lookup]. f_equal.
    rewrite ik_segment_step_orig. simpl.
    replace (mk_float3 0 0 5 -v mk_float3 0 0 1) with (mk_float3 0 0 4) by f3_ring.
    rewrite normalize_axis_z by lra. f3_ring. }
  assert (Hne : mk_float3 0 0 4 <> orig (rest_segment f3_zero (mk_float3 0 0 1) 1)).
  { apply float3_neq_z. simpl. lra. }
  assert (Hlen : 0 <= len (rest_segment f3_zero (mk_float3 0 0 1) 1)) by (simpl; lra).
  split; [reflexivity |]. split; [exact Ht |]. split; [exact Hne |].
  split; [exact Hlen |]. split; [reflexivity |]. split; [reflexivity |].
  apply (@solve_ik_chain_origins_linked ref_rotation_lib chain_two_z (mk_float3 0 0 5)
           true 0%nat (rest_segment f3_zero (mk_float3 0 0 1) 1) (mk_float3 0 0 4));
    [reflexivity | exact Ht | exact Hne | exact Hlen | reflexivity | reflexivity].
Defined.


(** ** Linking the chain: [ik_chain_origin_heads_init] *)

Lemma origin_heads_loop_orig (h : float3) (segs : list IKChainSegment) :
  orig <$> origin_heads_loop h segs = orig <$> segs.
Proof.
  revert h. induction segs as [| s rest IH]; intros h; [reflexivity |].
  cbn [origin_heads_loop]. rewrite !fmap_cons, IH. reflexivity.
Qed.

Lemma origin_heads_loop_head (h : float3) (segs : list IKChainSegment) :
  head <$> origin_heads_loop h segs = take (length segs) (h :: (orig <$> segs)).
Proof.
  revert h. induction segs as [| s rest IH]; intros h; [reflexivity |].
  cbn [origin_heads_loop]. rewrite !fmap_cons, IH. reflexivity.
Qed.

Lemma origin_heads_loop_reference (h : float3) (segs : list IKChainSegment) :
  Forall at_reference_pose (origin_heads_loop h segs).
Proof.
  revert h. induction segs as [| s rest IH]; intros h; simpl; constructor.
  - repeat split.
  - apply IH.
Qed.

(** X5.  [ik_chain_origin_heads_init] links the chain: it keeps the
    number of segments, their origins and their weights; the heads are
    the initial location followed by the origins of the preceding
    segments; and every segment is left at its reference pose, with
    [initial_orig = orig], [initial_head = head], [len] the distance
    between head and origin, and unit scale. *)
Theorem ik_chain_origin_heads_init_links (chain : IKChain) (initial_location : float3) :
  let linked := ik_chain_origin_heads_init chain initial_location in
  length (segments linked) = length (segments chain) /\
  orig <$> segments linked = orig <$> segments chain /\
  weights <$> segments linked = weights <$> segments chain /\
  head <$> segments linked
  = take (length (segments chain)) (initial_location :: (orig <$> segments chain)) /\
  Forall at_reference_pose (segments linked).
Proof.
  cbv zeta. unfold ik_chain_origin_heads_init, set_segments. cbn [segments].
  split; [apply origin_heads_loop_length |].
  split; [apply origin_heads_loop_orig |].
  split; [apply origin_heads_loop_weights |].
  split; [apply origin_heads_loop_head | apply origin_heads_loop_reference].
Qed.

(** A segment at its reference pose, aimed at its own head, does not
    move. *)
Lemma ik_segment_step_at_rest {L : RotationLib} (s : IKChainSegment) :
  head s <> orig s -> len s = distance (head s) (orig s) ->
  orig (ik_segment_step (head s) s) = orig s /\
  head (ik_segment_step (head s) s) = head s.
Proof.
  intros Hne Hlen.
  assert (Hnz : head s -v orig s <> f3_zero).
  { intros E. apply Hne, f3_sub_eq_zero, E. }
  pose proof (normalize_mul_length _ Hnz) as Hn.
  rewrite ik_segment_step_orig, ik_segment_step_head, Hlen. unfold distance.
  rewrite Hn. split; f3_ring.
Qed.

Lemma ik_loop_at_rest {L : RotationLib} (segs : list IKChainSegment) :
  forall h : float3,
    Forall (fun s => head s <> orig s) (origin_heads_loop h segs) ->
    orig <$> ik_loop h (origin_heads_loop h segs) = orig <$> origin_heads_loop h segs /\
    head <$> ik_loop h (origin_heads_loop h segs) = head <$> origin_heads_loop h segs.
Proof.
  induction segs as [| s rest IH]; intros h Hnd; [split; reflexivity |].
  cbn [origin_heads_loop] in *. apply Forall_cons in Hnd as [Hne Hrest].
  set (s' := mk_segment (orig s) h (orig s) h (distance h (orig s)) (mk_float3 1 1 1)
                        (rot s) (weights s) (trans_mat s) (pivot_mat s)
                        (pivot_mat_inv s)) in *.
  destruct (ik_segment_step_at_rest s' Hne eq_refl) as [Ho Hh].
  change (head s') with h in Ho, Hh. change (orig s') with (orig s) in Ho.
  cbn [ik_loop]. rewrite !fmap_cons, Ho, Hh.
  destruct (IH (orig s) Hrest) as [IHo IHh].
  rewrite IHo, IHh. split; reflexivity.
Qed.

Lemma fmap_translate_zero_orig (segs : list IKChainSegment) :
  orig <$> (translate_segment f3_zero <$> segs) = orig <$> segs.
Proof.
  rewrite <- list_fmap_compose. apply list_fmap_ext. intros i s _. simpl. f3_ring.
Qed.

Lemma fmap_translate_zero_head (segs : list IKChainSegment) :
  head <$> (translate_segment f3_zero <$> segs) = head <$> segs.
Proof.
  rewrite <- list_fmap_compose. apply list_fmap_ext. intros i s _. simpl. f3_ring.
Qed.

Lemma anchor_diff_at_rest (segs segs' : list IKChainSegment) :
  Forall at_reference_pose segs ->
  Forall2 same_reference segs segs' ->
  orig <$> segs' = orig <$> segs ->
  anchor_diff segs' = f3_zero.
Proof.
  intros Href Hsame Horig. unfold anchor_diff.
  destruct (last segs') as [l' |] eqn:Hl'; [| reflexivity].
  rewrite last_lookup in Hl'.
  destruct (Forall2_lookup_r _ _ _ _ _ Hsame Hl') as (l & Hl & Hio & _).
  assert (Ho : orig l' = orig l).
  { apply (f_equal (fun x => x !! pred (length segs'))) in Horig.
    rewrite !list_lookup_fmap, Hl', Hl in Horig. simpl in Horig. congruence. }
  apply list_elem_of_lookup_2 in Hl.
  rewrite Forall_forall in Href. destruct (Href l Hl) as (Hr & _).
  rewrite Hio, Hr, Ho. f3_ring.
Qed.

(** X6.  The rotate solve at the construction pose is the identity on
    positions: on a chain just linked by [ik_chain_origin_heads_init],
    with no segment of length zero, solving for the initial location,
    anchored or not, leaves every origin and every head where it was. *)
Theorem solve_ik_chain_at_rest {L : RotationLib}
    (chain : IKChain) (initial_location : float3) (use_anchor : bool) :
  let linked := ik_chain_origin_heads_init chain initial_location in
  Forall (fun s => head s <> orig s) (segments linked) ->
  orig <$> segments (solve_ik_chain linked initial_location use_anchor)
  = orig <$> segments linked /\
  head <$> segments (solve_ik_chain linked initial_location use_anchor)
  = head <$> segments linked.
Proof.
  cbv zeta. intros Hnd.
  unfold ik_chain_origin_heads_init, set_segments in *. cbn [segments] in *.
  destruct (ik_loop_at_rest (segments chain) initial_location Hnd) as [Ho Hh].
  destruct use_anchor.
  - rewrite solve_ik_chain_segments_anchored. cbn [segments].
    rewrite (anchor_diff_at_rest
               (origin_heads_loop initial_location (segments chain))).
    + rewrite fmap_translate_zero_orig, fmap_translate_zero_head. split; assumption.
    + apply origin_heads_loop_reference.
    + apply ik_loop_same_reference.
    + exact Ho.
  - rewrite solve_ik_chain_segments_free. cbn [segments]. split; assumption.
Qed.

Lemma chain_two_z_linked_nondegenerate :
  Forall (fun s => head s <> orig s)
         (segments (ik_chain_origin_heads_init chain_two_z (mk_float3 0 0 2))).
Proof.
  repeat constructor; apply float3_neq_z; simpl; lra.
Qed.

Lemma solve_ik_chain_at_rest_witness :
  let linked := ik_chain_origin_heads_init chain_two_z (mk_float3 0 0 2) in
  Forall (fun s => head s <> orig s) (segments linked) /\
  orig <$> segments (solve_ik_chain (L := ref_rotation_lib) linked (mk_float3 0 0 2) true)
  = orig <$> segments linked /\
  head <$> segments (solve_ik_chain (L := ref_rotation_lib) linked (mk_float3 0 0 2) true)
  = head <$> segments linked.
Proof.
  split; [exact chain_two_z_linked_nondegenerate |].
  apply (@solve_ik_chain_at_rest ref_rotation_lib chain_two_z (mk_float3 0 0 2) true
           chain_two_z_linked_nondegenerate).
Defined.

(** ** The grower: rings *)

(** X8.  The field a ring produces does not depend on how the vertices
    are distributed over the leaf nodes, nor on the order of the nodes or
    of the vertices inside a node: two distributions that cover the same
    vertices give the same field. *)
Theorem ring_factor_node_partition (ob : SculptMesh) (nodes1 nodes2 : list (list nat))
    (pose_target : float3) (field : list R) :
  (forall v, (exists node, node ∈ nodes1 /\ v ∈ node) <->
             (exists node, node ∈ nodes2 /\ v ∈ node)) ->
  ring_factor (with_leaf_nodes ob nodes1) pose_target field
  = ring_factor (with_leaf_nodes ob nodes2) pose_target field.
Proof.
  intros Hcover.
  apply list_eq_same_length with (n := length field);
    [apply ring_factor_length | apply ring_factor_length |].
  intros i x y Hi Hx Hy.
  apply list_lookup_total_correct in Hx, Hy. subst x y.
  rewrite !ring_factor_lookup by exact Hi.
  change (neighbors_of (with_leaf_nodes ob nodes1) i) with (neighbors_of ob i).
  change (neighbors_of (with_leaf_nodes ob nodes2) i) with (neighbors_of ob i).
  assert (Hiff : i ∈ ring_verts (with_leaf_nodes ob nodes1) <->
                 i ∈ ring_verts (with_leaf_nodes ob nodes2)).
  { rewrite !ring_verts_visible. unfold visible_vert. simpl.
    rewrite (Hcover i). reflexivity. }
  destruct (decide (i ∈ ring_verts (with_leaf_nodes ob nodes1))) as [H1 | H1],
           (decide (i ∈ ring_verts (with_leaf_nodes ob nodes2))) as [H2 | H2];
    try reflexivity.
  - exfalso. apply H2, Hiff, H1.
  - exfalso. apply H1, Hiff, H2.
Qed.

Lemma ring_factor_node_partition_witness :
  (forall v, (exists node, node ∈ [[0; 1; 2]; [3; 4]]%nat /\ v ∈ node) <->
             (exists node, node ∈ [[4; 3]; [2]; [1; 0]]%nat /\ v ∈ node)) /\
  ring_factor (with_leaf_nodes line5 [[0; 1; 2]; [3; 4]]%nat) f3_zero [1; 0; 0; 0; 0]
  = ring_factor (with_leaf_nodes line5 [[4; 3]; [2]; [1; 0]]%nat) f3_zero [1; 0; 0; 0; 0].
Proof.
  assert (Hcover : forall v,
             (exists node, node ∈ [[0; 1; 2]; [3; 4]]%nat /\ v ∈ node) <->
             (exists node, node ∈ [[4; 3]; [2]; [1; 0]]%nat /\ v ∈ node)).
  { intros v. split.
    - intros (node & Hnode & Hv).
      repeat (apply elem_of_cons in Hnode as [-> | Hnode]); [| | inversion Hnode];
        repeat (apply elem_of_cons in Hv as [-> | Hv]); try (inversion Hv; fail);
        first [ solve [exists [4; 3]%nat; split; repeat constructor]
              | solve [exists [2]%nat; split; repeat constructor]
              | solve [exists [1; 0]%nat; split; repeat constructor] ].
    - intros (node & Hnode & Hv).
      repeat (apply elem_of_cons in Hnode as [-> | Hnode]); [| | | inversion Hnode];
        repeat (apply elem_of_cons in Hv as [-> | Hv]); try (inversion Hv; fail);
        first [ solve [exists [0; 1; 2]%nat; split; repeat constructor]
              | solve [exists [3; 4]%nat; split; repeat constructor] ]. }
  split; [exact Hcover |].
  apply (ring_factor_node_partition line5 _ _ f3_zero [1; 0; 0; 0; 0] Hcover).
Defined.

Lemma grow_vert_count_step (ob : SculptMesh) (t : float3) (prev : list R)
    (st : list R * PoseGrowFactorData) (v : nat) :
  (pos_count (snd st) <= pos_count (snd (grow_vert ob t prev st v))
   <= pos_count (snd st) + 1)%Z.
Proof.
  destruct st as [pf g]. unfold grow_vert.
  destruct (Rlt_dec _ _); [| simpl; lia].
  destruct (check_vertex_pivot_symmetry _ _ _); simpl; lia.
Qed.

Lemma fold_grow_vert_count (ob : SculptMesh) (t : float3) (prev : list R)
    (vs : list nat) (st : list R * PoseGrowFactorData) :
  (pos_count (snd st)
   <= pos_count (snd (fold_left (grow_vert ob t prev) vs st))
   <= pos_count (snd st) + Z.of_nat (length vs))%Z.
Proof.
  revert st. induction vs as [| v vs IH]; intros st; cbn [fold_left length]; [lia |].
  specialize (IH (grow_vert ob t prev st v)).
  pose proof (grow_vert_count_step ob t prev st v). lia.
Qed.

Lemma grow_factors_mesh_count (ob : SculptMesh) (t : float3) (prev : list R)
    (node : list nat) (pf : list R) (g : PoseGrowFactorData) :
  (pos_count g <= pos_count (snd (grow_factors_mesh ob t prev node pf g))
   <= pos_count g + Z.of_nat (length (node_visible_verts ob node)))%Z.
Proof.
  unfold grow_factors_mesh.
  apply (fold_grow_vert_count ob t prev (node_visible_verts ob node) (pf, g)).
Qed.

Lemma grow_ring_count (ob : SculptMesh) (t : float3) (prev pf : list R) :
  (0 <= pos_count (snd (grow_ring ob t prev pf)) <= Z.of_nat (length (ring_verts ob)))%Z.
Proof.
  unfold grow_ring, ring_verts.
  assert (Hgen : forall nodes (st : list R * PoseGrowFactorData),
             (pos_count (snd st)
              <= pos_count
                   (snd (fold_left
                           (fun (st : list R * PoseGrowFactorData) node =>
                              let '(pf, g) :=
                                grow_factors_mesh ob t prev node (fst st) gftd_init in
                              (pf, gftd_join (snd st) g))
                           nodes st))
              <= pos_count (snd st)
                 + Z.of_nat (length (concat (node_visible_verts ob <$> nodes))))%Z).
  { induction nodes as [| node nodes IH]; intros st;
      cbn [fold_left fmap list_fmap concat length]; [lia |].
    pose proof (grow_factors_mesh_count ob t prev node (fst st) gftd_init) as Hnode.
    destruct (grow_factors_mesh ob t prev node (fst st) gftd_init) as [pf' g'].
    specialize (IH (pf', gftd_join (snd st) g')).
    rewrite length_app. simpl in *. lia. }
  specialize (Hgen (leaf_nodes ob) (pf, gftd_init)). simpl in Hgen. lia.
Qed.

(** X9.  One ring keeps a field of values in [[0,1]] a field of values in
    [[0,1]] of the same length, never lowers a value, and counts at most
    as many grown vertices as it visits. *)
Theorem grow_ring_invariants (ob : SculptMesh) (pose_target : float3)
    (n : nat) (field : list R) :
  unit_field n field ->
  unit_field n (ring_factor ob pose_target field) /\
  Forall2 Rle field (ring_factor ob pose_target field) /\
  (0 <= pos_count (ring_data ob pose_target field)
   <= Z.of_nat (length (ring_verts ob)))%Z.
Proof.
  intros Hunit. split; [| split].
  - apply (unit_field_within n field); [exact Hunit |].
    apply ring_factor_within.
    + apply elem_of_cons. left. reflexivity.
    + split; [apply Hunit | apply lookup_total_in_candidates].
  - apply ring_factor_ge.
  - apply grow_ring_count.
Qed.

Lemma line5_seed_unit : unit_field 5 [1; 0; 0; 0; 0].
Proof.
  split; [reflexivity |].
  intros i. do 5 (destruct i as [| i]; [simpl; lra |]).
  rewrite lookup_total_out_of_range by (simpl; lia). lra.
Qed.

Lemma grow_ring_invariants_witness :
  unit_field 5 [1; 0; 0; 0; 0] /\
  unit_field 5 (ring_factor line5 f3_zero [1; 0; 0; 0; 0]) /\
  Forall2 Rle [1; 0; 0; 0; 0] (ring_factor line5 f3_zero [1; 0; 0; 0; 0]) /\
  (0 <= pos_count (ring_data line5 f3_zero [1; 0; 0; 0; 0]%R)
   <= Z.of_nat (length (ring_verts line5)))%Z.
Proof.
  split; [exact line5_seed_unit |].
  apply (grow_ring_invariants line5 f3_zero 5 [1; 0; 0; 0; 0] line5_seed_unit).
Defined.

(** More fuel does not change what the loop returns. *)
Lemma grow_loop_fuel_mono (ob : SculptMesh) (pose_origin : option float3)
    (t : float3) (max_len : R) (res : GrowResult) :
  forall (fuel fuel' : nat) (prev_len : option R) (r : option float3) (field : list R),
    (fuel <= fuel')%nat ->
    grow_pose_factor_loop fuel ob pose_origin t max_len prev_len r field = Some res ->
    grow_pose_factor_loop fuel' ob pose_origin t max_len prev_len r field = Some res.
Proof.
  induction fuel as [| fuel IH]; intros fuel' prev_len r field Hle Hres;
    [discriminate |].
  destruct fuel' as [| fuel']; [lia |].
  cbn [grow_pose_factor_loop] in *.
  destruct (grow_ring ob t field field) as [pf g].
  destruct (decide (pos_count g <> 0%Z)); [| exact Hres].
  destruct pose_origin as [origin |].
  - destruct (len_below _ prev_len); [| exact Hres].
    apply (IH fuel'); [lia | exact Hres].
  - destruct (Rlt_dec _ max_len); [| exact Hres].
    apply (IH fuel'); [lia | exact Hres].
Qed.

(** X10.  [grow_pose_factor] terminates, in either mode, on every mesh
    whose leaf nodes name vertices of the field: [n (n+1) + 1] rings are
    enough for [n] vertices and more fuel gives the same result.  The
    field returned has the length of the one passed in, lies pointwise
    above it, takes its values among the initial ones and 0, and the
    origin is reported exactly when an output buffer was supplied. *)
Theorem grow_pose_factor_total (ob : SculptMesh) (pose_origin : option float3)
    (pose_target : float3) (max_len : R) (r_pose_origin : option float3)
    (field : list R) (fuel : nat) :
  nodes_in_range ob (length field) ->
  (grow_fuel (length field) <= fuel)%nat ->
  exists res : GrowResult,
    grow_pose_factor fuel ob pose_origin pose_target max_len r_pose_origin field
    = Some res /\
    grow_pose_factor (grow_fuel (length field)) ob pose_origin pose_target max_len
      r_pose_origin field = Some res /\
    length (grown_factor res) = length field /\
    Forall2 Rle field (grown_factor res) /\
    (forall i, grown_factor res !!! i ∈ 0 :: field) /\
    (is_Some r_pose_origin <-> is_Some (grown_origin res)).
Proof.
  intros Hrange Hfuel.
  destruct (grow_pose_factor_terminates ob pose_origin pose_target max_len
              r_pose_origin field (grow_fuel (length field)) Hrange (Nat.le_refl _))
    as (res & Hres & _).
  exists res.
  destruct (grow_loop_partial ob pose_origin pose_target max_len (0 :: field)
              (length field) ltac:(apply elem_of_cons; left; reflexivity)
              (grow_fuel (length field)) field None r_pose_origin res)
    as ([Hlen Hin] & Hle & Hsome).
  { split; [reflexivity | apply lookup_total_in_candidates]. }
  { exact Hres. }
  split.
  { unfold grow_pose_factor in *.
    eapply grow_loop_fuel_mono; [exact Hfuel | exact Hres]. }
  repeat split; try assumption; apply Hsome.
Qed.

Lemma grow_pose_factor_total_witness :
  nodes_in_range line5 (length [1; 0; 0; 0; 0]) /\
  (grow_fuel (length [1; 0; 0; 0; 0]) <= 40)%nat /\
  exists res : GrowResult,
    grow_pose_factor 40 line5 None f3_zero 2 (Some f3_zero) [1; 0; 0; 0; 0] = Some res /\
    grow_pose_factor (grow_fuel (length [1; 0; 0; 0; 0])) line5 None f3_zero 2
      (Some f3_zero) [1; 0; 0; 0; 0] = Some res /\
    length (grown_factor res) = length [1; 0; 0; 0; 0] /\
    Forall2 Rle [1; 0; 0; 0; 0] (grown_factor res) /\
    (forall i, grown_factor res !!! i ∈ 0 :: [1; 0; 0; 0; 0]) /\
    (is_Some (Some f3_zero) <-> is_Some (grown_origin res)).
Proof.
  assert (Hfuel : (grow_fuel (length [1; 0; 0; 0; 0]) <= 40)%nat)
    by (unfold grow_fuel; simpl; lia).
  split; [exact line5_nodes_in_range |]. split; [exact Hfuel |].
  apply (grow_pose_factor_total line5 None f3_zero 2 (Some f3_zero) [1; 0; 0; 0; 0] 40
           line5_nodes_in_range Hfuel).
Defined.

Lemma saturated_no_growth (ob : SculptMesh) (field : list R) (v : nat) :
  saturated ob field -> (forall u, visible_vert ob u -> 0 <= field !!! u) ->
  v ∈ ring_verts ob ->
  ~ field !!! v < neighbor_max field (neighbors_of ob v).
Proof.
  intros Hsat Hpos Hv Hlt. apply ring_verts_visible in Hv.
  destruct (neighbor_max_attained field (neighbors_of ob v)) as [H0 | (n & Hn & Heq)].
  - specialize (Hpos v Hv). lra.
  - specialize (Hsat v n Hv Hn). lra.
Qed.

(** X11.  A saturated field is a fixed point of the grower: when no
    visible vertex has a neighbour with a larger value (values at visible
    vertices non-negative), the first ring grows nothing, and
    [grow_pose_factor] returns at once, in either mode, with the field
    unchanged and the target as the origin reported. *)
Theorem grow_pose_factor_saturated (ob : SculptMesh) (field : list R)
    (fuel : nat) (pose_origin : option float3) (pose_target : float3)
    (max_len : R) (r_pose_origin : option float3) :
  saturated ob field ->
  (forall v, visible_vert ob v -> 0 <= field !!! v) ->
  pos_count (ring_data ob pose_target field) = 0%Z /\
  grow_pose_factor (S fuel) ob pose_origin pose_target max_len r_pose_origin field
  = Some (mk_grow_result field
            (match r_pose_origin with
             | Some _ => Some pose_target
             | None => None
             end)).
Proof.
  intros Hsat Hpos.
  assert (Hcount : pos_count (ring_data ob pose_target field) = 0%Z).
  { apply grow_ring_idle_count. intros v Hv.
    apply saturated_no_growth; assumption. }
  assert (Hfield : ring_factor ob pose_target field = field).
  { apply list_eq_same_length with (n := length field);
      [reflexivity | apply ring_factor_length |].
    intros i x y Hi Hx Hy.
    apply list_lookup_total_correct in Hx, Hy. subst x y.
    rewrite ring_factor_lookup by exact Hi.
    destruct (decide (i ∈ ring_verts ob)) as [Hin | _]; [| reflexivity].
    destruct (Rlt_dec _ _) as [Hlt | _]; [| reflexivity].
    exfalso. exact (saturated_no_growth ob field i Hsat Hpos Hin Hlt). }
  split; [exact Hcount |].
  unfold grow_pose_factor. rewrite grow_loop_degenerate by exact Hcount.
  rewrite Hfield. reflexivity.
Qed.

Lemma line5_full_saturated :
  saturated line5 [1; 1; 1; 1; 1] /\
  (forall v, visible_vert line5 v -> 0 <= [1; 1; 1; 1; 1] !!! v).
Proof.
  assert (Hle : forall n : nat, 0 <= [1; 1; 1; 1; 1] !!! n <= 1).
  { intros n. do 5 (destruct n as [| n]; [simpl; lra |]).
    rewrite lookup_total_out_of_range by (simpl; lia). lra. }
  split.
  - intros v n Hv _. apply ring_verts_visible in Hv.
    change (ring_verts line5) with [0; 1; 2; 3; 4]%nat in Hv.
    repeat (apply elem_of_cons in Hv as [-> | Hv]; [apply (Hle n) |]).
    inversion Hv.
  - intros v _. apply Hle.
Qed.

Lemma grow_pose_factor_saturated_witness :
  saturated line5 [1; 1; 1; 1; 1] /\
  (forall v, visible_vert line5 v -> 0 <= [1; 1; 1; 1; 1] !!! v) /\
  pos_count (ring_data line5 (mk_float3 4 0 0) [1; 1; 1; 1; 1]) = 0%Z /\
  grow_pose_factor 1 line5 None (mk_float3 4 0 0) 2 (Some f3_zero) [1; 1; 1; 1; 1]
  = Some (mk_grow_result [1; 1; 1; 1; 1] (Some (mk_float3 4 0 0))).
Proof.
  destruct line5_full_saturated as [Hsat Hpos].
  split; [exact Hsat |]. split; [exact Hpos |].
  apply (grow_pose_factor_saturated line5 [1; 1; 1; 1; 1] 0 None (mk_float3 4 0 0) 2
           (Some f3_zero) Hsat Hpos).
Defined.

(** ** The builder: flood fill and origin *)

(** X12.  A vertex inside the brush radius is inside every larger
    radius, and the radius it is inside is positive: no vertex is inside
    a radius that is zero or negative. *)
Theorem vert_inside_brush_radius_monotone (ob : SculptMesh) (vertex br_co : float3)
    (radius radius' : R) :
  vert_inside_brush_radius ob vertex br_co radius = true ->
  radius <= radius' ->
  0 < radius /\ vert_inside_brush_radius ob vertex br_co radius' = true.
Proof.
  unfold vert_inside_brush_radius. rewrite !existsb_exists.
  intros (i & Hi & Hb) Hle.
  apply andb_true_iff in Hb as [Hv Hd]. apply bool_decide_eq_true in Hd.
  split.
  - pose proof (f3_length_nonneg (symmetry_flip ob br_co i -v vertex)).
    unfold distance in Hd. lra.
  - exists i. split; [exact Hi |]. apply andb_true_iff. split; [exact Hv |].
    apply bool_decide_eq_true. lra.
Qed.

Lemma vert_inside_brush_radius_monotone_witness :
  vert_inside_brush_radius line5 (mk_float3 1 0 0) f3_zero (3 / 2) = true /\
  3 / 2 <= 2 /\
  0 < 3 / 2 /\
  vert_inside_brush_radius line5 (mk_float3 1 0 0) f3_zero 2 = true.
Proof.
  assert (Hin : vert_inside_brush_radius line5 (mk_float3 1 0 0) f3_zero (3 / 2) = true).
  { rewrite line5_inside_radius. unfold f3_zero.
    rewrite distance_x_axis, Rabs_minus_nat by lra.
    apply bool_decide_eq_true_2. lra. }
  assert (Hle : 3 / 2 <= 2) by lra.
  split; [exact Hin |]. split; [exact Hle |].
  apply (vert_inside_brush_radius_monotone line5 (mk_float3 1 0 0) f3_zero (3 / 2) 2
           Hin Hle).
Defined.

Lemma topology_floodfill_counted (ob : SculptMesh) (c : float3) (radius : R)
    (visit : nat * bool) (st : FloodState) :
  let st' := fst (topology_floodfill ob c radius (fst visit) (snd visit) st) in
  (fl_tot_co st' = fl_tot_co st + (if flood_counted ob c radius visit then 1 else 0))%Z /\
  fl_pose_origin st'
  = fl_pose_origin st
    +v (if flood_counted ob c radius visit
        then vert_positions ob !!! fst visit else f3_zero).
Proof.
  unfold topology_floodfill, flood_counted. cbv zeta.
  destruct (vert_inside_brush_radius _ _ _ _); simpl.
  - split; [lia | f3_ring].
  - destruct (check_vertex_pivot_symmetry _ _ _); simpl.
    + destruct (snd visit); simpl; split; try lia; try reflexivity; f3_ring.
    + split; [lia | f3_ring].
Qed.

Lemma sum_f3_cons (x : float3) (l : list float3) : sum_f3 (x :: l) = x +v sum_f3 l.
Proof. reflexivity. Qed.

Lemma flood_fold_counted (ob : SculptMesh) (c : float3) (radius : R)
    (visits : list (nat * bool)) (st : FloodState) :
  let counted := filter (fun v => flood_counted ob c radius v = true) visits in
  fl_tot_co (flood_fold ob c radius visits st)
  = (fl_tot_co st + Z.of_nat (length counted))%Z /\
  fl_pose_origin (flood_fold ob c radius visits st)
  = fl_pose_origin st +v sum_f3 ((fun v => vert_positions ob !!! fst v) <$> counted).
Proof.
  revert st. induction visits as [| visit visits IH]; intros st.
  - simpl. split; [lia | f3_ring].
  - unfold flood_fold in *. cbn [fold_left].
    destruct (IH (fst (topology_floodfill ob c radius (fst visit) (snd visit) st)))
      as [IHn IHo].
    destruct (topology_floodfill_counted ob c radius visit st) as [Hn Ho].
    cbv zeta in *. rewrite IHn, IHo, Hn, Ho. rewrite filter_cons.
    destruct (decide (flood_counted ob c radius visit = true)) as [E | E].
    + rewrite E, fmap_cons, sum_f3_cons. cbn [length].
      split; [lia | f3_ring].
    + apply not_true_is_false in E. rewrite E. split; [lia | f3_ring].
Qed.

Lemma topology_floodfill_factor (ob : SculptMesh) (c : float3) (radius : R)
    (to_v : nat) (dup : bool) (st : FloodState) :
  fl_pose_factor (fst (topology_floodfill ob c radius to_v dup st))
  = <[to_v := 1]> (fl_pose_factor st).
Proof.
  unfold topology_floodfill.
  assert (E : (if decide (fl_pose_factor st = [])
               then fl_pose_factor st
               else <[to_v := 1]> (fl_pose_factor st))
              = <[to_v := 1]> (fl_pose_factor st)).
  { destruct (decide (fl_pose_factor st = [])) as [-> | _]; reflexivity. }
  destruct (vert_inside_brush_radius _ _ _ _); [exact E |].
  destruct (check_vertex_pivot_symmetry _ _ _ && negb dup); exact E.
Qed.

Lemma flood_fold_factor (ob : SculptMesh) (c : float3) (radius : R)
    (visits : list (nat * bool)) (st : FloodState) (v : nat) :
  length (fl_pose_factor (flood_fold ob c radius visits st)) = length (fl_pose_factor st) /\
  fl_pose_factor (flood_fold ob c radius visits st) !!! v
  = if decide (v ∈ (fst <$> visits) /\ (v < length (fl_pose_factor st))%nat)
    then 1 else fl_pose_factor st !!! v.
Proof.
  revert st. induction visits as [| visit visits IH]; intros st.
  - split; [reflexivity |].
    case_decide as H; [destruct H as [H _]; inversion H | reflexivity].
  - unfold flood_fold in *. cbn [fold_left].
    destruct (IH (fst (topology_floodfill ob c radius (fst visit) (snd visit) st)))
      as [IHlen IHv].
    rewrite IHlen, IHv, topology_floodfill_factor, length_insert.
    split; [reflexivity |]. rewrite fmap_cons.
    destruct (decide (v ∈ (fst <$> visits) /\ (v < length (fl_pose_factor st))%nat))
      as [[Hin Hlt] | Hn].
    + destruct (decide (v ∈ fst visit :: (fst <$> visits)
                        /\ (v < length (fl_pose_factor st))%nat)) as [_ | Hn'];
        [reflexivity |].
      exfalso. apply Hn'. split; [apply elem_of_cons; right; exact Hin | exact Hlt].
    + rewrite list_lookup_total_insert.
      destruct (decide (fst visit = v /\ (fst visit < length (fl_pose_factor st))%nat))
        as [[<- Hlt] | Hn2].
      * destruct (decide (fst visit ∈ fst visit :: (fst <$> visits)
                          /\ (fst visit < length (fl_pose_factor st))%nat))
          as [_ | Hn']; [reflexivity |].
        exfalso. apply Hn'. split; [apply elem_of_cons; left; reflexivity | exact Hlt].
      * destruct (decide (v ∈ fst visit :: (fst <$> visits)
                          /\ (v < length (fl_pose_factor st))%nat))
          as [[Hin Hlt] | _]; [| reflexivity].
        exfalso. apply elem_of_cons in Hin as [-> | Hin].
        -- apply Hn2. split; [reflexivity | exact Hlt].
        -- apply Hn. split; assumption.
Qed.

Lemma flood_fold_fallback (ob : SculptMesh) (c : float3) (radius : R)
    (visits : list (nat * bool)) (st : FloodState) :
  let visited := (fun v => vert_positions ob !!! fst v) <$> visits in
  let fb := fl_fallback_floodfill_origin (flood_fold ob c radius visits st) in
  fb ∈ fl_fallback_floodfill_origin st :: visited /\
  forall p, p ∈ fl_fallback_floodfill_origin st :: visited ->
            length_squared (c -v p) <= length_squared (c -v fb).
Proof.
  revert st. induction visits as [| visit visits IH]; intros st; cbv zeta.
  - simpl. split; [apply elem_of_cons; left; reflexivity |].
    intros p Hp. apply elem_of_cons in Hp as [-> | Hp]; [lra | inversion Hp].
  - unfold flood_fold in *. cbn [fold_left]. rewrite fmap_cons.
    set (st1 := fst (topology_floodfill ob c radius (fst visit) (snd visit) st)).
    destruct (IH st1) as [IHin IHmax]. cbv zeta in IHin, IHmax.
    set (co := vert_positions ob !!! fst visit) in *.
    assert (Hfb1 : fl_fallback_floodfill_origin st1
                   = if Rlt_dec (length_squared (c -v fl_fallback_floodfill_origin st))
                                (length_squared (c -v co))
                     then co else fl_fallback_floodfill_origin st).
    { unfold st1, topology_floodfill. fold co.
      destruct (vert_inside_brush_radius _ _ _ _); [reflexivity |].
      destruct (check_vertex_pivot_symmetry _ _ _ && negb (snd visit)); reflexivity. }
    split.
    + apply elem_of_cons in IHin as [E | Hin].
      * rewrite E, Hfb1. destruct (Rlt_dec _ _).
        -- apply elem_of_cons. right. apply elem_of_cons. left. reflexivity.
        -- apply elem_of_cons. left. reflexivity.
      * apply elem_of_cons. right. apply elem_of_cons. right. exact Hin.
    + intros p Hp.
      assert (H1 : length_squared (c -v fl_fallback_floodfill_origin st1)
                   <= length_squared
                        (c -v fl_fallback_floodfill_origin
                                (fold_left
                                   (fun st0 (visit0 : nat * bool) =>
                                      fst (topology_floodfill ob c radius
                                             (fst visit0) (snd visit0) st0))
                                   visits st1))).
      { apply IHmax, elem_of_cons. left. reflexivity. }
      apply elem_of_cons in Hp as [-> | Hp]; [| apply elem_of_cons in Hp as [-> | Hp]].
      * rewrite Hfb1 in H1. destruct (Rlt_dec _ _); lra.
      * rewrite Hfb1 in H1. destruct (Rlt_dec _ _); lra.
      * apply IHmax, elem_of_cons. right. exact Hp.
Qed.

(** X13.  [calc_pose_data] without origin offset returns for any fuel.
    The factor it returns has the length of the one passed in and is 1 at
    every visited vertex of the array, unchanged elsewhere.  When some
    visit counts (outside the radius, on the canonical symmetry side, not
    a duplicate) the origin is the centroid of the counted vertices;
    otherwise it is the fallback, a point among the initial location and
    the visited positions that is at least as far from the initial
    location as each of them. *)
Theorem calc_pose_data_without_offset (fuel : nat) (ob : SculptMesh)
    (visits : list (nat * bool)) (initial_location : float3) (radius : R)
    (r_pose_factor : list R) :
  let counted :=
    filter (fun v => flood_counted ob initial_location radius v = true) visits in
  let visited := (fun v => vert_positions ob !!! fst v) <$> visits in
  exists (origin : float3) (factor : list R),
    calc_pose_data fuel ob visits initial_location radius 0 r_pose_factor
    = Some (origin, factor) /\
    length factor = length r_pose_factor /\
    (forall v, factor !!! v
               = if decide (v ∈ (fst <$> visits) /\ (v < length r_pose_factor)%nat)
                 then 1 else r_pose_factor !!! v) /\
    (counted <> [] ->
     origin = f3_div (sum_f3 ((fun v => vert_positions ob !!! fst v) <$> counted))
                     (IZR (Z.of_nat (length counted)))) /\
    (counted = [] ->
     origin ∈ initial_location :: visited /\
     forall p, p ∈ initial_location :: visited ->
               distance initial_location p <= distance initial_location origin).
Proof.
  cbv zeta. unfold calc_pose_data.
  fold (flood_fold ob initial_location radius visits
          (mk_flood_state r_pose_factor initial_location f3_zero 0%Z)).
  set (st0 := mk_flood_state r_pose_factor initial_location f3_zero 0%Z).
  set (st := flood_fold ob initial_location radius visits st0).
  destruct (flood_fold_counted ob initial_location radius visits st0) as [Hn Ho].
  destruct (flood_fold_fallback ob initial_location radius visits st0) as [Hfin Hfmax].
  cbv zeta in Hn, Ho, Hfin, Hfmax. fold st in Hn, Ho, Hfin, Hfmax.
  change (fl_tot_co st0) with 0%Z in Hn.
  change (fl_pose_origin st0) with f3_zero in Ho.
  change (fl_fallback_floodfill_origin st0) with initial_location in Hfin, Hfmax.
  destruct (decide (0 <> 0 /\ fl_pose_factor st <> [])) as [[H _] | _]; [lra |].
  eexists. eexists. split; [reflexivity |].
  split; [apply (flood_fold_factor ob initial_location radius visits st0 0%nat) |].
  split; [intros v; apply (flood_fold_factor ob initial_location radius visits st0 v) |].
  set (counted := filter (fun v => flood_counted ob initial_location radius v = true)
                         visits) in *.
  split.
  - intros Hne.
    destruct (decide (0 < fl_tot_co st)%Z) as [_ | Hn0].
    + match goal with
      | |- ?x +v ?d *v radius *v 0 = _ =>
          replace (x +v d *v radius *v 0) with x by f3_ring
      end.
      rewrite Hn, Ho, Z.add_0_l. f_equal. f3_ring.
    + exfalso. rewrite Hn in Hn0. destruct counted; [contradiction | simpl in Hn0; lia].
  - intros Hnil.
    destruct (decide (0 < fl_tot_co st)%Z) as [Hpos | _].
    + exfalso. rewrite Hn, Hnil in Hpos. simpl in Hpos. lia.
    + match goal with
      | |- ?x +v ?d *v radius *v 0 ∈ _ /\ _ =>
          replace (x +v d *v radius *v 0) with x by f3_ring
      end.
      split; [exact Hfin |].
      intros p Hp. unfold distance, f3_length.
      apply sqrt_le_1_alt, Hfmax, Hp.
Qed.

(** ** The builder: shape of the topology chain *)

Lemma grow_segments_weights_length (fuel : nat) (ob : SculptMesh) (seg_len : R) (n : nat) :
  forall (segs : list IKChainSegment) (target : float3) (grow : list R)
         (segs' : list IKChainSegment) (final : list R),
    unit_field n grow ->
    grow_segments fuel ob seg_len target grow grow segs = Some (segs', final) ->
    Forall (fun s => length (weights s) = n) segs'.
Proof.
  induction segs as [| s rest IH]; intros target grow segs' final Hunit Hres.
  - simpl in Hres. injection Hres as <- <-. constructor.
  - cbn [grow_segments] in Hres.
    destruct (grow_pose_factor fuel ob None target seg_len (Some (orig s)) grow)
      as [res |] eqn:Hgrow; [| discriminate].
    destruct (grow_segments fuel ob seg_len _ (grown_factor res) (grown_factor res) rest)
      as [[tl final'] |] eqn:Hrest; [| discriminate].
    injection Hres as <- <-.
    destruct (grow_pose_factor_partial _ _ _ _ _ _ n _ _ Hunit Hgrow) as (Hunit' & _).
    constructor; [| eapply IH; eassumption].
    cbn [set_orig_weights weights]. rewrite length_zip_with.
    destruct Hunit as [-> _], Hunit' as [-> _]. lia.
Qed.

(** The chain of the topology builder before it is linked. *)
Lemma topology_fields_shape (fuel : nat) (ob : SculptMesh) (brush : Brush)
    (visits : list (nat * bool)) (nearest : nat) (c : float3) (radius : R)
    (chain : IKChain) (final : list R) :
  pose_ik_chain_init_topology_fields fuel ob brush visits nearest c radius
  = Some (chain, final) ->
  exists (orig0 : float3) (grow0 : list R) (seg0 : IKChainSegment)
         (segs : list IKChainSegment),
    calc_pose_data fuel ob visits c radius (pose_offset brush)
      (<[nearest := 1]> (replicate (vertex_count ob) 0)) = Some (orig0, grow0) /\
    grow_segments fuel ob (radius * (1 + pose_offset brush)) orig0 grow0 grow0
      (replicate (pred (Z.to_nat (brush_num_effective_segments brush)))
                 (new_segment (vertex_count ob))) = Some (segs, final) /\
    orig seg0 = orig0 /\ weights seg0 = grow0 /\
    chain = ik_chain_origin_heads_init (mk_chain (seg0 :: segs) f3_zero) c.
Proof.
  unfold pose_ik_chain_init_topology_fields, ik_chain_new. cbn [segments].
  destruct (Z.to_nat (brush_num_effective_segments brush)) as [| k]; [discriminate |].
  cbn [replicate pred].
  destruct (calc_pose_data _ _ _ _ _ _ _) as [[orig0 grow0] |] eqn:Hcalc;
    [| discriminate].
  destruct (grow_segments _ _ _ _ _ _ _) as [[segs final'] |] eqn:Hsegs;
    [| discriminate].
  intros H. injection H as <- <-.
  exists orig0, grow0,
    (set_orig_weights (new_segment (vertex_count ob)) orig0 grow0), segs.
  split; [reflexivity |]. split; [exact Hsegs |].
  split; [reflexivity |]. split; reflexivity.
Qed.

(** X14.  For a brush with at least one effective segment,
    [pose_ik_chain_init_topology] returns a chain once it has enough fuel
    (on a mesh whose nodes name vertices of the mesh).  The chain has
    exactly the effective number of segments and no grab offset; every
    segment is at its reference pose and has one weight per vertex of the
    mesh; and the heads are the initial location followed by the origins
    of the preceding segments. *)
Theorem pose_ik_chain_init_topology_total (fuel : nat) (ob : SculptMesh) (brush : Brush)
    (visits : list (nat * bool)) (nearest_vertex_index : nat)
    (initial_location : float3) (radius : R) :
  (1 <= brush_num_effective_segments brush)%Z ->
  nodes_in_range ob (vertex_count ob) ->
  (grow_fuel (vertex_count ob) <= fuel)%nat ->
  exists chain : IKChain,
    pose_ik_chain_init_topology fuel ob brush visits nearest_vertex_index
      initial_location radius = Some chain /\
    length (segments chain) = Z.to_nat (brush_num_effective_segments brush) /\
    grab_delta_offset chain = f3_zero /\
    Forall at_reference_pose (segments chain) /\
    Forall (fun s => length (weights s) = vertex_count ob) (segments chain) /\
    head <$> segments chain
    = take (length (segments chain)) (initial_location :: (orig <$> segments chain)).
Proof.
  intros Hseg Hrange Hfuel.
  destruct (topology_fields_total fuel ob brush visits nearest_vertex_index
              initial_location radius Hseg Hrange Hfuel) as (chain & final & Hfields).
  exists chain.
  split; [unfold pose_ik_chain_init_topology; rewrite Hfields; reflexivity |].
  destruct (topology_fields_partial _ _ _ _ _ _ _ _ _ Hfields) as (_ & Hlen & _).
  split; [exact Hlen |].
  destruct (topology_fields_shape _ _ _ _ _ _ _ _ _ Hfields)
    as (orig0 & grow0 & seg0 & segs & Hcalc & Hsegs & Ho & Hw & ->).
  pose proof (initial_pose_factor_unit (vertex_count ob) nearest_vertex_index) as Hinit.
  pose proof (calc_pose_data_partial _ _ _ _ _ _ _ _ _ _ Hinit Hcalc) as Hunit0.
  pose proof (grow_segments_weights_length _ _ _ _ _ _ _ _ _ Hunit0 Hsegs) as Hwl.
  unfold ik_chain_origin_heads_init, set_segments. cbn [segments grab_delta_offset].
  split; [reflexivity |].
  split; [apply origin_heads_loop_reference |].
  split.
  - assert (H : Forall (fun w : list R => length w = vertex_count ob)
                       (weights <$> origin_heads_loop initial_location (seg0 :: segs))).
    { rewrite origin_heads_loop_weights. apply Forall_fmap.
      constructor; [simpl; rewrite Hw; apply Hunit0 | exact Hwl]. }
    apply Forall_fmap in H. exact H.
  - rewrite origin_heads_loop_head, origin_heads_loop_orig, origin_heads_loop_length.
    reflexivity.
Qed.

Lemma pose_ik_chain_init_topology_total_witness :
  (1 <= brush_num_effective_segments brush_rotate3)%Z /\
  nodes_in_range line5 (vertex_count line5) /\
  (grow_fuel (vertex_count line5) <= grow_fuel 5)%nat /\
  exists chain : IKChain,
    pose_ik_chain_init_topology (grow_fuel 5) line5 brush_rotate3 line5_visits 0
      f3_zero (3 / 2) = Some chain /\
    length (segments chain) = Z.to_nat (brush_num_effective_segments brush_rotate3) /\
    grab_delta_offset chain = f3_zero /\
    Forall at_reference_pose (segments chain) /\
    Forall (fun s => length (weights s) = vertex_count line5) (segments chain) /\
    head <$> segments chain
    = take (length (segments chain)) (f3_zero :: (orig <$> segments chain)).
Proof.
  split; [exact brush_rotate3_segments |].
  split; [exact line5_nodes_in_range |].
  split; [apply Nat.le_refl |].
  apply (pose_ik_chain_init_topology_total (grow_fuel 5) line5 brush_rotate3
           line5_visits 0%nat f3_zero (3 / 2)
           brush_rotate3_segments line5_nodes_in_range (Nat.le_refl _)).
Defined.

Lemma unit_field_one_above (n : nat) (f g : list R) (v : nat) :
  unit_field n g -> Forall2 Rle f g -> f !!! v = 1 -> g !!! v = 1.
Proof.
  intros [_ Hg] Hle Hf.
  pose proof (Forall2_Rle_lookup_total f g v Hle). specialize (Hg v). lra.
Qed.

Lemma calc_pose_data_keeps_ones (fuel : nat) (ob : SculptMesh)
    (visits : list (nat * bool)) (c : float3) (radius offset : R)
    (n : nat) (field : list R) (o : float3) (field' : list R) (v : nat) :
  unit_field n field ->
  calc_pose_data fuel ob visits c radius offset field = Some (o, field') ->
  field !!! v = 1 \/ (v ∈ (fst <$> visits) /\ (v < length field)%nat) ->
  field' !!! v = 1.
Proof.
  intros Hunit Hcalc Hv. unfold calc_pose_data in Hcalc.
  fold (flood_fold ob c radius visits (mk_flood_state field c f3_zero 0%Z)) in Hcalc.
  set (st0 := mk_flood_state field c f3_zero 0%Z) in *.
  pose proof (flood_unit ob c radius visits st0 n Hunit) as Hflood.
  fold (flood_fold ob c radius visits st0) in Hflood.
  destruct (flood_fold_factor ob c radius visits st0 v) as [_ Hlook].
  change (fl_pose_factor st0) with field in Hlook.
  assert (Hone : fl_pose_factor (flood_fold ob c radius visits st0) !!! v = 1).
  { rewrite Hlook. case_decide as Hd; [reflexivity |].
    destruct Hv as [Hv | Hv]; [exact Hv | contradiction]. }
  destruct (decide (offset <> 0 /\ _)).
  - destruct (grow_pose_factor _ _ _ _ _ _ _) as [res |] eqn:Hres; [| discriminate].
    injection Hcalc as _ <-.
    destruct (grow_pose_factor_partial _ _ _ _ _ _ n _ _ Hflood Hres) as (Hu & Hle & _).
    eapply unit_field_one_above; eassumption.
  - injection Hcalc as _ <-. exact Hone.
Qed.

Lemma sum_R_zero_nonneg (l : list R) :
  Forall (fun x => 0 <= x) l -> sum_R l = 0 -> Forall (fun x => x = 0) l.
Proof.
  induction 1 as [| x l Hx Hl IH]; intros Hsum; constructor.
  - rewrite sum_R_cons in Hsum.
    assert (0 <= sum_R l).
    { clear -Hl. induction Hl as [| y l Hy _ IH]; [simpl; lra |].
      rewrite sum_R_cons. lra. }
    lra.
  - apply IH. rewrite sum_R_cons in Hsum.
    assert (0 <= sum_R l).
    { clear -Hl. induction Hl as [| y l Hy _ IH]; [simpl; lra |].
      rewrite sum_R_cons. lra. }
    lra.
Qed.

(** X15.  In a chain built by [pose_ik_chain_init_topology], the vertex
    nearest to the initial location and every vertex the flood fill
    visited belong to the first segment alone: their weight is 1 in
    segment 0 and 0 in every other segment. *)
Theorem topology_seed_vertices (fuel : nat) (ob : SculptMesh) (brush : Brush)
    (visits : list (nat * bool)) (nearest_vertex_index : nat)
    (initial_location : float3) (radius : R) (chain : IKChain) (v : nat) :
  pose_ik_chain_init_topology fuel ob brush visits nearest_vertex_index
    initial_location radius = Some chain ->
  v = nearest_vertex_index \/ v ∈ (fst <$> visits) ->
  (v < vertex_count ob)%nat ->
  exists (s0 : IKChainSegment) (rest : list IKChainSegment),
    segments chain = s0 :: rest /\
    weights s0 !!! v = 1 /\
    Forall (fun s => weights s !!! v = 0) rest.
Proof.
  intros Hbuilt Hv Hrange.
  destruct (topology_init_fields _ _ _ _ _ _ _ _ Hbuilt) as (final & Hfields).
  destruct (topology_fields_shape _ _ _ _ _ _ _ _ _ Hfields)
    as (orig0 & grow0 & seg0 & segs & Hcalc & Hsegs & Ho & Hw & ->).
  pose proof (initial_pose_factor_unit (vertex_count ob) nearest_vertex_index) as Hinit.
  pose proof (calc_pose_data_partial _ _ _ _ _ _ _ _ _ _ Hinit Hcalc) as Hunit0.
  assert (Hone : grow0 !!! v = 1).
  { apply (calc_pose_data_keeps_ones _ _ _ _ _ _ _ _ _ _ v Hinit Hcalc).
    rewrite length_insert, length_replicate.
    destruct Hv as [-> | Hv].
    - left. apply list_lookup_total_insert_eq. rewrite length_replicate. exact Hrange.
    - right. split; assumption. }
  destruct (grow_segments_partial _ _ _ _ _ _ _ _ _ Hunit0 Hsegs)
    as (Hfinal & Hle & _ & Hsum).
  destruct (Hsum v) as [Hs Hpos].
  pose proof (unit_field_one_above _ _ _ v Hfinal Hle Hone) as Hfinal1.
  rewrite Hfinal1, Hone in Hs.
  assert (Hzero : Forall (fun x => x = 0) ((fun s => weights s !!! v) <$> segs)).
  { apply sum_R_zero_nonneg; [| lra].
    apply Forall_fmap. exact Hpos. }
  unfold ik_chain_origin_heads_init, set_segments. cbn [segments origin_heads_loop].
  eexists. eexists. split; [reflexivity |].
  split; [cbn [weights]; rewrite Hw; exact Hone |].
  assert (Hweights : weights <$> origin_heads_loop (orig seg0) segs = weights <$> segs)
    by apply origin_heads_loop_weights.
  apply Forall_fmap in Hzero.
  apply Forall_lookup. intros i s Hs'.
  assert (Hi : (weights <$> origin_heads_loop (orig seg0) segs) !! i = Some (weights s)).
  { rewrite list_lookup_fmap, Hs'. reflexivity. }
  rewrite Hweights, list_lookup_fmap in Hi.
  destruct (segs !! i) as [s1 |] eqn:Es1; [| discriminate].
  simpl in Hi. injection Hi as Hi. rewrite <- Hi.
  rewrite Forall_lookup in Hzero. apply (Hzero i s1 Es1).
Qed.

Lemma topology_seed_vertices_witness :
  pose_ik_chain_init_topology (grow_fuel 5) line5 brush_rotate3 line5_visits 0
    f3_zero (3 / 2) = Some (line5_chain brush_rotate3) /\
  (2%nat = 0%nat \/ 2%nat ∈ (fst <$> line5_visits)) /\
  (2 < vertex_count line5)%nat /\
  exists (s0 : IKChainSegment) (rest : list IKChainSegment),
    segments (line5_chain brush_rotate3) = s0 :: rest /\
    weights s0 !!! 2%nat = 1 /\
    Forall (fun s => weights s !!! 2%nat = 0) rest.
Proof.
  assert (Hbuilt := line5_chain_built brush_rotate3 brush_rotate3_segments).
  assert (Hv : 2%nat = 0%nat \/ 2%nat ∈ (fst <$> line5_visits)).
  { right. simpl. repeat constructor. }
  assert (Hlt : (2 < vertex_count line5)%nat) by (unfold vertex_count, line5; simpl; lia).
  split; [exact Hbuilt |]. split; [exact Hv |]. split; [exact Hlt |].
  apply (topology_seed_vertices (grow_fuel 5) line5 brush_rotate3 line5_visits 0%nat
           f3_zero (3 / 2) (line5_chain brush_rotate3) 2%nat Hbuilt Hv Hlt).
Defined.

(** ** The deformation modes *)

Lemma cache_drag_z_nondegenerate :
  initial_head (rest_segment f3_zero (mk_float3 0 0 1) 1)
  <> initial_orig (rest_segment f3_zero (mk_float3 0 0 1) 1).
Proof. apply float3_neq_z. simpl. lra. Qed.

Lemma cache_drag_z_distance (pass : Z) (inverted : bool) :
  dot (location (cache_drag_z pass inverted) +v grab_delta (cache_drag_z pass inverted)
       -v initial_head (rest_segment f3_zero (mk_float3 0 0 1) 1))
      (normalize (initial_head (rest_segment f3_zero (mk_float3 0 0 1) 1)
                  -v initial_orig (rest_segment f3_zero (mk_float3 0 0 1) 1)))
  = 1 / 2.
Proof.
  simpl.
  replace (mk_float3 0 0 1 -v f3_zero) with (mk_float3 0 0 1) by f3_ring.
  rewrite normalize_axis_z by lra. unfold dot. simpl. field.
Qed.

Lemma scale_from_grab_delta_reference (c : StrokeCache) (ik_target : float3)
    (seg0 : IKChainSegment) (rest : list IKChainSegment) :
  segments (pose_ik_chain c) = seg0 :: rest ->
  initial_head seg0 <> initial_orig seg0 ->
  calc_scale_from_grab_delta c ik_target
  = Some (len seg0
          / (len seg0
             - dot (ik_target -v initial_head seg0)
                   (normalize (initial_head seg0 -v initial_orig seg0)))).
Proof.
  intros Hsegs Hne.
  assert (Hunit : f3_length (normalize (initial_head seg0 -v initial_orig seg0)) = 1).
  { apply normalize_length. intros E. apply Hne, f3_sub_eq_zero, E. }
  unfold calc_scale_from_grab_delta. rewrite Hsegs.
  rewrite (dist_signed_to_plane_unit ik_target (initial_head seg0) _ Hunit).
  reflexivity.
Qed.

(** X16.  Squash and stretch keeps the volume: for a first segment of
    positive length and a grab target at signed distance [d < len] past
    its initial head, [calc_squash_stretch_deform] stores positive scales
    whose product is 1.  Dragging past the head ([0 < d]) stretches along
    the segment and thins across it, dragging towards the origin
    ([d < 0]) does the opposite, and [d = 0] stores the scale (1, 1, 1). *)
Theorem squash_stretch_preserves_volume (c : StrokeCache) (seg0 : IKChainSegment)
    (rest : list IKChainSegment) (d : R) :
  segments (pose_ik_chain c) = seg0 :: rest ->
  initial_head seg0 <> initial_orig seg0 ->
  dot (location c +v grab_delta c -v initial_head seg0)
      (normalize (initial_head seg0 -v initial_orig seg0)) = d ->
  0 < len seg0 ->
  d < len seg0 ->
  exists c' : StrokeCache,
    calc_squash_stretch_deform c = Some c' /\
    forall s : IKChainSegment,
      s ∈ segments (pose_ik_chain c') ->
      0 < vx (scale s) /\ vy (scale s) = vx (scale s) /\ 0 < vz (scale s) /\
      vx (scale s) * vy (scale s) * vz (scale s) = 1 /\
      (d = 0 -> scale s = mk_float3 1 1 1) /\
      (0 < d -> 1 < vz (scale s) /\ vx (scale s) < 1) /\
      (d < 0 -> vz (scale s) < 1 /\ 1 < vx (scale s)).
Proof.
  intros Hsegs Hne Hd Hlen Hlt.
  unfold calc_squash_stretch_deform.
  rewrite (scale_from_grab_delta_reference c _ seg0 rest Hsegs Hne), Hd.
  eexists. split; [reflexivity |].
  cbn [pose_ik_chain set_pose_ik_chain].
  intros s Hs. apply solve_scale_chain_segments in Hs. rewrite Hs.
  cbn [vx vy vz].
  set (k := len seg0 / (len seg0 - d)).
  assert (Hk : 0 < k).
  { unfold k. apply Rdiv_lt_0_compat; lra. }
  assert (Hinv : 0 < 1 / k).
  { apply Rdiv_lt_0_compat; lra. }
  assert (Hsq : sqrt (1 / k) * sqrt (1 / k) = 1 / k) by (apply sqrt_sqrt; lra).
  assert (Hpos : 0 < sqrt (1 / k)) by (apply sqrt_lt_R0; exact Hinv).
  assert (Hkd : k * (len seg0 - d) = len seg0) by (unfold k; field; lra).
  split; [exact Hpos |]. split; [reflexivity |]. split; [exact Hk |].
  split; [rewrite Hsq; field; lra |].
  split; [| split].
  - intros ->.
    assert (Hk1 : k = 1) by (unfold k; field; lra).
    rewrite Hk1. replace (1 / 1) with 1 by field. rewrite sqrt_1. reflexivity.
  - intros Hd0.
    assert (Hk1 : 1 < k) by nra.
    split; [exact Hk1 |].
    assert (H1k : 1 / k < 1).
    { apply (Rmult_lt_reg_r k); [exact Hk |]. replace (1 / k * k) with 1 by (field; lra). lra. }
    assert (Hs1 : sqrt (1 / k) < sqrt 1) by (apply sqrt_lt_1; lra).
    rewrite sqrt_1 in Hs1. exact Hs1.
  - intros Hd0.
    assert (Hk1 : k < 1) by nra.
    split; [exact Hk1 |].
    assert (H1k : 1 < 1 / k).
    { apply (Rmult_lt_reg_r k); [exact Hk |]. replace (1 / k * k) with 1 by (field; lra). lra. }
    assert (Hs1 : sqrt 1 < sqrt (1 / k)) by (apply sqrt_lt_1; lra).
    rewrite sqrt_1 in Hs1. exact Hs1.
Qed.

Lemma squash_stretch_preserves_volume_witness :
  let c := cache_drag_z 0 false in
  let seg0 := rest_segment f3_zero (mk_float3 0 0 1) 1 in
  segments (pose_ik_chain c) = [seg0] /\
  initial_head seg0 <> initial_orig seg0 /\
  dot (location c +v grab_delta c -v initial_head seg0)
      (normalize (initial_head seg0 -v initial_orig seg0)) = 1 / 2 /\
  0 < len seg0 /\
  1 / 2 < len seg0 /\
  exists c' : StrokeCache,
    calc_squash_stretch_deform c = Some c' /\
    forall s : IKChainSegment,
      s ∈ segments (pose_ik_chain c') ->
      0 < vx (scale s) /\ vy (scale s) = vx (scale s) /\ 0 < vz (scale s) /\
      vx (scale s) * vy (scale s) * vz (scale s) = 1 /\
      (1 / 2 = 0 -> scale s = mk_float3 1 1 1) /\
      (0 < 1 / 2 -> 1 < vz (scale s) /\ vx (scale s) < 1) /\
      (1 / 2 < 0 -> vz (scale s) < 1 /\ 1 < vx (scale s)).
Proof.
  cbv zeta.
  assert (Hlen : 0 < len (rest_segment f3_zero (mk_float3 0 0 1) 1)) by (simpl; lra).
  assert (Hlt : 1 / 2 < len (rest_segment f3_zero (mk_float3 0 0 1) 1)) by (simpl; lra).
  split; [reflexivity |]. split; [exact cache_drag_z_nondegenerate |].
  split; [exact (cache_drag_z_distance 0 false) |].
  split; [exact Hlen |]. split; [exact Hlt |].
  apply (squash_stretch_preserves_volume (cache_drag_z 0 false)
           (rest_segment f3_zero (mk_float3 0 0 1) 1) [] (1 / 2)
           eq_refl cache_drag_z_nondegenerate (cache_drag_z_distance 0 false) Hlen Hlt).
Defined.

Lemma Forall2_fmap_self {A : Type} (P : A -> A -> Prop) (f : A -> A) (l : list A) :
  (forall x, P x (f x)) -> Forall2 P l (f <$> l).
Proof. intros H. induction l as [| x l IH]; simpl; constructor; [apply H | exact IH]. Qed.

Lemma Forall2_imap_self {A : Type} (P : A -> A -> Prop) (f : nat -> A -> A) (l : list A) :
  (forall i x, P x (f i x)) -> Forall2 P l (imap f l).
Proof.
  revert f. induction l as [| x l IH]; intros f H; simpl; constructor.
  - apply H.
  - apply IH. intros i y. apply H.
Qed.

Lemma Forall2_chain {A : Type} (P : A -> A -> Prop) (l1 l2 l3 : list A) :
  (forall x y z, P x y -> P y z -> P x z) ->
  Forall2 P l1 l2 -> Forall2 P l2 l3 -> Forall2 P l1 l3.
Proof.
  intros Htrans H12. revert l3.
  induction H12 as [| x y l1 l2 Hxy _ IH]; intros l3 H23; inversion H23; subst;
    constructor; [eapply Htrans; eassumption | apply IH; assumption].
Qed.

Lemma same_binding_trans (x y z : IKChainSegment) :
  same_binding x y -> same_binding y z -> same_binding x z.
Proof.
  unfold same_binding. intros (A1 & A2 & A3 & A4) (B1 & B2 & B3 & B4).
  repeat split; congruence.
Qed.

Lemma same_joints_trans (x y z : IKChainSegment) :
  same_joints x y -> same_joints y z -> same_joints x z.
Proof. unfold same_joints. intros (A1 & A2) (B1 & B2). split; congruence. Qed.

Lemma solve_ik_chain_binding {L : RotationLib}
    (chain : IKChain) (target : float3) (use_anchor : bool) :
  Forall2 same_binding (segments chain) (segments (solve_ik_chain chain target use_anchor)).
Proof.
  destruct (solve_ik_chain_keeps_reference_aux chain target use_anchor) as [_ H].
  eapply Forall2_impl; [exact H |].
  intros s s' (H1 & H2 & H3 & _ & H5 & _). repeat split; assumption.
Qed.

Lemma solve_scale_chain_binding (chain : IKChain) (sc : float3) :
  Forall2 (fun s s' => same_binding s s' /\ same_joints s s' /\ rot s' = rot s)
          (segments chain) (segments (solve_scale_chain chain sc)).
Proof.
  unfold solve_scale_chain, set_segments. cbn [segments].
  apply Forall2_fmap_self. intros s. repeat split.
Qed.

Lemma solve_translate_chain_binding (chain : IKChain) (delta : float3) :
  Forall2 same_binding (segments chain) (segments (solve_translate_chain chain delta)).
Proof.
  unfold solve_translate_chain, set_segments. cbn [segments].
  apply Forall2_fmap_self. intros s. repeat split.
Qed.

Lemma solve_roll_chain_binding {L : RotationLib}
    (chain : IKChain) (curve : nat -> nat -> R) (roll : R) :
  Forall2 (fun s s' => same_binding s s' /\ same_joints s s' /\ scale s' = scale s)
          (segments chain) (segments (solve_roll_chain chain curve roll)).
Proof.
  unfold solve_roll_chain, set_segments. cbn [segments].
  apply Forall2_imap_self. intros i s. repeat split.
Qed.

Lemma update_segment_matrices_binding {D : DeformLib}
    (brush : Brush) (symm : nat) (c : StrokeCache) (segs : list IKChainSegment) :
  Forall2 (fun s s' => same_binding s s' /\ same_joints s s' /\
                       scale s' = scale s /\ rot s' = rot s /\ matrices_stored s')
          segs (update_segment_matrices brush symm c <$> segs).
Proof.
  apply Forall2_fmap_self. intros s.
  unfold update_segment_matrices, matrices_stored, same_binding, same_joints.
  cbn [initial_orig initial_head len weights orig head scale rot
       trans_mat pivot_mat pivot_mat_inv].
  repeat split; rewrite length_fmap, length_seq; reflexivity.
Qed.

(** X17.  The scale mode stores one uniform scale on every segment,
    [len / (len - d)] for the first segment's length and the signed
    distance [d] of the grab target past its initial head.  The factor is
    read from the reference pose, so it is the same whether or not the
    rotate solve ran first; with the rotation locked the joints and
    rotations stay as they were. *)
Theorem calc_scale_deform_uniform {L : RotationLib} (c : StrokeCache) (brush : Brush)
    (seg0 : IKChainSegment) (rest : list IKChainSegment) (d : R) :
  segments (pose_ik_chain c) = seg0 :: rest ->
  initial_head seg0 <> initial_orig seg0 ->
  dot (location c +v grab_delta c -v initial_head seg0)
      (normalize (initial_head seg0 -v initial_orig seg0)) = d ->
  d <> len seg0 ->
  exists c' : StrokeCache,
    calc_scale_deform c brush = Some c' /\
    Forall2 same_binding (seg0 :: rest) (segments (pose_ik_chain c')) /\
    (forall s : IKChainSegment,
       s ∈ segments (pose_ik_chain c') ->
       scale s = mk_float3 (len seg0 / (len seg0 - d)) (len seg0 / (len seg0 - d))
                           (len seg0 / (len seg0 - d)) /\
       vx (scale s) * (len seg0 - d) = len seg0) /\
    (pose_use_lock_rotation brush = true ->
     Forall2 (fun s s' => same_joints s s' /\ rot s' = rot s)
             (seg0 :: rest) (segments (pose_ik_chain c'))).
Proof.
  intros Hsegs Hne Hd Hlen.
  unfold calc_scale_deform.
  set (target := location c +v grab_delta c) in *.
  set (c1 := if pose_use_lock_rotation brush then c
             else set_pose_ik_chain c
                    (solve_ik_chain (pose_ik_chain c) target (pose_ik_anchored brush))).
  assert (Hbind : Forall2 same_binding (seg0 :: rest) (segments (pose_ik_chain c1))).
  { unfold c1. destruct (pose_use_lock_rotation brush).
    - rewrite Hsegs. apply Forall_Forall2_diag, Forall_true.
      intros s. repeat split.
    - cbn [pose_ik_chain set_pose_ik_chain]. rewrite <- Hsegs.
      apply solve_ik_chain_binding. }
  inversion Hbind as [| s0 seg1 l1 rest1 Hb0 Hbrest E1 Hsegs1]. subst s0 l1.
  symmetry in Hsegs1.
  destruct Hb0 as (Hio & Hih & Hl & _).
  assert (Hne1 : initial_head seg1 <> initial_orig seg1) by (rewrite Hio, Hih; exact Hne).
  rewrite (scale_from_grab_delta_reference c1 target seg1 rest1 Hsegs1 Hne1).
  rewrite Hio, Hih, Hl, Hd.
  eexists. split; [reflexivity |].
  cbn [pose_ik_chain set_pose_ik_chain].
  split; [| split].
  - eapply Forall2_chain; [exact same_binding_trans | exact Hbind |].
    eapply Forall2_impl; [apply solve_scale_chain_binding |].
    intros s s' (H & _). exact H.
  - intros s Hs. apply solve_scale_chain_segments in Hs. rewrite Hs.
    split; [reflexivity |]. cbn [vx]. field. lra.
  - intros Hlock.
    assert (Hc1 : c1 = c) by (unfold c1; rewrite Hlock; reflexivity).
    rewrite Hc1, <- Hsegs.
    eapply Forall2_impl; [apply solve_scale_chain_binding |].
    intros s s' (_ & H1 & H2). split; assumption.
Qed.

Lemma calc_scale_deform_uniform_witness :
  let c := cache_drag_z 0 false in
  let seg0 := rest_segment f3_zero (mk_float3 0 0 1) 1 in
  segments (pose_ik_chain c) = [seg0] /\
  initial_head seg0 <> initial_orig seg0 /\
  dot (location c +v grab_delta c -v initial_head seg0)
      (normalize (initial_head seg0 -v initial_orig seg0)) = 1 / 2 /\
  1 / 2 <> len seg0 /\
  exists c' : StrokeCache,
    calc_scale_deform (L := ref_rotation_lib) c brush_scale_translate = Some c' /\
    Forall2 same_binding [seg0] (segments (pose_ik_chain c')) /\
    (forall s : IKChainSegment,
       s ∈ segments (pose_ik_chain c') ->
       scale s = mk_float3 (len seg0 / (len seg0 - 1 / 2)) (len seg0 / (len seg0 - 1 / 2))
                           (len seg0 / (len seg0 - 1 / 2)) /\
       vx (scale s) * (len seg0 - 1 / 2) = len seg0) /\
    (pose_use_lock_rotation brush_scale_translate = true ->
     Forall2 (fun s s' => same_joints s s' /\ rot s' = rot s)
             [seg0] (segments (pose_ik_chain c'))).
Proof.
  cbv zeta.
  assert (Hlen : 1 / 2 <> len (rest_segment f3_zero (mk_float3 0 0 1) 1)) by (simpl; lra).
  split; [reflexivity |]. split; [exact cache_drag_z_nondegenerate |].
  split; [exact (cache_drag_z_distance 0 false) |].
  split; [exact Hlen |].
  apply (calc_scale_deform_uniform (L := ref_rotation_lib) (cache_drag_z 0 false)
           brush_scale_translate (rest_segment f3_zero (mk_float3 0 0 1) 1) [] (1 / 2)
           eq_refl cache_drag_z_nondegenerate (cache_drag_z_distance 0 false) Hlen).
Defined.

Lemma Forall2_nonempty {A : Type} (P : A -> A -> Prop) (x : A) (l l' : list A) :
  Forall2 P (x :: l) l' -> exists y l1, l' = y :: l1.
Proof. intros H. inversion H; subst. eauto. Qed.

Lemma calc_scale_deform_binding {L : RotationLib} (c : StrokeCache) (brush : Brush)
    (seg0 : IKChainSegment) (rest : list IKChainSegment) :
  segments (pose_ik_chain c) = seg0 :: rest ->
  exists c' : StrokeCache,
    calc_scale_deform c brush = Some c' /\
    Forall2 same_binding (seg0 :: rest) (segments (pose_ik_chain c')) /\
    grab_delta_offset (pose_ik_chain c') = grab_delta_offset (pose_ik_chain c) /\
    orig_grab_location c' = orig_grab_location c.
Proof.
  intros Hsegs. unfold calc_scale_deform.
  set (target := location c +v grab_delta c).
  set (c1 := if pose_use_lock_rotation brush then c
             else set_pose_ik_chain c
                    (solve_ik_chain (pose_ik_chain c) target (pose_ik_anchored brush))).
  assert (Hbind : Forall2 same_binding (seg0 :: rest) (segments (pose_ik_chain c1)) /\
                  grab_delta_offset (pose_ik_chain c1) = grab_delta_offset (pose_ik_chain c) /\
                  orig_grab_location c1 = orig_grab_location c).
  { unfold c1. destruct (pose_use_lock_rotation brush).
    - rewrite Hsegs. split; [| split; reflexivity].
      apply Forall_Forall2_diag, Forall_true. intros s. repeat split.
    - cbn [pose_ik_chain set_pose_ik_chain orig_grab_location]. rewrite <- Hsegs.
      split; [apply solve_ik_chain_binding |].
      split; [| reflexivity].
      unfold solve_ik_chain. destruct (pose_ik_anchored brush); reflexivity. }
  destruct Hbind as (Hbind & Hoff & Hloc).
  destruct (Forall2_nonempty _ _ _ _ Hbind) as (seg1 & rest1 & Hsegs1).
  unfold calc_scale_from_grab_delta. rewrite Hsegs1.
  eexists. split; [reflexivity |].
  cbn [pose_ik_chain set_pose_ik_chain orig_grab_location].
  split; [| split; [exact Hoff | exact Hloc]].
  eapply Forall2_chain; [exact same_binding_trans | exact Hbind |].
  eapply Forall2_impl; [apply solve_scale_chain_binding |].
  intros s s' (H & _). exact H.
Qed.

Lemma calc_squash_stretch_deform_binding (c : StrokeCache)
    (seg0 : IKChainSegment) (rest : list IKChainSegment) :
  segments (pose_ik_chain c) = seg0 :: rest ->
  exists c' : StrokeCache,
    calc_squash_stretch_deform c = Some c' /\
    Forall2 same_binding (seg0 :: rest) (segments (pose_ik_chain c')) /\
    grab_delta_offset (pose_ik_chain c') = grab_delta_offset (pose_ik_chain c) /\
    orig_grab_location c' = orig_grab_location c.
Proof.
  intros Hsegs. unfold calc_squash_stretch_deform, calc_scale_from_grab_delta.
  rewrite Hsegs. eexists. split; [reflexivity |].
  cbn [pose_ik_chain set_pose_ik_chain orig_grab_location].
  split; [| split; reflexivity].
  rewrite <- Hsegs.
  eapply Forall2_impl; [apply solve_scale_chain_binding |].
  intros s s' (H & _). exact H.
Qed.

Lemma calc_twist_deform_binding {L : RotationLib} (c : StrokeCache) (brush : Brush) :
  Forall2 (fun s s' => same_binding s s' /\ same_joints s s' /\ scale s' = scale s)
          (segments (pose_ik_chain c))
          (segments (pose_ik_chain (calc_twist_deform c brush))) /\
  grab_delta_offset (pose_ik_chain (calc_twist_deform c brush))
  = grab_delta_offset (pose_ik_chain c) /\
  orig_grab_location (calc_twist_deform c brush) = orig_grab_location c.
Proof.
  unfold calc_twist_deform. cbn [pose_ik_chain set_pose_ik_chain orig_grab_location].
  split; [apply solve_roll_chain_binding | split; reflexivity].
Qed.

Lemma calc_rotate_deform_binding {L : RotationLib} (c : StrokeCache) (brush : Brush) :
  Forall2 same_binding (segments (pose_ik_chain c))
          (segments (pose_ik_chain (calc_rotate_deform c brush))) /\
  grab_delta_offset (pose_ik_chain (calc_rotate_deform c brush))
  = grab_delta_offset (pose_ik_chain c) /\
  orig_grab_location (calc_rotate_deform c brush) = orig_grab_location c.
Proof.
  unfold calc_rotate_deform. cbn [pose_ik_chain set_pose_ik_chain orig_grab_location].
  split; [apply solve_ik_chain_binding |].
  split; [| reflexivity].
  unfold solve_ik_chain. destruct (pose_ik_anchored brush); reflexivity.
Qed.

Lemma translate_deform_binding (c : StrokeCache) :
  Forall2 same_binding (segments (pose_ik_chain c))
          (segments (pose_ik_chain (sculpt_pose_do_translate_deform c))) /\
  grab_delta_offset (pose_ik_chain (sculpt_pose_do_translate_deform c))
  = grab_delta_offset (pose_ik_chain c) /\
  orig_grab_location (sculpt_pose_do_translate_deform c) = orig_grab_location c.
Proof.
  unfold sculpt_pose_do_translate_deform.
  cbn [pose_ik_chain set_pose_ik_chain orig_grab_location].
  split; [apply solve_translate_chain_binding | split; reflexivity].
Qed.

(** X18.  On the first symmetry pass and a chain with at least one
    segment, [do_pose_brush] succeeds in every deformation mode, and it
    never changes what binds the chain to the mesh: the reference pose,
    the length and the weights of each segment, the number of segments
    and the grab offset.  It leaves on each segment one transform, one
    pivot and one inverse pivot matrix per symmetry area. *)
Theorem do_pose_brush_first_pass {L : RotationLib} {D : DeformLib}
    (brush : Brush) (symm : nat) (node_mask : list nat) (ob : SculptObject)
    (seg0 : IKChainSegment) (rest : list IKChainSegment) :
  mirror_symmetry_pass (cache ob) = 0%Z ->
  segments (pose_ik_chain (cache ob)) = seg0 :: rest ->
  exists ob' : SculptObject,
    do_pose_brush brush symm node_mask ob = Some ob' /\
    Forall2 same_binding (seg0 :: rest) (segments (pose_ik_chain (cache ob'))) /\
    grab_delta_offset (pose_ik_chain (cache ob'))
    = grab_delta_offset (pose_ik_chain (cache ob)) /\
    Forall matrices_stored (segments (pose_ik_chain (cache ob'))).
Proof.
  intros Hpass Hsegs. unfold do_pose_brush.
  destruct (decide (mirror_symmetry_pass (cache ob) <> 0%Z)) as [Hne | _];
    [contradiction |].
  assert (Hsolved : exists c : StrokeCache,
             match pose_deform_type brush with
             | BRUSH_POSE_DEFORM_ROTATE_TWIST =>
                 Some (calc_rotate_twist_deform (cache ob) brush)
             | BRUSH_POSE_DEFORM_SCALE_TRASLATE =>
                 calc_scale_translate_deform (cache ob) brush
             | BRUSH_POSE_DEFORM_SQUASH_STRETCH => calc_squash_stretch_deform (cache ob)
             end = Some c /\
             Forall2 same_binding (seg0 :: rest) (segments (pose_ik_chain c)) /\
             grab_delta_offset (pose_ik_chain c)
             = grab_delta_offset (pose_ik_chain (cache ob))).
  { destruct (pose_deform_type brush).
    - eexists. split; [reflexivity |]. unfold calc_rotate_twist_deform.
      rewrite <- Hsegs. destruct (invert (cache ob)).
      + destruct (calc_twist_deform_binding (cache ob) brush) as (H1 & H2 & _).
        split; [| exact H2].
        eapply Forall2_impl; [exact H1 |]. intros s s' (H & _). exact H.
      + destruct (calc_rotate_deform_binding (cache ob) brush) as (H1 & H2 & _).
        split; assumption.
    - unfold calc_scale_translate_deform. destruct (invert (cache ob)).
      + eexists. split; [reflexivity |]. rewrite <- Hsegs.
        destruct (translate_deform_binding (cache ob)) as (H1 & H2 & _).
        split; assumption.
      + destruct (calc_scale_deform_binding (cache ob) brush seg0 rest Hsegs)
          as (c & Hc & H1 & H2 & _).
        exists c. split; [exact Hc |]. split; assumption.
    - destruct (calc_squash_stretch_deform_binding (cache ob) seg0 rest Hsegs)
        as (c & Hc & H1 & H2 & _).
      exists c. split; [exact Hc |]. split; assumption. }
  destruct Hsolved as (c & -> & Hbind & Hoff).
  destruct (apply_deformation brush
              (set_segments (pose_ik_chain c)
                 (update_segment_matrices brush symm c <$> segments (pose_ik_chain c)))
              node_mask (positions ob, deformation_pos ob)) as [pos cloth] eqn:Happly.
  eexists. split; [reflexivity |].
  cbn [cache pose_ik_chain set_pose_ik_chain positions deformation_pos].
  pose proof (update_segment_matrices_binding brush symm c (segments (pose_ik_chain c)))
    as Hupd.
  split; [| split].
  - cbn [set_segments segments].
    eapply Forall2_chain; [exact same_binding_trans | exact Hbind |].
    eapply Forall2_impl; [exact Hupd |]. intros s s' (H & _). exact H.
  - cbn [set_segments grab_delta_offset]. exact Hoff.
  - cbn [set_segments segments].
    apply Forall2_Forall_r with (Q := matrices_stored) in Hupd; [exact Hupd |].
    apply Forall_true. intros s s' (_ & _ & _ & _ & H). exact H.
Qed.

Lemma do_pose_brush_first_pass_witness :
  mirror_symmetry_pass (cache (object_drag_z 0 false)) = 0%Z /\
  segments (pose_ik_chain (cache (object_drag_z 0 false)))
  = [rest_segment f3_zero (mk_float3 0 0 1) 1] /\
  exists ob' : SculptObject,
    do_pose_brush (L := ref_rotation_lib) (D := ref_deform_lib)
      brush_scale_translate 0 [0%nat] (object_drag_z 0 false) = Some ob' /\
    Forall2 same_binding [rest_segment f3_zero (mk_float3 0 0 1) 1]
            (segments (pose_ik_chain (cache ob'))) /\
    grab_delta_offset (pose_ik_chain (cache ob'))
    = grab_delta_offset (pose_ik_chain (cache (object_drag_z 0 false))) /\
    Forall matrices_stored (segments (pose_ik_chain (cache ob'))).
Proof.
  split; [reflexivity |]. split; [reflexivity |].
  apply (do_pose_brush_first_pass (L := ref_rotation_lib) (D := ref_deform_lib)
           brush_scale_translate 0%nat [0%nat] (object_drag_z 0 false)
           (rest_segment f3_zero (mk_float3 0 0 1) 1) [] eq_refl eq_refl).
Defined.

Lemma imap_rot_ext (P : IKChainSegment -> IKChainSegment -> Prop)
    (f g : nat -> IKChainSegment -> IKChainSegment) (l1 l2 : list IKChainSegment) :
  Forall2 P l1 l2 ->
  (forall i x y, P x y -> rot (f i x) = rot (g i y)) ->
  rot <$> imap f l1 = rot <$> imap g l2.
Proof.
  intros H. revert f g. induction H as [| x y l1 l2 Hxy _ IH]; intros f g Hfg.
  - reflexivity.
  - cbn [imap]. rewrite !fmap_cons. f_equal; [apply Hfg; exact Hxy |].
    apply IH. intros i x' y' Hp. apply Hfg. exact Hp.
Qed.

(** The rotations of the roll solve are read off the reference pose:
    chains with the same reference poses get the same rotations. *)
Lemma solve_roll_chain_rot_reference {L : RotationLib} (c1 c2 : IKChain)
    (curve : nat -> nat -> R) (roll : R) :
  Forall2 same_binding (segments c1) (segments c2) ->
  rot <$> segments (solve_roll_chain c2 curve roll)
  = rot <$> segments (solve_roll_chain c1 curve roll).
Proof.
  intros H. unfold solve_roll_chain, set_segments. cbn [segments].
  rewrite (Forall2_length _ _ _ H). symmetry.
  apply (imap_rot_ext same_binding); [exact H |].
  intros i x y (Hio & Hih & _). cbn [rot]. rewrite Hio, Hih. reflexivity.
Qed.

Lemma update_segment_matrices_rot {D : DeformLib}
    (brush : Brush) (symm : nat) (c : StrokeCache) (segs : list IKChainSegment) :
  rot <$> (update_segment_matrices brush symm c <$> segs) = rot <$> segs.
Proof. rewrite <- list_fmap_compose. apply list_fmap_ext. intros i s _. reflexivity. Qed.

(** X19.  Twisting never moves the chain and reads only its reference
    pose.  On the first symmetry pass of an inverted stroke in the
    rotate/twist mode, [do_pose_brush] succeeds on every chain and leaves
    the joints, the scale and the binding of each segment as they were;
    and the rotations it stores are the same when the chain was first
    posed by a rotate solve for any target, anchored or not. *)
Theorem do_pose_brush_twist_keeps_joints {L : RotationLib} {D : DeformLib}
    (brush : Brush) (symm : nat) (node_mask : list nat) (ob : SculptObject)
    (target : float3) (use_anchor : bool) :
  mirror_symmetry_pass (cache ob) = 0%Z ->
  pose_deform_type brush = BRUSH_POSE_DEFORM_ROTATE_TWIST ->
  invert (cache ob) = true ->
  exists ob' ob1' : SculptObject,
    do_pose_brush brush symm node_mask ob = Some ob' /\
    do_pose_brush brush symm node_mask
      (with_chain ob (solve_ik_chain (pose_ik_chain (cache ob)) target use_anchor))
    = Some ob1' /\
    Forall2 (fun s s' => same_joints s s' /\ scale s' = scale s /\ same_binding s s')
            (segments (pose_ik_chain (cache ob)))
            (segments (pose_ik_chain (cache ob'))) /\
    rot <$> segments (pose_ik_chain (cache ob1'))
    = rot <$> segments (pose_ik_chain (cache ob')).
Proof.
  intros Hpass Hmode Hinv. unfold do_pose_brush, with_chain.
  cbn [cache set_pose_ik_chain mirror_symmetry_pass positions deformation_pos].
  destruct (decide (mirror_symmetry_pass (cache ob) <> 0%Z)) as [Hne | _];
    [contradiction |].
  rewrite Hmode. unfold calc_rotate_twist_deform.
  cbn [invert set_pose_ik_chain]. rewrite Hinv.
  set (c := calc_twist_deform (cache ob) brush).
  set (c1 := calc_twist_deform _ brush).
  destruct (apply_deformation brush
              (set_segments (pose_ik_chain c)
                 (update_segment_matrices brush symm c <$> segments (pose_ik_chain c)))
              node_mask (positions ob, deformation_pos ob)) as [pos cloth].
  destruct (apply_deformation brush
              (set_segments (pose_ik_chain c1)
                 (update_segment_matrices brush symm c1 <$> segments (pose_ik_chain c1)))
              node_mask (positions ob, deformation_pos ob)) as [pos1 cloth1].
  eexists. eexists. split; [reflexivity |]. split; [reflexivity |].
  cbn [cache pose_ik_chain set_pose_ik_chain set_segments segments].
  pose proof (update_segment_matrices_binding brush symm c (segments (pose_ik_chain c)))
    as Hupd.
  destruct (calc_twist_deform_binding (cache ob) brush) as (Htw & _).
  fold c in Htw.
  split.
  - eapply Forall2_chain;
      [| eapply Forall2_impl; [exact Htw |];
         intros s s' (H1 & H2 & H3); split; [exact H2 | split; [exact H3 | exact H1]] |].
    + intros x y z (A1 & A2 & A3) (B1 & B2 & B3).
      split; [eapply same_joints_trans; eassumption |].
      split; [congruence | eapply same_binding_trans; eassumption].
    + eapply Forall2_impl; [exact Hupd |].
      intros s s' (H1 & H2 & H3 & _). split; [exact H2 | split; [exact H3 | exact H1]].
  - rewrite !update_segment_matrices_rot.
    unfold c, c1, calc_twist_deform.
    cbn [pose_ik_chain set_pose_ik_chain initial_mouse_x mouse_x bstrength].
    apply solve_roll_chain_rot_reference. apply solve_ik_chain_binding.
Qed.

Lemma do_pose_brush_twist_keeps_joints_witness :
  mirror_symmetry_pass (cache object_twist_z) = 0%Z /\
  pose_deform_type brush_twist = BRUSH_POSE_DEFORM_ROTATE_TWIST /\
  invert (cache object_twist_z) = true /\
  exists ob' ob1' : SculptObject,
    do_pose_brush (L := ref_rotation_lib) (D := ref_deform_lib)
      brush_twist 0 [0%nat] object_twist_z = Some ob' /\
    do_pose_brush (L := ref_rotation_lib) (D := ref_deform_lib) brush_twist 0 [0%nat]
      (with_chain object_twist_z
         (solve_ik_chain (L := ref_rotation_lib) (pose_ik_chain (cache object_twist_z))
            (mk_float3 1 0 0) true))
    = Some ob1' /\
    Forall2 (fun s s' => same_joints s s' /\ scale s' = scale s /\ same_binding s s')
            (segments (pose_ik_chain (cache object_twist_z)))
            (segments (pose_ik_chain (cache ob'))) /\
    rot <$> segments (pose_ik_chain (cache ob1'))
    = rot <$> segments (pose_ik_chain (cache ob')).
Proof.
  split; [reflexivity |]. split; [reflexivity |]. split; [reflexivity |].
  apply (do_pose_brush_twist_keeps_joints (L := ref_rotation_lib) (D := ref_deform_lib)
           brush_twist 0%nat [0%nat] object_twist_z (mk_float3 1 0 0) true
           eq_refl eq_refl eq_refl).
Defined.

(** ** The FK builder *)

Lemma fk_weights_fold (fs : FaceSets) (masked : Z) (calls : list FloodCall)
    (w : list R) :
  length (fold_left
            (fun w call =>
               fst (pose_face_sets_fk_set_weights_floodfill fs (call_to call) masked w))
            calls w) = length w /\
  forall v : nat, (v < length w)%nat ->
    fold_left
      (fun w call =>
         fst (pose_face_sets_fk_set_weights_floodfill fs (call_to call) masked w))
      calls w !!! v
    = if bool_decide (v ∈ call_to <$> calls) then 1 else w !!! v.
Proof.
  revert w. induction calls as [| call calls IH]; intros w.
  - split; [reflexivity |]. intros v _.
    rewrite bool_decide_eq_false_2; [reflexivity |]. intros H. inversion H.
  - cbn [fold_left]. unfold pose_face_sets_fk_set_weights_floodfill at 2 4. cbn [fst].
    destruct (IH (<[call_to call := 1]> w)) as [IHlen IHv].
    rewrite IHlen, length_insert. split; [reflexivity |].
    intros v Hv. rewrite IHv by (rewrite length_insert; exact Hv).
    rewrite fmap_cons.
    destruct (decide (v ∈ call_to <$> calls)) as [Hin | Hnin].
    + rewrite !bool_decide_eq_true_2; [reflexivity | | exact Hin].
      apply elem_of_cons. right. exact Hin.
    + rewrite (bool_decide_eq_false_2 _ Hnin).
      destruct (decide (v = call_to call)) as [-> | Hne].
      * rewrite bool_decide_eq_true_2 by (apply elem_of_cons; left; reflexivity).
        apply list_lookup_total_insert_eq. exact Hv.
      * rewrite bool_decide_eq_false_2.
        -- apply list_lookup_total_insert_ne. congruence.
        -- intros H. apply elem_of_cons in H as [H | H]; [congruence | contradiction].
Qed.

(** X20.  The FK builder returns a chain of exactly one segment.  The
    segment is in its reference pose, its head is the initial location
    moved by the chain's grab offset, and its weights are one entry per
    vertex: 1 on the vertices the second flood fill visited, 0 on all
    others.  When the search ended with the target face set equal to the
    masked one, the head is the initial location itself and the grab
    offset is zero. *)
Theorem ik_chain_init_face_sets_fk_segment (ob : SculptMesh) (fs : FaceSets)
    (active_vertex : nat) (uninit : list Z) (find_calls weight_calls : list FloodCall)
    (initial_location : float3) :
  let chain :=
    ik_chain_init_face_sets_fk ob fs active_vertex uninit find_calls weight_calls
      initial_location in
  let st := fk_find_fold fs (active_face_set_get fs) find_calls
              (fk_find_start active_vertex uninit) in
  exists s : IKChainSegment,
    segments chain = [s] /\
    at_reference_pose s /\
    head s = initial_location +v grab_delta_offset chain /\
    length (weights s) = vertex_count ob /\
    (forall v : nat, (v < vertex_count ob)%nat ->
       weights s !!! v = if bool_decide (v ∈ call_to <$> weight_calls) then 1 else 0) /\
    (fk_target_face_set st = fk_masked_face_set st ->
     head s = initial_location /\ grab_delta_offset chain = f3_zero).
Proof.
  cbv zeta. unfold ik_chain_init_face_sets_fk.
  set (st := fk_find_fold fs (active_face_set_get fs) find_calls
               (fk_find_start active_vertex uninit)).
  set (origin := fk_accumulate ob fs (fk_floodfill_it st) (active_face_set_get fs)
                   (fk_masked_face_set st)).
  set (target := if decide (fk_target_face_set st <> fk_masked_face_set st)
                 then fk_accumulate ob fs (fk_floodfill_it st) (active_face_set_get fs)
                        (fk_target_face_set st)
                 else (f3_zero, 0%Z)).
  unfold ik_chain_new. cbn [replicate set_segments segments grab_delta_offset alter
                            list_alter].
  destruct (fk_weights_fold fs (fk_masked_face_set st) weight_calls
              (replicate (vertex_count ob) 0)) as [Hlen Hw].
  rewrite length_replicate in Hlen, Hw.
  assert (Hweights : forall v : nat, (v < vertex_count ob)%nat ->
            fold_left
              (fun w call =>
                 fst (pose_face_sets_fk_set_weights_floodfill fs (call_to call)
                        (fk_masked_face_set st) w))
              weight_calls (replicate (vertex_count ob) 0) !!! v
            = if bool_decide (v ∈ call_to <$> weight_calls) then 1 else 0).
  { intros v Hv. rewrite (Hw v Hv).
    destruct (bool_decide (v ∈ call_to <$> weight_calls)); [reflexivity |].
    apply lookup_total_replicate_2. exact Hv. }
  destruct (decide (0 < snd target)%Z) as [Hpos | Hzero].
  - cbn [segments grab_delta_offset alter list_alter set_segments lookup_total
         list_lookup_total head set_head set_weights weights
         ik_chain_origin_heads_init origin_heads_loop].
    eexists. split; [reflexivity |].
    split; [unfold at_reference_pose; cbn; repeat split |].
    split; [cbn [head]; f3_ring |].
    split; [cbn [weights]; exact Hlen |].
    split; [cbn [weights]; exact Hweights |].
    intros Heq. exfalso. unfold target in Hpos.
    destruct (decide (fk_target_face_set st <> fk_masked_face_set st)) as [Hne | _];
      [contradiction | simpl in Hpos; lia].
  - cbn [segments grab_delta_offset alter list_alter set_segments lookup_total
         list_lookup_total head set_head set_weights weights
         ik_chain_origin_heads_init origin_heads_loop].
    eexists. split; [reflexivity |].
    split; [unfold at_reference_pose; cbn; repeat split |].
    split; [cbn [head]; f3_ring |].
    split; [cbn [weights]; exact Hlen |].
    split; [cbn [weights]; exact Hweights |].
    intros _. split; reflexivity.
Qed.

Lemma fk_find_fold_app (fs : FaceSets) (afs : Z) (calls1 calls2 : list FloodCall)
    (st : FkFindState) :
  fk_find_fold fs afs (calls1 ++ calls2) st
  = fk_find_fold fs afs calls2 (fk_find_fold fs afs calls1 st).
Proof. unfold fk_find_fold. apply fold_left_app. Qed.

Lemma fk_find_step_keeps (fs : FaceSets) (afs : Z) (from_v to_v : nat) (dup : bool)
    (st : FkFindState) :
  let st' := fst (face_sets_fk_find_masked_floodfill fs afs from_v to_v dup st) in
  (fk_target_face_set st <> SCULPT_FACE_SET_NONE ->
   fk_target_face_set st' = fk_target_face_set st) /\
  (fk_masked_face_set_it st <= fk_masked_face_set_it st')%Z /\
  (forall f : Z, f ∈ fk_visited_face_sets st -> f ∈ fk_visited_face_sets st') /\
  length (fk_floodfill_it st') = length (fk_floodfill_it st) /\
  (forall v : nat, v <> to_v -> fk_floodfill_it st' !!! v = fk_floodfill_it st !!! v).
Proof.
  cbv zeta. unfold face_sets_fk_find_masked_floodfill. cbn [fst].
  set (fit := if negb dup
              then <[to_v := (fk_floodfill_it st !!! from_v + 1)%Z]> (fk_floodfill_it st)
              else <[to_v := fk_floodfill_it st !!! from_v]> (fk_floodfill_it st)).
  assert (Hlen : length fit = length (fk_floodfill_it st)).
  { unfold fit. destruct dup; cbn [negb]; apply length_insert. }
  assert (Hother : forall v : nat, v <> to_v -> fit !!! v = fk_floodfill_it st !!! v).
  { intros v Hv. unfold fit.
    destruct dup; cbn [negb]; apply list_lookup_total_insert_ne; congruence. }
  destruct (negb (bool_decide (vert_face_set_get fs to_v ∈ fk_visited_face_sets st))
            && (vert_has_unique_face_set fs to_v
                && negb (vert_has_unique_face_set fs from_v)
                && vert_has_face_set fs from_v (vert_face_set_get fs to_v))).
  - cbn [fk_target_face_set fk_masked_face_set_it fk_visited_face_sets fk_floodfill_it].
    split; [| split; [| split; [| split]]].
    + intros Hset. rewrite bool_decide_eq_false_2 by exact Hset. reflexivity.
    + case_bool_decide as Hd; [exact Hd | lia].
    + intros f Hf. apply elem_of_cons. right. exact Hf.
    + exact Hlen.
    + exact Hother.
  - cbn [fk_target_face_set fk_masked_face_set_it fk_visited_face_sets fk_floodfill_it].
    split; [| split; [| split; [| split]]];
      [reflexivity | lia | intros f Hf; exact Hf | exact Hlen | exact Hother].
Qed.

(** X21.  The face-set search of the FK builder only moves forward.
    Along the invocations of [face_sets_fk_find_masked_floodfill], a
    target face set that has been chosen is never replaced, the depth of
    the masked face set never decreases, no visited face set is
    forgotten, the depth array keeps its size, and the depth of a vertex
    that is not visited again stays what it was. *)
Theorem fk_find_fold_forward (fs : FaceSets) (afs : Z) (calls1 calls2 : list FloodCall)
    (st : FkFindState) :
  let st1 := fk_find_fold fs afs calls1 st in
  let st2 := fk_find_fold fs afs (calls1 ++ calls2) st in
  (fk_target_face_set st1 <> SCULPT_FACE_SET_NONE ->
   fk_target_face_set st2 = fk_target_face_set st1) /\
  (fk_masked_face_set_it st1 <= fk_masked_face_set_it st2)%Z /\
  (forall f : Z, f ∈ fk_visited_face_sets st1 -> f ∈ fk_visited_face_sets st2) /\
  length (fk_floodfill_it st2) = length (fk_floodfill_it st1) /\
  (forall v : nat, v ∉ call_to <$> calls2 ->
     fk_floodfill_it st2 !!! v = fk_floodfill_it st1 !!! v).
Proof.
  cbv zeta. rewrite fk_find_fold_app.
  generalize (fk_find_fold fs afs calls1 st). clear st calls1.
  induction calls2 as [| call calls IH]; intros st.
  - unfold fk_find_fold. cbn [fold_left].
    split; [reflexivity |]. split; [lia |]. split; [intros f Hf; exact Hf |].
    split; reflexivity.
  - change (fk_find_fold fs afs (call :: calls) st)
      with (fk_find_fold fs afs calls
              (fst (face_sets_fk_find_masked_floodfill fs afs (call_from call)
                      (call_to call) (call_dup call) st))).
    destruct (fk_find_step_keeps fs afs (call_from call) (call_to call) (call_dup call) st)
      as (S1 & S2 & S3 & S4 & S5).
    destruct (IH (fst (face_sets_fk_find_masked_floodfill fs afs (call_from call)
                         (call_to call) (call_dup call) st)))
      as (I1 & I2 & I3 & I4 & I5).
    split; [| split; [| split; [| split]]].
    + intros Hset. rewrite I1; [apply S1; exact Hset |].
      rewrite (S1 Hset). exact Hset.
    + lia.
    + intros f Hf. apply I3, S3, Hf.
    + rewrite I4. exact S4.
    + intros v Hv. rewrite fmap_cons in Hv.
      rewrite I5; [apply S5 |].
      * intros ->. apply Hv. apply elem_of_cons. left. reflexivity.
      * intros Hin. apply Hv. apply elem_of_cons. right. exact Hin.
Qed.

Lemma fk_find_step_inv (fs : FaceSets) (afs : Z) (totvert : nat) (reached : list nat)
    (call : FloodCall) (st : FkFindState) :
  (forall v : nat, vert_face_set_get fs v <> SCULPT_FACE_SET_NONE) ->
  call_from call ∈ reached ->
  (call_to call < totvert)%nat ->
  fk_find_inv totvert reached st ->
  fk_find_inv totvert (call_to call :: reached)
    (fst (face_sets_fk_find_masked_floodfill fs afs (call_from call) (call_to call)
            (call_dup call) st)).
Proof.
  intros Hids Hfrom Hto (Hlen & Hdepth & Hnone & Hnodup & Hcase).
  destruct call as [from_v to_v dup]. cbn [call_from call_to call_dup] in *.
  unfold face_sets_fk_find_masked_floodfill. cbn [fst].
  set (fit := if negb dup
              then <[to_v := (fk_floodfill_it st !!! from_v + 1)%Z]> (fk_floodfill_it st)
              else <[to_v := fk_floodfill_it st !!! from_v]> (fk_floodfill_it st)).
  destruct (Hdepth from_v Hfrom) as [_ Hfrom1].
  assert (Hfitlen : length fit = totvert).
  { unfold fit. destruct dup; cbn [negb]; rewrite length_insert; exact Hlen. }
  assert (Hfit_to : (1 <= fit !!! to_v)%Z).
  { unfold fit. destruct dup; cbn [negb];
      rewrite list_lookup_total_insert_eq by (rewrite Hlen; exact Hto); lia. }
  assert (Hfit : forall v : nat, v ∈ to_v :: reached ->
                   (v < totvert)%nat /\ (1 <= fit !!! v)%Z).
  { intros v Hv. destruct (decide (v = to_v)) as [-> | Hne]; [split; assumption |].
    apply elem_of_cons in Hv as [Hv | Hv]; [contradiction |].
    destruct (Hdepth v Hv) as [Hv1 Hv2]. split; [exact Hv1 |].
    unfold fit. destruct dup; cbn [negb];
      rewrite list_lookup_total_insert_ne by congruence; exact Hv2. }
  destruct (negb (bool_decide (vert_face_set_get fs to_v ∈ fk_visited_face_sets st))
            && (vert_has_unique_face_set fs to_v
                && negb (vert_has_unique_face_set fs from_v)
                && vert_has_face_set fs from_v (vert_face_set_get fs to_v))) eqn:Hacc.
  - apply andb_true_iff in Hacc as [Hnew _].
    apply negb_true_iff, bool_decide_eq_false in Hnew.
    unfold fk_find_inv.
    cbn [fk_target_face_set fk_masked_face_set fk_masked_face_set_it
         fk_visited_face_sets fk_floodfill_it].
    split; [exact Hfitlen |]. split; [exact Hfit |].
    split.
    { intros Hin. apply elem_of_cons in Hin as [Hin | Hin];
        [apply (Hids to_v); symmetry; exact Hin | contradiction]. }
    split; [apply NoDup_cons; split; assumption |].
    right. destruct Hcase as [(Hnil & Ht & Hm & Hit) | (rest & Hrest & Hmin)].
    + rewrite Hnil, Ht, Hit.
      rewrite (bool_decide_eq_true_2 (SCULPT_FACE_SET_NONE = SCULPT_FACE_SET_NONE))
        by reflexivity.
      rewrite (bool_decide_eq_true_2 (0 <= fit !!! to_v)%Z) by lia.
      exists []. split; [reflexivity |]. apply elem_of_cons. left. reflexivity.
    + assert (Htne : fk_target_face_set st <> SCULPT_FACE_SET_NONE).
      { intros E. apply Hnone. rewrite Hrest, E.
        apply elem_of_app. right. apply elem_of_cons. left. reflexivity. }
      rewrite (bool_decide_eq_false_2 _ Htne).
      exists (vert_face_set_get fs to_v :: rest).
      split; [rewrite Hrest at 1; reflexivity |].
      case_bool_decide.
      * apply elem_of_cons. left. reflexivity.
      * apply elem_of_cons. right. exact Hmin.
  - unfold fk_find_inv.
    cbn [fk_target_face_set fk_masked_face_set fk_masked_face_set_it
         fk_visited_face_sets fk_floodfill_it].
    split; [exact Hfitlen |]. split; [exact Hfit |].
    split; [exact Hnone |]. split; [exact Hnodup |]. exact Hcase.
Qed.

Lemma fk_find_fold_inv (fs : FaceSets) (afs : Z) (totvert : nat)
    (calls : list FloodCall) (reached : list nat) (st : FkFindState) :
  (forall v : nat, vert_face_set_get fs v <> SCULPT_FACE_SET_NONE) ->
  flood_order totvert reached calls ->
  fk_find_inv totvert reached st ->
  fk_find_inv totvert (reverse (call_to <$> calls) ++ reached)
    (fk_find_fold fs afs calls st).
Proof.
  intros Hids. revert reached st.
  induction calls as [| call calls IH]; intros reached st Horder Hinv.
  - exact Hinv.
  - destruct Horder as (Hfrom & Hto & Hrest).
    rewrite fmap_cons, reverse_cons, <- app_assoc. cbn [app].
    change (fk_find_fold fs afs (call :: calls) st)
      with (fk_find_fold fs afs calls
              (fst (face_sets_fk_find_masked_floodfill fs afs (call_from call)
                      (call_to call) (call_dup call) st))).
    apply IH; [exact Hrest |].
    apply fk_find_step_inv; assumption.
Qed.

Lemma fk_find_start_inv (active_vertex : nat) (uninit : list Z) :
  (active_vertex < length uninit)%nat ->
  fk_find_inv (length uninit) [active_vertex] (fk_find_start active_vertex uninit).
Proof.
  intros Hactive. unfold fk_find_inv, fk_find_start.
  cbn [fk_target_face_set fk_masked_face_set fk_masked_face_set_it
       fk_visited_face_sets fk_floodfill_it].
  split; [apply length_insert |].
  split.
  { intros v Hv. apply list_elem_of_singleton in Hv as ->.
    split; [exact Hactive |].
    rewrite list_lookup_total_insert_eq by exact Hactive. lia. }
  split; [intros H; inversion H |].
  split; [apply NoDup_nil_2 |].
  left. repeat split.
Qed.

(** X22.  On a mesh whose vertices all have a face set, and on
    invocations that come in flood order from the active vertex, the
    first search of the FK builder ends as follows.  Every vertex it
    reached has a depth of at least 1, whatever the depth array held at
    the start.  No face set was accepted twice.  If no face set was
    accepted, both the target and the masked face set are still
    [SCULPT_FACE_SET_NONE]; otherwise the target is the first face set
    accepted, the masked one is among the accepted, and neither is
    [SCULPT_FACE_SET_NONE].  With at most one face set accepted, target
    and masked face set are equal. *)
Theorem fk_find_flood_order (fs : FaceSets) (afs : Z) (active_vertex : nat)
    (uninit : list Z) (calls : list FloodCall) :
  (active_vertex < length uninit)%nat ->
  flood_order (length uninit) [active_vertex] calls ->
  (forall v : nat, vert_face_set_get fs v <> SCULPT_FACE_SET_NONE) ->
  let st := fk_find_fold fs afs calls (fk_find_start active_vertex uninit) in
  (forall v : nat, v = active_vertex \/ v ∈ call_to <$> calls ->
     (1 <= fk_floodfill_it st !!! v)%Z) /\
  NoDup (fk_visited_face_sets st) /\
  (fk_visited_face_sets st = [] ->
   fk_target_face_set st = SCULPT_FACE_SET_NONE /\
   fk_masked_face_set st = SCULPT_FACE_SET_NONE) /\
  (fk_visited_face_sets st <> [] ->
   (exists rest : list Z, fk_visited_face_sets st = rest ++ [fk_target_face_set st]) /\
   fk_masked_face_set st ∈ fk_visited_face_sets st /\
   fk_target_face_set st <> SCULPT_FACE_SET_NONE /\
   fk_masked_face_set st <> SCULPT_FACE_SET_NONE) /\
  ((length (fk_visited_face_sets st) <= 1)%nat ->
   fk_target_face_set st = fk_masked_face_set st).
Proof.
  intros Hactive Horder Hids. cbv zeta.
  pose proof (fk_find_fold_inv fs afs (length uninit) calls [active_vertex]
                (fk_find_start active_vertex uninit) Hids Horder
                (fk_find_start_inv active_vertex uninit Hactive))
    as (Hlen & Hdepth & Hnone & Hnodup & Hcase).
  set (st := fk_find_fold fs afs calls (fk_find_start active_vertex uninit)) in *.
  split.
  { intros v Hv. apply Hdepth. apply elem_of_app.
    destruct Hv as [-> | Hv].
    - right. apply list_elem_of_singleton. reflexivity.
    - left. apply elem_of_reverse. exact Hv. }
  split; [exact Hnodup |].
  destruct Hcase as [(Hnil & Ht & Hm & _) | (rest & Hrest & Hmin)].
  - split; [intros _; split; assumption |].
    split; [intros Hne; contradiction |].
    intros _. rewrite Ht, Hm. reflexivity.
  - assert (Htin : fk_target_face_set st ∈ fk_visited_face_sets st).
    { rewrite Hrest. apply elem_of_app. right. apply elem_of_cons. left. reflexivity. }
    split.
    { intros Hnil. rewrite Hnil in Hrest. destruct rest; discriminate. }
    split.
    { intros _. split; [exists rest; exact Hrest |]. split; [exact Hmin |].
      split; intros E; apply Hnone; rewrite <- E; assumption. }
    intros Hone. rewrite Hrest in Hmin, Hone.
    destruct rest as [| f rest].
    + cbn [app] in Hmin. apply list_elem_of_singleton in Hmin. symmetry. exact Hmin.
    + rewrite length_app in Hone. cbn [length] in Hone. lia.
Qed.

Lemma fk_find_flood_order_witness :
  let st := fk_find_fold line5_face_sets 1 line5_find_calls
              (fk_find_start 0 [7; 7; 7; 7; 7]%Z) in
  (0 < length [7; 7; 7; 7; 7]%Z)%nat /\
  flood_order (length [7; 7; 7; 7; 7]%Z) [0%nat] line5_find_calls /\
  (forall v : nat, vert_face_set_get line5_face_sets v <> SCULPT_FACE_SET_NONE) /\
  (forall v : nat, v = 0%nat \/ v ∈ call_to <$> line5_find_calls ->
     (1 <= fk_floodfill_it st !!! v)%Z) /\
  NoDup (fk_visited_face_sets st) /\
  (fk_visited_face_sets st = [] ->
   fk_target_face_set st = SCULPT_FACE_SET_NONE /\
   fk_masked_face_set st = SCULPT_FACE_SET_NONE) /\
  (fk_visited_face_sets st <> [] ->
   (exists rest : list Z, fk_visited_face_sets st = rest ++ [fk_target_face_set st]) /\
   fk_masked_face_set st ∈ fk_visited_face_sets st /\
   fk_target_face_set st <> SCULPT_FACE_SET_NONE /\
   fk_masked_face_set st <> SCULPT_FACE_SET_NONE) /\
  ((length (fk_visited_face_sets st) <= 1)%nat ->
   fk_target_face_set st = fk_masked_face_set st).
Proof.
  cbv zeta.
  assert (Hactive : (0 < length [7; 7; 7; 7; 7]%Z)%nat) by (simpl; lia).
  assert (Horder : flood_order (length [7; 7; 7; 7; 7]%Z) [0%nat] line5_find_calls).
  { simpl. repeat split; try lia; repeat constructor. }
  assert (Hids : forall v : nat,
             vert_face_set_get line5_face_sets v <> SCULPT_FACE_SET_NONE).
  { intros v. unfold line5_face_sets, SCULPT_FACE_SET_NONE. cbn [vert_face_set_get].
    case_decide; lia. }
  split; [exact Hactive |]. split; [exact Horder |]. split; [exact Hids |].
  apply (fk_find_flood_order line5_face_sets 1%Z 0%nat [7; 7; 7; 7; 7]%Z line5_find_calls
           Hactive Horder Hids).
Defined.

(** ** The face-set builder *)

Lemma face_sets_floodfill_weights (ob : SculptMesh) (fs : FaceSets)
    (neighbors : nat -> list nat) (c : float3) (radius : R) (is_first : bool)
    (to_v : nat) (dup : bool) (st : FaceSetFlood) :
  let st' := fst (face_sets_floodfill ob fs neighbors c radius is_first to_v dup st) in
  let is_vertex_valid :=
    if is_first
    then existsb (fun f => vert_has_face_set fs to_v f) (fsf_visited_face_sets st)
    else vert_has_face_set fs to_v (fsf_current_face_set st) in
  let writes :=
    bool_decide (fsf_current_face_set st = SCULPT_FACE_SET_NONE)
    || (is_vertex_valid && negb (fsf_is_weighted st !!! to_v)) in
  fsf_pose_factor st'
  = (if writes then <[to_v := 1]> (fsf_pose_factor st) else fsf_pose_factor st) /\
  fsf_is_weighted st'
  = (if writes then <[to_v := true]> (fsf_is_weighted st) else fsf_is_weighted st) /\
  (fsf_current_face_set st <> SCULPT_FACE_SET_NONE ->
   fsf_current_face_set st' = fsf_current_face_set st).
Proof.
  cbv zeta. unfold face_sets_floodfill.
  case_bool_decide as Hcur.
  - cbn [orb].
    destruct (vert_inside_brush_radius ob (vert_positions ob !!! to_v) c radius);
      [| destruct (check_vertex_pivot_symmetry ob (vert_positions ob !!! to_v) c
                   && negb dup)];
      cbn [fst fsf_pose_factor fsf_is_weighted fsf_current_face_set];
      (split; [reflexivity | split; [reflexivity | intros H; contradiction]]).
  - cbn [orb].
    destruct (if is_first
              then existsb (fun f => vert_has_face_set fs to_v f) (fsf_visited_face_sets st)
              else vert_has_face_set fs to_v (fsf_current_face_set st)).
    + cbn [negb andb].
      destruct (negb (check_vertex_pivot_symmetry ob (vert_positions ob !!! to_v) c
                      && negb dup)
                || vert_has_unique_face_set fs to_v).
      * cbn [fst fsf_pose_factor fsf_is_weighted fsf_current_face_set].
        split; [reflexivity | split; [reflexivity | intros _; reflexivity]].
      * destruct (fold_left (face_sets_neighbor_step fs (fsf_visited_face_sets st))
                    (neighbors to_v)
                    (fsf_next_face_set_found st, fsf_next_face_set st,
                     fsf_next_vertex st, false)) as [[[found nfs] nv] boundary].
        cbn [fst fsf_pose_factor fsf_is_weighted fsf_current_face_set].
        split; [reflexivity | split; [reflexivity | intros _; reflexivity]].
    + cbn [negb andb fst].
      split; [reflexivity | split; [reflexivity | intros _; reflexivity]].
Qed.

Lemma face_sets_floodfill_step (ob : SculptMesh) (fs : FaceSets)
    (neighbors : nat -> list nat) (c : float3) (radius : R) (is_first : bool)
    (to_v : nat) (dup : bool) (st : FaceSetFlood) (n : nat) :
  length (fsf_pose_factor st) = n ->
  length (fsf_is_weighted st) = n ->
  let st' := fst (face_sets_floodfill ob fs neighbors c radius is_first to_v dup st) in
  length (fsf_pose_factor st') = n /\
  length (fsf_is_weighted st') = n /\
  (forall v : nat, fsf_is_weighted st !!! v = true -> fsf_is_weighted st' !!! v = true) /\
  (forall v : nat,
     fsf_pose_factor st' !!! v = fsf_pose_factor st !!! v \/
     (fsf_pose_factor st' !!! v = 1 /\ fsf_is_weighted st' !!! v = true /\ v = to_v)) /\
  (fsf_current_face_set st <> SCULPT_FACE_SET_NONE ->
   fsf_current_face_set st' = fsf_current_face_set st /\
   forall v : nat,
     fsf_pose_factor st' !!! v = fsf_pose_factor st !!! v \/
     (fsf_pose_factor st' !!! v = 1 /\ fsf_is_weighted st !!! v = false)).
Proof.
  intros HW HB. cbv zeta.
  destruct (face_sets_floodfill_weights ob fs neighbors c radius is_first to_v dup st)
    as (EW & EB & Ecur).
  rewrite EW, EB. clear EW EB.
  set (valid := if is_first
                then existsb (fun f => vert_has_face_set fs to_v f)
                       (fsf_visited_face_sets st)
                else vert_has_face_set fs to_v (fsf_current_face_set st)).
  destruct (bool_decide (fsf_current_face_set st = SCULPT_FACE_SET_NONE)
            || valid && negb (fsf_is_weighted st !!! to_v)) eqn:Hwrites.
  - rewrite !length_insert.
    split; [exact HW |]. split; [exact HB |].
    assert (Hinsert : forall v : nat,
              <[to_v := 1]> (fsf_pose_factor st) !!! v = fsf_pose_factor st !!! v \/
              (<[to_v := 1]> (fsf_pose_factor st) !!! v = 1 /\
               <[to_v := true]> (fsf_is_weighted st) !!! v = true /\ v = to_v)).
    { intros v. destruct (decide (v = to_v)) as [-> | Hne].
      - destruct (decide (to_v < n)%nat) as [Hlt | Hge].
        + right. rewrite !list_lookup_total_insert_eq by lia. repeat split.
        + left. rewrite list_insert_ge by lia. reflexivity.
      - left. apply list_lookup_total_insert_ne. congruence. }
    split.
    { intros v Hv. destruct (decide (v = to_v)) as [-> | Hne].
      - destruct (decide (to_v < n)%nat) as [Hlt | Hge].
        + apply list_lookup_total_insert_eq. lia.
        + rewrite list_insert_ge by lia. exact Hv.
      - rewrite list_lookup_total_insert_ne by congruence. exact Hv. }
    split; [exact Hinsert |].
    intros Hcur. split; [apply Ecur; exact Hcur |].
    rewrite (bool_decide_eq_false_2 _ Hcur) in Hwrites. cbn [orb] in Hwrites.
    apply andb_true_iff in Hwrites as [_ Hunweighted].
    apply negb_true_iff in Hunweighted.
    intros v. destruct (Hinsert v) as [H | (H & _ & ->)]; [left; exact H |].
    right. split; assumption.
  - split; [exact HW |]. split; [exact HB |].
    split; [intros v Hv; exact Hv |].
    split; [intros v; left; reflexivity |].
    intros Hcur. split; [apply Ecur; exact Hcur |]. intros v. left. reflexivity.
Qed.

Lemma face_sets_fold_weights (ob : SculptMesh) (fs : FaceSets)
    (neighbors : nat -> list nat) (c : float3) (radius : R) (is_first : bool)
    (calls : list FloodCall) (st : FaceSetFlood) (n : nat) :
  length (fsf_pose_factor st) = n ->
  length (fsf_is_weighted st) = n ->
  let st' :=
    fold_left
      (fun st call =>
         fst (face_sets_floodfill ob fs neighbors c radius is_first
                (call_to call) (call_dup call) st))
      calls st in
  length (fsf_pose_factor st') = n /\
  length (fsf_is_weighted st') = n /\
  (forall v : nat, fsf_is_weighted st !!! v = true -> fsf_is_weighted st' !!! v = true) /\
  (forall v : nat,
     fsf_pose_factor st' !!! v = fsf_pose_factor st !!! v \/
     (fsf_pose_factor st' !!! v = 1 /\ fsf_is_weighted st' !!! v = true /\
      v ∈ call_to <$> calls)) /\
  (fsf_current_face_set st <> SCULPT_FACE_SET_NONE ->
   forall v : nat,
     fsf_pose_factor st' !!! v = fsf_pose_factor st !!! v \/
     (fsf_pose_factor st' !!! v = 1 /\ fsf_is_weighted st !!! v = false)).
Proof.
  revert st. induction calls as [| call calls IH]; intros st HW HB; cbv zeta.
  - cbn [fold_left]. split; [exact HW |]. split; [exact HB |].
    split; [intros v Hv; exact Hv |].
    split; [intros v; left; reflexivity |].
    intros _ v. left. reflexivity.
  - cbn [fold_left].
    destruct (face_sets_floodfill_step ob fs neighbors c radius is_first
                (call_to call) (call_dup call) st n HW HB)
      as (S1 & S2 & S3 & S4 & S5).
    destruct (IH _ S1 S2) as (I1 & I2 & I3 & I4 & I5).
    split; [exact I1 |]. split; [exact I2 |].
    split; [intros v Hv; apply I3, S3, Hv |].
    split.
    + intros v. rewrite fmap_cons.
      destruct (I4 v) as [Hi | (Hi1 & Hi2 & Hi3)].
      * destruct (S4 v) as [Hs | (Hs1 & Hs2 & Hs3)].
        -- left. rewrite Hi. exact Hs.
        -- right. split; [rewrite Hi; exact Hs1 |].
           split; [apply I3; exact Hs2 |].
           apply elem_of_cons. left. exact Hs3.
      * right. split; [exact Hi1 |]. split; [exact Hi2 |].
        apply elem_of_cons. right. exact Hi3.
    + intros Hcur v.
      destruct (S5 Hcur) as [Hcur' Hs5].
      assert (Hcur1 : fsf_current_face_set
                        (fst (face_sets_floodfill ob fs neighbors c radius is_first
                                (call_to call) (call_dup call) st))
                      <> SCULPT_FACE_SET_NONE) by (rewrite Hcur'; exact Hcur).
      destruct (I5 Hcur1 v) as [Hi | (Hi1 & Hi2)].
      * destruct (Hs5 v) as [Hs | (Hs1 & Hs2)].
        -- left. rewrite Hi. exact Hs.
        -- right. split; [rewrite Hi; exact Hs1 | exact Hs2].
      * right. split; [exact Hi1 |].
        destruct (fsf_is_weighted st !!! v) eqn:Hb; [| reflexivity].
        rewrite (S3 v Hb) in Hi2. discriminate.
Qed.

Lemma lookup_total_replicate_zero (n v : nat) : replicate n 0 !!! v = 0.
Proof.
  destruct (decide (v < n)%nat) as [Hlt | Hge].
  - apply lookup_total_replicate_2. exact Hlt.
  - apply lookup_total_out_of_range. rewrite length_replicate. lia.
Qed.

Lemma face_sets_segment_weights (ob : SculptMesh) (fs : FaceSets)
    (neighbors : nat -> list nat) (null_vertex : nat) (radius : R) (is_first : bool)
    (calls : list FloodCall) (sh : FaceSetLoop) (s : IKChainSegment) (n : nat) :
  weights s = replicate n 0 ->
  length (fsl_is_weighted sh) = n ->
  let s' := fst (face_sets_segment ob fs neighbors null_vertex radius is_first calls sh s) in
  let sh' := snd (face_sets_segment ob fs neighbors null_vertex radius is_first calls sh s) in
  length (weights s') = n /\
  length (fsl_is_weighted sh') = n /\
  (forall v : nat, fsl_is_weighted sh !!! v = true -> fsl_is_weighted sh' !!! v = true) /\
  (forall v : nat,
     weights s' !!! v = 0 \/
     (weights s' !!! v = 1 /\ fsl_is_weighted sh' !!! v = true /\
      v ∈ call_to <$> calls)) /\
  (fsl_current_face_set sh <> SCULPT_FACE_SET_NONE ->
   forall v : nat, weights s' !!! v = 1 -> fsl_is_weighted sh !!! v = false).
Proof.
  intros Hw HB. cbv zeta. unfold face_sets_segment. cbn [fst snd].
  unfold set_orig_weights. cbn [weights fsl_is_weighted].
  unfold face_sets_flood.
  match goal with
  | |- context [fold_left ?f calls ?st0] =>
      pose proof (face_sets_fold_weights ob fs neighbors
                    (vert_positions ob !!! fsl_current_vertex sh) radius is_first
                    calls st0 n) as Hfold
  end.
  cbn [fsf_pose_factor fsf_is_weighted fsf_current_face_set] in Hfold.
  rewrite Hw in Hfold |- *.
  destruct (Hfold (length_replicate n 0) HB) as (F1 & F2 & F3 & F4 & F5).
  split; [exact F1 |]. split; [exact F2 |]. split; [exact F3 |].
  split.
  - intros v. destruct (F4 v) as [H | H]; [left | right; exact H].
    rewrite H. apply lookup_total_replicate_zero.
  - intros Hcur v Hv. destruct (F5 Hcur v) as [H | [_ H]]; [| exact H].
    rewrite H, lookup_total_replicate_zero in Hv. lra.
Qed.

Lemma face_sets_loop_weights (ob : SculptMesh) (fs : FaceSets)
    (neighbors : nat -> list nat) (null_vertex : nat) (radius : R)
    (calls : nat -> list FloodCall) (n : nat) (segs : list IKChainSegment)
    (i : nat) (sh : FaceSetLoop) :
  Forall (fun s => weights s = replicate n 0) segs ->
  length (fsl_is_weighted sh) = n ->
  let out := face_sets_loop ob fs neighbors null_vertex radius calls i sh segs in
  length out = length segs /\
  forall (k : nat) (s : IKChainSegment),
    out !! k = Some s ->
    length (weights s) = n /\
    forall v : nat,
      weights s !!! v = 0 \/
      (weights s !!! v = 1 /\ v ∈ call_to <$> calls (i + k)%nat).
Proof.
  revert i sh. induction segs as [| s0 rest IH]; intros i sh Hsegs HB; cbv zeta.
  - split; [reflexivity |]. intros k s Hk. discriminate.
  - apply Forall_cons in Hsegs as [Hs0 Hrest].
    cbn [face_sets_loop].
    destruct (face_sets_segment ob fs neighbors null_vertex radius (i =? 0)%nat
                (calls i) sh s0) as [s' sh'] eqn:Hseg.
    pose proof (face_sets_segment_weights ob fs neighbors null_vertex radius
                  (i =? 0)%nat (calls i) sh s0 n Hs0 HB) as Hstep.
    cbv zeta in Hstep. rewrite Hseg in Hstep. cbn [fst snd] in Hstep.
    destruct Hstep as (S1 & S2 & _ & S4 & _).
    destruct (IH (S i) sh' Hrest S2) as [IHlen IHk].
    split; [cbn [length]; rewrite IHlen; reflexivity |].
    intros [| k] s Hk.
    + cbn in Hk. injection Hk as <-. split; [exact S1 |].
      intros v. rewrite Nat.add_0_r.
      destruct (S4 v) as [H | (H1 & _ & H3)]; [left; exact H | right; split; assumption].
    + cbn in Hk. replace (i + S k)%nat with (S i + k)%nat by lia.
      apply IHk. exact Hk.
Qed.

Lemma face_sets_loop_tail_disjoint (ob : SculptMesh) (fs : FaceSets)
    (neighbors : nat -> list nat) (null_vertex : nat) (radius : R)
    (calls : nat -> list FloodCall) (n : nat) (segs : list IKChainSegment)
    (i : nat) (sh : FaceSetLoop) :
  Forall (fun s => weights s = replicate n 0) segs ->
  length (fsl_is_weighted sh) = n ->
  Forall (fun f => f <> SCULPT_FACE_SET_NONE)
         (face_sets_loop_current ob fs neighbors null_vertex radius calls i sh segs) ->
  let out := face_sets_loop ob fs neighbors null_vertex radius calls i sh segs in
  (forall (k : nat) (s : IKChainSegment) (v : nat),
     out !! k = Some s -> weights s !!! v = 1 -> fsl_is_weighted sh !!! v = false) /\
  (forall (k1 k2 : nat) (s1 s2 : IKChainSegment) (v : nat),
     (k1 < k2)%nat -> out !! k1 = Some s1 -> out !! k2 = Some s2 ->
     weights s1 !!! v = 1 -> weights s2 !!! v = 0).
Proof.
  revert i sh. induction segs as [| s0 rest IH]; intros i sh Hsegs HB Hcur; cbv zeta.
  - split; intros; discriminate.
  - apply Forall_cons in Hsegs as [Hs0 Hrest].
    cbn [face_sets_loop_current] in Hcur. apply Forall_cons in Hcur as [Hcur0 Hcur].
    cbn [face_sets_loop].
    destruct (face_sets_segment ob fs neighbors null_vertex radius (i =? 0)%nat
                (calls i) sh s0) as [s' sh'] eqn:Hseg.
    pose proof (face_sets_segment_weights ob fs neighbors null_vertex radius
                  (i =? 0)%nat (calls i) sh s0 n Hs0 HB) as Hstep.
    cbv zeta in Hstep. rewrite Hseg in Hstep. cbn [fst snd] in Hstep, Hcur.
    destruct Hstep as (S1 & S2 & S3 & S4 & S5).
    destruct (IH (S i) sh' Hrest S2 Hcur) as [IH1 IH2].
    destruct (face_sets_loop_weights ob fs neighbors null_vertex radius calls n rest
                (S i) sh' Hrest S2) as [_ Hbits].
    split.
    + intros [| k] s v Hk Hv.
      * cbn in Hk. injection Hk as <-. apply (S5 Hcur0 v Hv).
      * cbn in Hk. pose proof (IH1 k s v Hk Hv) as Hfalse.
        destruct (fsl_is_weighted sh !!! v) eqn:Hb; [| reflexivity].
        rewrite (S3 v Hb) in Hfalse. discriminate.
    + intros [| k1] [| k2] s1 s2 v Hlt Hk1 Hk2 Hv; try lia.
      * cbn in Hk1, Hk2. injection Hk1 as <-.
        destruct (S4 v) as [H0 | (_ & Htrue & _)]; [rewrite H0 in Hv; lra |].
        destruct (Hbits k2 s2 Hk2) as [_ Hs2].
        destruct (Hs2 v) as [H | [H _]]; [exact H |].
        rewrite (IH1 k2 s2 v Hk2 H) in Htrue. discriminate.
      * cbn in Hk1, Hk2. apply (IH2 k1 k2 s1 s2 v); [lia | assumption ..].
Qed.

Lemma ik_chain_new_segments_zero (totsegments totverts : nat) :
  Forall (fun s => weights s = replicate totverts 0)
         (segments (ik_chain_new totsegments totverts)).
Proof.
  unfold ik_chain_new. cbn [segments].
  apply Forall_forall. intros s Hs. apply elem_of_replicate in Hs as [-> _]. reflexivity.
Qed.

Lemma init_face_sets_lookup (ob : SculptMesh) (fs : FaceSets)
    (neighbors : nat -> list nat) (brush : Brush) (calls : nat -> list FloodCall)
    (active_vertex null_vertex : nat) (radius : R) (i : nat) (s : IKChainSegment) :
  segments (ik_chain_init_face_sets ob fs neighbors brush calls active_vertex
              null_vertex radius) !! i = Some s ->
  exists s0 : IKChainSegment,
    face_sets_loop ob fs neighbors null_vertex radius calls 0
      (face_sets_loop_start ob active_vertex)
      (segments (ik_chain_new (Z.to_nat (brush_num_effective_segments brush))
                   (vertex_count ob))) !! i = Some s0 /\
    weights s = weights s0.
Proof.
  unfold ik_chain_init_face_sets, ik_chain_origin_heads_init, set_segments.
  cbn [segments]. intros Hs.
  match type of Hs with
  | origin_heads_loop ?h ?l !! i = Some s =>
      pose proof (origin_heads_loop_weights h l) as Hw;
      assert (Hi : (weights <$> origin_heads_loop h l) !! i = Some (weights s))
        by (rewrite list_lookup_fmap, Hs; reflexivity);
      rewrite Hw, list_lookup_fmap in Hi;
      destruct (l !! i) as [s0 |] eqn:Hs0; [| discriminate]
  end.
  exists s0. split; [reflexivity |]. simpl in Hi. congruence.
Qed.

(** X23.  The face-set builder returns as many segments as the brush
    asks for, each in its reference pose, with one weight per vertex.
    Every weight is 0 or 1, and a vertex has weight 1 in segment [i]
    only if the flood fill of segment [i] visited it. *)
Theorem ik_chain_init_face_sets_shape (ob : SculptMesh) (fs : FaceSets)
    (neighbors : nat -> list nat) (brush : Brush) (calls : nat -> list FloodCall)
    (active_vertex null_vertex : nat) (radius : R) :
  let chain :=
    ik_chain_init_face_sets ob fs neighbors brush calls active_vertex null_vertex
      radius in
  length (segments chain) = Z.to_nat (brush_num_effective_segments brush) /\
  forall (i : nat) (s : IKChainSegment),
    segments chain !! i = Some s ->
    at_reference_pose s /\
    length (weights s) = vertex_count ob /\
    forall v : nat,
      weights s !!! v = 0 \/ (weights s !!! v = 1 /\ v ∈ call_to <$> calls i).
Proof.
  cbv zeta.
  destruct (face_sets_loop_weights ob fs neighbors null_vertex radius calls
              (vertex_count ob)
              (segments (ik_chain_new (Z.to_nat (brush_num_effective_segments brush))
                           (vertex_count ob)))
              0%nat (face_sets_loop_start ob active_vertex)
              (ik_chain_new_segments_zero _ _)
              (length_replicate (vertex_count ob) false)) as [Hlen Hk].
  split.
  - unfold ik_chain_init_face_sets, ik_chain_origin_heads_init, set_segments.
    cbn [segments]. rewrite origin_heads_loop_length.
    unfold ik_chain_new in Hlen |- *. cbn [segments] in Hlen |- *.
    rewrite Hlen. apply length_replicate.
  - intros i s Hs. split.
    + unfold ik_chain_init_face_sets, ik_chain_origin_heads_init, set_segments in Hs.
      cbn [segments] in Hs.
      match type of Hs with
      | origin_heads_loop ?h ?l !! i = Some s =>
          pose proof (origin_heads_loop_reference h l) as Href
      end.
      rewrite Forall_lookup in Href. apply (Href i s Hs).
    + destruct (init_face_sets_lookup _ _ _ _ _ _ _ _ _ _ Hs) as (s0 & Hs0 & ->).
      apply (Hk i s0 Hs0).
Qed.

(** X24.  In the face-set builder each vertex is assigned to one segment
    only, as long as every segment after the first starts from a face
    set that was found: if [current_face_set] is not
    [SCULPT_FACE_SET_NONE] at the start of every iteration but the first,
    a vertex with weight 1 in one segment has weight 0 in every later
    one. *)
Theorem ik_chain_init_face_sets_disjoint (ob : SculptMesh) (fs : FaceSets)
    (neighbors : nat -> list nat) (brush : Brush) (calls : nat -> list FloodCall)
    (active_vertex null_vertex : nat) (radius : R)
    (i j : nat) (si sj : IKChainSegment) (v : nat) :
  let chain :=
    ik_chain_init_face_sets ob fs neighbors brush calls active_vertex null_vertex
      radius in
  Forall (fun f => f <> SCULPT_FACE_SET_NONE)
         (face_sets_later_current ob fs neighbors brush calls active_vertex null_vertex
            radius) ->
  (i < j)%nat ->
  segments chain !! i = Some si ->
  segments chain !! j = Some sj ->
  weights si !!! v = 1 ->
  weights sj !!! v = 0.
Proof.
  cbv zeta. intros Hcur Hlt Hsi Hsj Hv.
  destruct (init_face_sets_lookup _ _ _ _ _ _ _ _ _ _ Hsi) as (si0 & Hsi0 & Ewi).
  destruct (init_face_sets_lookup _ _ _ _ _ _ _ _ _ _ Hsj) as (sj0 & Hsj0 & Ewj).
  rewrite Ewi in Hv. rewrite Ewj. clear Hsi Hsj Ewi Ewj si sj.
  unfold face_sets_later_current in Hcur.
  pose proof (ik_chain_new_segments_zero
                (Z.to_nat (brush_num_effective_segments brush)) (vertex_count ob))
    as Hzero.
  destruct (segments (ik_chain_new (Z.to_nat (brush_num_effective_segments brush))
                        (vertex_count ob))) as [| s0 rest]; [discriminate |].
  apply Forall_cons in Hzero as [Hs0 Hrest].
  cbn [face_sets_loop_current tail] in Hcur.
  cbn [face_sets_loop] in Hsi0, Hsj0.
  destruct (face_sets_segment ob fs neighbors null_vertex radius (0 =? 0)%nat
              (calls 0%nat) (face_sets_loop_start ob active_vertex) s0)
    as [s' sh'] eqn:Hseg.
  pose proof (face_sets_segment_weights ob fs neighbors null_vertex radius
                (0 =? 0)%nat (calls 0%nat) (face_sets_loop_start ob active_vertex) s0
                (vertex_count ob) Hs0 (length_replicate (vertex_count ob) false))
    as Hstep.
  cbv zeta in Hstep. rewrite Hseg in Hstep. cbn [fst snd] in Hstep, Hcur.
  destruct Hstep as (_ & S2 & _ & S4 & _).
  destruct (face_sets_loop_tail_disjoint ob fs neighbors null_vertex radius calls
              (vertex_count ob) rest 1%nat sh' Hrest S2 Hcur) as [T1 T2].
  destruct (face_sets_loop_weights ob fs neighbors null_vertex radius calls
              (vertex_count ob) rest 1%nat sh' Hrest S2) as [_ Hbits].
  destruct j as [| j]; [lia |]. cbn in Hsj0.
  destruct i as [| i].
  - cbn in Hsi0. injection Hsi0 as <-.
    destruct (S4 v) as [H0 | (_ & Htrue & _)]; [rewrite H0 in Hv; lra |].
    destruct (Hbits j sj0 Hsj0) as [_ Hs2].
    destruct (Hs2 v) as [H | [H _]]; [exact H |].
    rewrite (T1 j sj0 v Hsj0 H) in Htrue. discriminate.
  - cbn in Hsi0. apply (T2 i j si0 sj0 v); [lia | assumption ..].
Qed.

Lemma vert_inside_brush_radius_zero (ob : SculptMesh) (vertex br_co : float3)
    (radius : R) :
  radius <= 0 -> vert_inside_brush_radius ob vertex br_co radius = false.
Proof.
  intros Hr. unfold vert_inside_brush_radius.
  apply not_true_is_false. intros H. apply existsb_exists in H as (i & _ & Hi).
  apply andb_true_iff in Hi as [_ Hi]. apply bool_decide_eq_true in Hi.
  pose proof (f3_length_nonneg (symmetry_flip ob br_co i -v vertex)).
  unfold distance in Hi. lra.
Qed.

Lemma line5_face_sets_first_flood :
  face_sets_flood line5 line5_face_sets (vert_neighbors line5) 0 0 true
    (line5_face_set_calls 0) (face_sets_loop_start line5 0) (replicate 5 0)
  = mk_fs_flood [0; 1; 1; 0; 0] [1; 0]%Z [false; true; true; false; false]
      (f3_zero +v mk_float3 2 0 0) 1 1 true 2 3 (f3_zero +v mk_float3 2 0 0) 1.
Proof.
  unfold face_sets_flood, line5_face_set_calls, face_sets_loop_start.
  cbn [fold_left call_to call_dup fsl_current_vertex fsl_current_face_set
       fsl_visited_face_sets fsl_is_weighted].
  unfold face_sets_floodfill.
  rewrite !vert_inside_brush_radius_zero by lra.
  vm_compute. reflexivity.
Qed.

Lemma line5_face_sets_second_flood :
  fsf_pose_factor
    (face_sets_flood line5 line5_face_sets (vert_neighbors line5) 0 0 false
       (line5_face_set_calls 1)
       (mk_fs_loop [1; 0]%Z [false; true; true; false; false] 2 3) (replicate 5 0))
  = [0; 0; 0; 0; 1].
Proof.
  unfold face_sets_flood, line5_face_set_calls.
  cbn [fold_left call_to call_dup fsl_current_vertex fsl_current_face_set
       fsl_visited_face_sets fsl_is_weighted].
  unfold face_sets_floodfill.
  vm_compute. reflexivity.
Qed.

Lemma line5_face_sets_first_segment :
  snd (face_sets_segment line5 line5_face_sets (vert_neighbors line5) 0 0 true
         (line5_face_set_calls 0) (face_sets_loop_start line5 0) (new_segment 5))
  = mk_fs_loop [1; 0]%Z [false; true; true; false; false] 2 3 /\
  weights (fst (face_sets_segment line5 line5_face_sets (vert_neighbors line5) 0 0 true
                  (line5_face_set_calls 0) (face_sets_loop_start line5 0)
                  (new_segment 5)))
  = [0; 1; 1; 0; 0].
Proof.
  unfold face_sets_segment. cbn [fst snd].
  change (weights (new_segment 5)) with (replicate 5 0).
  rewrite line5_face_sets_first_flood. split; reflexivity.
Qed.

Lemma line5_face_sets_weights :
  weights <$> segments (ik_chain_init_face_sets line5 line5_face_sets
                          (vert_neighbors line5) brush_rotate2 line5_face_set_calls
                          0 0 0)
  = [[0; 1; 1; 0; 0]; [0; 0; 0; 0; 1]].
Proof.
  unfold ik_chain_init_face_sets, ik_chain_origin_heads_init, set_segments.
  cbn [segments]. rewrite origin_heads_loop_weights.
  unfold ik_chain_new, brush_rotate2, brush_num_effective_segments.
  cbn [pose_deform_type pose_ik_segments segments].
  change (Z.to_nat 2) with 2%nat.
  change (vertex_count line5) with 5%nat.
  cbn [replicate face_sets_loop Nat.eqb].
  destruct line5_face_sets_first_segment as [Hsh Hw].
  destruct (face_sets_segment line5 line5_face_sets (vert_neighbors line5) 0 0 true
              (line5_face_set_calls 0) (face_sets_loop_start line5 0) (new_segment 5))
    as [s' sh'].
  cbn [fst snd] in Hsh, Hw. subst sh'.
  destruct (face_sets_segment line5 line5_face_sets (vert_neighbors line5) 0 0 false
              (line5_face_set_calls 1)
              (mk_fs_loop [1; 0]%Z [false; true; true; false; false] 2 3)
              (new_segment 5)) as [s2 sh2] eqn:Hseg2.
  rewrite !fmap_cons, Hw. f_equal. f_equal.
  apply (f_equal fst) in Hseg2. cbn [fst] in Hseg2. rewrite <- Hseg2.
  unfold face_sets_segment. cbn [fst set_orig_weights weights].
  change (replicate 5 0) with (replicate 5 0).
  apply line5_face_sets_second_flood.
Qed.

Lemma line5_face_sets_later_current :
  face_sets_later_current line5 line5_face_sets (vert_neighbors line5) brush_rotate2
    line5_face_set_calls 0 0 0 = [2%Z].
Proof.
  unfold face_sets_later_current.
  unfold ik_chain_new, brush_rotate2, brush_num_effective_segments.
  cbn [pose_deform_type pose_ik_segments segments].
  change (Z.to_nat 2) with 2%nat.
  change (vertex_count line5) with 5%nat.
  cbn [replicate face_sets_loop_current tail Nat.eqb].
  destruct line5_face_sets_first_segment as [Hsh _].
  rewrite Hsh. reflexivity.
Qed.

Lemma ik_chain_init_face_sets_disjoint_witness :
  let chain :=
    ik_chain_init_face_sets line5 line5_face_sets (vert_neighbors line5) brush_rotate2
      line5_face_set_calls 0 0 0 in
  Forall (fun f => f <> SCULPT_FACE_SET_NONE)
         (face_sets_later_current line5 line5_face_sets (vert_neighbors line5)
            brush_rotate2 line5_face_set_calls 0 0 0) /\
  (0 < 1)%nat /\
  segments chain !! 0%nat = Some (segments chain !!! 0%nat) /\
  segments chain !! 1%nat = Some (segments chain !!! 1%nat) /\
  weights (segments chain !!! 0%nat) !!! 2%nat = 1 /\
  weights (segments chain !!! 1%nat) !!! 2%nat = 0.
Proof.
  cbv zeta.
  pose proof line5_face_sets_weights as Hw.
  assert (Hlen : length (segments (ik_chain_init_face_sets line5 line5_face_sets
                                     (vert_neighbors line5) brush_rotate2
                                     line5_face_set_calls 0 0 0)) = 2%nat).
  { rewrite <- (length_fmap weights), Hw. reflexivity. }
  assert (Hcur : Forall (fun f => f <> SCULPT_FACE_SET_NONE)
                   (face_sets_later_current line5 line5_face_sets (vert_neighbors line5)
                      brush_rotate2 line5_face_set_calls 0 0 0)).
  { rewrite line5_face_sets_later_current. repeat constructor.
    unfold SCULPT_FACE_SET_NONE. lia. }
  assert (H0 : segments (ik_chain_init_face_sets line5 line5_face_sets
                           (vert_neighbors line5) brush_rotate2 line5_face_set_calls
                           0 0 0) !! 0%nat
               = Some (segments (ik_chain_init_face_sets line5 line5_face_sets
                                   (vert_neighbors line5) brush_rotate2
                                   line5_face_set_calls 0 0 0) !!! 0%nat)).
  { apply list_lookup_lookup_total_lt. rewrite Hlen. lia. }
  assert (H1 : segments (ik_chain_init_face_sets line5 line5_face_sets
                           (vert_neighbors line5) brush_rotate2 line5_face_set_calls
                           0 0 0) !! 1%nat
               = Some (segments (ik_chain_init_face_sets line5 line5_face_sets
                                   (vert_neighbors line5) brush_rotate2
                                   line5_face_set_calls 0 0 0) !!! 1%nat)).
  { apply list_lookup_lookup_total_lt. rewrite Hlen. lia. }
  assert (Hv : weights (segments (ik_chain_init_face_sets line5 line5_face_sets
                                    (vert_neighbors line5) brush_rotate2
                                    line5_face_set_calls 0 0 0) !!! 0%nat) !!! 2%nat
               = 1).
  { rewrite <- (list_lookup_total_fmap weights) by (rewrite Hlen; lia).
    rewrite Hw. reflexivity. }
  assert (Hlt : (0 < 1)%nat) by lia.
  split; [exact Hcur |]. split; [exact Hlt |]. split; [exact H0 |].
  split; [exact H1 |]. split; [exact Hv |].
  apply (ik_chain_init_face_sets_disjoint line5 line5_face_sets (vert_neighbors line5)
           brush_rotate2 line5_face_set_calls 0%nat 0%nat 0 0%nat 1%nat _ _ 2%nat
           Hcur Hlt H0 H1 Hv).
Defined.

(** ** The deformation applicator *)

Lemma sum_f3_snoc (l : list float3) (x : float3) : sum_f3 (l ++ [x]) = sum_f3 l +v x.
Proof.
  induction l as [| y l IH].
  - simpl. unfold sum_f3. simpl. f3_ring.
  - rewrite <- app_comm_cons, !sum_f3_cons, IH. f3_ring.
Qed.

Lemma calc_mesh_translations_fold (transform_point : float4x4 -> float3 -> float3)
    (get_vertex_symm_area : float3 -> nat) (orig_positions : list float3)
    (verts : list nat) (segs : list IKChainSegment) (acc : list float3) (k : nat)
    (p : float3) (v : nat) :
  length acc = length verts ->
  length orig_positions = length verts ->
  orig_positions !! k = Some p ->
  verts !! k = Some v ->
  let out :=
    fold_left
      (fun translations segment =>
         add_arrays translations
           (scale_translations
              (calc_segment_translations transform_point get_vertex_symm_area
                 orig_positions segment)
              (gather_data_mesh (weights segment) verts)))
      segs acc in
  length out = length verts /\
  out !!! k
  = acc !!! k
    +v sum_f3 ((fun s => segment_displacement transform_point get_vertex_symm_area s p
                         *v (weights s !!! v)) <$> segs).
Proof.
  revert acc. induction segs as [| s segs IH]; intros acc Hacc Hlen Hp Hv; cbv zeta.
  - cbn [fold_left fmap list_fmap]. split; [exact Hacc |].
    unfold sum_f3. cbn [fold_right]. f3_ring.
  - cbn [fold_left].
    set (step := add_arrays acc
                   (scale_translations
                      (calc_segment_translations transform_point get_vertex_symm_area
                         orig_positions s)
                      (gather_data_mesh (weights s) verts))).
    assert (Hk : (k < length verts)%nat) by (apply lookup_lt_is_Some; eauto).
    assert (Hkp : (k < length orig_positions)%nat) by (apply lookup_lt_is_Some; eauto).
    assert (Hscaled :
              scale_translations
                (calc_segment_translations transform_point get_vertex_symm_area
                   orig_positions s)
                (gather_data_mesh (weights s) verts) !! k
              = Some (segment_displacement transform_point get_vertex_symm_area s p
                      *v (weights s !!! v))).
    { unfold scale_translations, calc_segment_translations, gather_data_mesh.
      rewrite lookup_zip_with, !list_lookup_fmap, Hp, Hv. reflexivity. }
    assert (Hacck : acc !! k = Some (acc !!! k)).
    { apply list_lookup_lookup_total_lt. rewrite Hacc. exact Hk. }
    assert (Hstepk : step !! k
                     = Some (acc !!! k
                             +v segment_displacement transform_point
                                  get_vertex_symm_area s p *v (weights s !!! v))).
    { unfold step, add_arrays. rewrite lookup_zip_with, Hacck, Hscaled. reflexivity. }
    assert (Hsteplen : length step = length verts).
    { unfold step, add_arrays, scale_translations, calc_segment_translations,
        gather_data_mesh.
      rewrite !length_zip_with, !length_fmap. lia. }
    destruct (IH step Hsteplen Hlen Hp Hv) as [IHlen IHk].
    split; [exact IHlen |].
    rewrite IHk, fmap_cons, sum_f3_cons.
    rewrite (list_lookup_total_correct _ _ _ Hstepk). f3_ring.
Qed.

Lemma sum_f3_unweighted (d : IKChainSegment -> float3) (v : nat)
    (segs : list IKChainSegment) :
  Forall (fun s => weights s !!! v = 0) segs ->
  sum_f3 ((fun s => d s *v (weights s !!! v)) <$> segs) = f3_zero.
Proof.
  induction 1 as [| s segs Hs _ IH]; [reflexivity |].
  rewrite fmap_cons, sum_f3_cons, IH, Hs. unfold f3_zero. f3_ring.
Qed.

(** X25.  The translation the applicator accumulates for an element of a
    node is the sum, over the segments of the chain, of the displacement
    of the element's original position by the segment scaled by the
    segment's weight of the element's vertex, and that sum scaled by the
    element's factor.  One translation comes out per element.  An
    element with factor 0, or whose vertex has weight 0 in every
    segment, gets the zero translation. *)
Theorem calc_mesh_translations_pointwise
    (transform_point : float4x4 -> float3 -> float3)
    (get_vertex_symm_area : float3 -> nat) (orig_positions : list float3)
    (verts : list nat) (factors : list R) (ik_chain : IKChain)
    (k : nat) (p : float3) (v : nat) (f : R) :
  length orig_positions = length verts ->
  length factors = length verts ->
  orig_positions !! k = Some p ->
  verts !! k = Some v ->
  factors !! k = Some f ->
  let out :=
    calc_mesh_translations transform_point get_vertex_symm_area orig_positions verts
      factors ik_chain in
  length out = length verts /\
  out !!! k
  = sum_f3 ((fun s => segment_displacement transform_point get_vertex_symm_area s p
                      *v (weights s !!! v)) <$> segments ik_chain) *v f /\
  (f = 0 -> out !!! k = f3_zero) /\
  (Forall (fun s => weights s !!! v = 0) (segments ik_chain) -> out !!! k = f3_zero).
Proof.
  intros Hlen Hfactors Hp Hv Hf. cbv zeta. unfold calc_mesh_translations.
  destruct (calc_mesh_translations_fold transform_point get_vertex_symm_area
              orig_positions verts (segments ik_chain)
              (replicate (length verts) f3_zero) k p v
              (length_replicate _ _) Hlen Hp Hv) as [Hfoldlen Hfold].
  cbv zeta in Hfoldlen, Hfold.
  assert (Hk : (k < length verts)%nat) by (apply lookup_lt_is_Some; eauto).
  rewrite lookup_total_replicate_2 in Hfold by exact Hk.
  set (acc := fold_left _ (segments ik_chain) (replicate (length verts) f3_zero)) in *.
  assert (Hacck : acc !! k = Some (acc !!! k)).
  { apply list_lookup_lookup_total_lt. rewrite Hfoldlen. exact Hk. }
  assert (Hout : scale_translations acc factors !!! k
                 = sum_f3 ((fun s => segment_displacement transform_point
                                       get_vertex_symm_area s p
                                     *v (weights s !!! v)) <$> segments ik_chain) *v f).
  { apply list_lookup_total_correct. unfold scale_translations.
    rewrite lookup_zip_with, Hacck, Hf. cbn. rewrite Hfold. f_equal. f_equal. f3_ring. }
  split; [unfold scale_translations; rewrite length_zip_with; lia |].
  split; [exact Hout |].
  split.
  - intros ->. rewrite Hout. f3_ring.
  - intros Hzero. rewrite Hout.
    assert (Hsum : sum_f3 ((fun s => segment_displacement transform_point
                                       get_vertex_symm_area s p
                                     *v (weights s !!! v)) <$> segments ik_chain)
                   = f3_zero).
    { apply sum_f3_unweighted. exact Hzero. }
    rewrite Hsum. f3_ring.
Qed.

Lemma shift_segment_displacement (v : float3) (w : list R) (p : float3) :
  segment_displacement ref_transform_point (fun _ : float3 => 0%nat)
    (shift_segment v w) p = v.
Proof.
  unfold segment_displacement, shift_segment, ref_transform_point, shift_m4, unit_m4.
  cbn [pivot_mat_inv trans_mat pivot_mat replicate PAINT_SYMM_AREAS lookup_total
       list_lookup_total m_row0 m_row1 m_row2 m_row3 f4_xyz].
  destruct v as [x y z], p as [a b c]. unfold f3_zero. f3_ring.
Qed.

Lemma calc_mesh_translations_pointwise_witness :
  let out :=
    calc_mesh_translations ref_transform_point (fun _ : float3 => 0%nat)
      [f3_zero; mk_float3 0 0 1] [0%nat; 1%nat] [1; 1 / 2] blend_chain in
  length [f3_zero; mk_float3 0 0 1] = length [0%nat; 1%nat] /\
  length [1; 1 / 2] = length [0%nat; 1%nat] /\
  [f3_zero; mk_float3 0 0 1] !! 1%nat = Some (mk_float3 0 0 1) /\
  [0%nat; 1%nat] !! 1%nat = Some 1%nat /\
  [1; 1 / 2] !! 1%nat = Some (1 / 2) /\
  length out = length [0%nat; 1%nat] /\
  out !!! 1%nat
  = sum_f3 ((fun s => segment_displacement ref_transform_point
                        (fun _ : float3 => 0%nat) s (mk_float3 0 0 1)
                      *v (weights s !!! 1%nat)) <$> segments blend_chain) *v (1 / 2) /\
  (1 / 2 = 0 -> out !!! 1%nat = f3_zero) /\
  (Forall (fun s => weights s !!! 1%nat = 0) (segments blend_chain) ->
   out !!! 1%nat = f3_zero).
Proof.
  cbv zeta.
  split; [reflexivity |]. split; [reflexivity |]. split; [reflexivity |].
  split; [reflexivity |]. split; [reflexivity |].
  apply (calc_mesh_translations_pointwise ref_transform_point (fun _ : float3 => 0%nat)
           [f3_zero; mk_float3 0 0 1] [0%nat; 1%nat] [1; 1 / 2] blend_chain
           1%nat (mk_float3 0 0 1) 1%nat (1 / 2)
           eq_refl eq_refl eq_refl eq_refl eq_refl).
Defined.

(** The sample, evaluated: the shared vertex moves by a quarter along x
    and a quarter along y, half of each segment's move at the factor
    1/2; the other vertex moves by the second segment alone. *)
Lemma blend_chain_translations :
  calc_mesh_translations ref_transform_point (fun _ : float3 => 0%nat)
    [f3_zero; mk_float3 0 0 1] [0%nat; 1%nat] [1; 1 / 2] blend_chain
  = [mk_float3 0 1 0; mk_float3 (1 / 4) (1 / 4) 0].
Proof.
  unfold calc_mesh_translations, blend_chain.
  cbn [segments fold_left length replicate].
  unfold calc_segment_translations. cbn [fmap list_fmap].
  rewrite !shift_segment_displacement.
  unfold gather_data_mesh, shift_segment. cbn [weights fmap list_fmap].
  cbn [lookup_total list_lookup_total].
  unfold scale_translations, add_arrays. cbn [zip_with].
  unfold f3_zero. repeat f_equal; f3_field.
Qed.
